(** * The Berkshire letters vector store

    A shallow embedding of the vector store module of the RAG application,
    the one that keeps its index in memory and snapshots it to
    [data/vectors.json]: the in-memory index [SimpleMemoryVectorStore] and
    the facade [BerkshireVectorStore].

    - JavaScript numbers are IEEE 754 binary64 values, Rocq's primitive
      [float]; every arithmetic step of the source is the corresponding
      primitive operation, so a score evaluates to the bits a JavaScript
      engine produces.
    - Metadata objects and filters are finite maps from property names to
      JavaScript values.
    - [async] methods run to completion one after the other; they are state
      transformers over the store, the files, the console and the log of
      requests sent to the embedding provider, and they return, throw, or
      leave the typed model (see [outcome]). *)

From Stdlib Require Import Reals Lra.
From Stdlib Require Import Floats ZArith Sorting.Sorted Permutation.
From stdpp Require Import base option list sorting strings gmap fin_maps.

#[local] Set Warnings "-register-all".
#[local] Open Scope Z_scope.
#[local] Open Scope nat_scope.

(** ** JavaScript values *)

(** Primitive values.  Filters are maps from keys to these. *)
Inductive scalar :=
  | Undefined
  | Null
  | Bool (b : bool)
  | Num (x : float)
  | Str (s : string).

(** What a [Record<string, any>] may hold: a primitive, an array or a nested
    object.  No code here mutates a value once built, so trees suffice. *)
Inductive jsval :=
  | Scalar (p : scalar)
  | Arr (l : list jsval)
  | Obj (m : gmap string jsval).

Coercion Scalar : scalar >-> jsval.

(** [a === b] on primitives: no coercion, [NaN] differs from itself and
    [+0 === -0], which is what [PrimFloat.eqb] computes. *)
Definition strict_eq_scalar (a b : scalar) : bool :=
  match a, b with
  | Undefined, Undefined => true
  | Null, Null => true
  | Bool x, Bool y => bool_decide (x = y)
  | Num x, Num y => PrimFloat.eqb x y
  | Str x, Str y => bool_decide (x = y)
  | _, _ => false
  end.

(** [v === w] for a stored value [v] and a primitive [w].  Arrays and objects
    are compared by identity in JavaScript and are never identical to a
    primitive. *)
Definition strict_eq (v : jsval) (w : scalar) : bool :=
  match v with
  | Scalar a => strict_eq_scalar a w
  | _ => false
  end.

(** [o.chunkIndex], [o.year] and the like: the object's own property, and
    [undefined] when it has none.  This is [o[key]] for every key that is not
    the name of a member of [Object.prototype]; the program reads fixed keys
    of this kind everywhere but in the filter of [similaritySearch], which
    reads with [get_member] below. *)
Definition get_prop (o : gmap string jsval) (key : string) : jsval :=
  default (Scalar Undefined) (o !! key).

(** The names of the members of [Object.prototype].  Metadata objects are
    plain objects (object literals, spreads and what [JSON.parse] returns), so
    they inherit these. *)
Definition Object_prototype : list string :=
  ["constructor"; "__defineGetter__"; "__defineSetter__"; "hasOwnProperty";
   "__lookupGetter__"; "__lookupSetter__"; "isPrototypeOf";
   "propertyIsEnumerable"; "toString"; "valueOf"; "__proto__";
   "toLocaleString"].

(** What [o[key]] finds for an arbitrary key: a value, which is the object's
    own property or [undefined] when the key is nowhere, or the member of
    [Object.prototype] of that name (a function, and under [__proto__] the
    prototype itself). *)
Inductive member :=
  | Data (v : jsval)
  | Builtin (name : string).

(** [o[key]]: own properties first, then the prototype. *)
Definition get_member (o : gmap string jsval) (key : string) : member :=
  match o !! key with
  | Some v => Data v
  | None =>
      if bool_decide (key ∈ Object_prototype) then Builtin key
      else Data (Scalar Undefined)
  end.

(** [o[key] === w] for a primitive [w]: a function or the prototype is
    identical to no primitive. *)
Definition strict_eq_member (m : member) (w : scalar) : bool :=
  match m with
  | Data v => strict_eq v w
  | Builtin _ => false
  end.

(** [v ?? d] tests for [null] and [undefined]. *)
Definition nullish (v : jsval) : bool :=
  match v with
  | Scalar Undefined | Scalar Null => true
  | _ => false
  end.

Definition nullish_coalesce (v d : jsval) : jsval :=
  if nullish v then d else v.

(** An integer as a JavaScript number (exact below 2^53, rounded to nearest
    above). *)
Definition float_of_Z (z : Z) : float :=
  SF2Prim (binary_normalize prec emax z 0 false).

Definition float_of_nat (n : nat) : float := float_of_Z (Z.of_nat n).

(** ** Documents and records *)

(** [BerkshireDocument]: [metadata] is optional. *)
Record BerkshireDocument := mkBerkshireDocument {
  content : string;
  bd_metadata : option (gmap string jsval)
}.

(** LangChain's [Document] as this file uses it ([id] is never set). *)
Record Document := mkDocument {
  pageContent : string;
  metadata : gmap string jsval
}.

(** An element of [SimpleMemoryVectorStore.docs].  [embedding] is [None] when
    [embeddings[j]] was read past the end of the provider's answer (the value
    is then [undefined]). *)
Record vrecord := mkRecord {
  doc : Document;
  embedding : option (list float)
}.

(** ** JSON *)

(** What [JSON.parse] can return. *)
Inductive json :=
  | JsNull
  | JsBool (b : bool)
  | JsNum (x : float)
  | JsStr (s : string)
  | JsArr (l : list json)
  | JsObj (m : gmap string json).

(** A file holds text.  The text itself is not modelled, only what
    [JSON.parse] makes of it: a [SyntaxError], or a JSON value.
    [JSON.stringify] writes text that parses to the value it serialized. *)
Inductive file_data :=
  | Corrupt (text : string)
  | Json (j : json).

(** Number serialization: [NaN] and the infinities are written [null], and
    [-0] is written [0]; every other number is written in a form that parses
    back to the same binary64 value. *)
Definition json_of_number (x : float) : json :=
  if PrimFloat.is_finite x then
    JsNum (if PrimFloat.is_zero x then 0%float else x)
  else JsNull.

Definition json_of_scalar (p : scalar) : option json :=
  match p with
  | Undefined => None
  | Null => Some JsNull
  | Bool b => Some (JsBool b)
  | Num x => Some (json_of_number x)
  | Str s => Some (JsStr s)
  end.

(** [JSON.stringify] on a value: [None] stands for a value that is left out
    (a property holding [undefined] is dropped, an array slot holding it is
    written [null]). *)
Fixpoint json_of_value (v : jsval) : option json :=
  match v with
  | Scalar p => json_of_scalar p
  | Arr l => Some (JsArr (map (λ v, default JsNull (json_of_value v)) l))
  | Obj m => Some (JsObj (omap json_of_value m))
  end.

Fixpoint value_of_json (j : json) : jsval :=
  match j with
  | JsNull => Scalar Null
  | JsBool b => Scalar (Bool b)
  | JsNum x => Scalar (Num x)
  | JsStr s => Scalar (Str s)
  | JsArr l => Arr (map value_of_json l)
  | JsObj m => Obj (value_of_json <$> m)
  end.

Definition json_of_document (d : Document) : json :=
  JsObj {[ "pageContent" := JsStr (pageContent d);
           "metadata" := JsObj (omap json_of_value (metadata d)) ]}.

Definition json_of_record (r : vrecord) : json :=
  let d := json_of_document (doc r) in
  match embedding r with
  | Some e => JsObj {[ "doc" := d; "embedding" := JsArr (map json_of_number e) ]}
  | None => JsObj {[ "doc" := d ]}
  end.

(** [JSON.stringify(this.docs)] *)
Definition json_of_docs (l : list vrecord) : json :=
  JsArr (map json_of_record l).

(** [this.docs = JSON.parse(data)] assigns whatever was parsed.  The functions
    below read a parsed value at the declared type of [docs],
    [{ doc: Document; embedding: number[] }[]]; they give [None] for a value
    that does not have that type. *)
Definition number_of_json (j : json) : option float :=
  match j with JsNum x => Some x | _ => None end.

Definition document_of_json (j : json) : option Document :=
  match j with
  | JsObj o =>
      match o !! "pageContent", o !! "metadata" with
      | Some (JsStr c), Some (JsObj m) => Some (mkDocument c (value_of_json <$> m))
      | _, _ => None
      end
  | _ => None
  end.

Definition record_of_json (j : json) : option vrecord :=
  match j with
  | JsObj o =>
      d ← o !! "doc" ≫= document_of_json;
      match o !! "embedding" with
      | None => Some (mkRecord d None)
      | Some (JsArr l) => e ← mapM number_of_json l; Some (mkRecord d (Some e))
      | Some _ => None
      end
  | _ => None
  end.

Definition docs_of_json (j : json) : option (list vrecord) :=
  match j with
  | JsArr l => mapM record_of_json l
  | _ => None
  end.

(** ** The world the store runs in *)

Inductive exn :=
  | ProviderError (msg : string)
  | TypeError (msg : string)
  | SyntaxError (msg : string).

(** A request sent to the embedding provider. *)
Inductive request :=
  | EmbedDocuments (texts : list string)
  | EmbedQuery (text : string).

(** The provider is outside the program.  Its answer to a request may depend
    on the requests that came before (a rate limit, an outage), and it either
    resolves or rejects. *)
Record OpenAIEmbeddings := mkEmbeddings {
  embedDocuments : list request → list string → exn + list (list float);
  embedQuery : list request → string → exn + list float
}.

(** One line written to the console, with the values interpolated. *)
Inductive log_entry :=
  | LogEmbedded (first last : nat)
  | ErrBatch (batch_no : nat) (err : exn)
  | LogSaved (count : nat) (path : string)
  | LogLoaded (count : nat) (path : string)
  | ErrLoad (err : exn)
  | LogAdding (count : nat)
  | LogAdded (chunks documents : nat)
  | ErrAdding (err : exn)
  | LogQuerying (query : string)
  | LogFound (count : nat)
  | ErrQuerying (err : exn)
  | LogClearing
  | LogCleared.

Record state := mkState {
  docs : list vrecord;              (* [this.store.docs] *)
  files : gmap string file_data;    (* the files that exist, by path *)
  console : list log_entry;         (* oldest line first *)
  requests : list request           (* oldest request first *)
}.

Definition set_docs (l : list vrecord) (s : state) : state :=
  mkState l (files s) (console s) (requests s).
Definition set_files (f : gmap string file_data) (s : state) : state :=
  mkState (docs s) f (console s) (requests s).
Definition log (e : log_entry) (s : state) : state :=
  mkState (docs s) (files s) (console s ++ [e]) (requests s).
Definition sent (r : request) (s : state) : state :=
  mkState (docs s) (files s) (console s) (requests s ++ [r]).

(** How a call ends.  [IllTyped]: the run has put into [docs] a value that is
    not an array of records, where the typed model stops. *)
Inductive outcome (A : Type) :=
  | Returned (a : A)
  | Thrown (e : exn)
  | IllTyped.
Arguments Returned {A} a.
Arguments Thrown {A} e.
Arguments IllTyped {A}.

Definition M (A : Type) : Type := state → outcome A * state.

Definition ret {A} (a : A) : M A := λ s, (Returned a, s).
Definition throw {A} (e : exn) : M A := λ s, (Thrown e, s).
Definition bind {A B} (m : M A) (k : A → M B) : M B :=
  λ s, match m s with
       | (Returned a, s') => k a s'
       | (Thrown e, s') => (Thrown e, s')
       | (IllTyped, s') => (IllTyped, s')
       end.
(** [try { m } catch (err) { h err }] *)
Definition try_catch {A} (m : M A) (h : exn → M A) : M A :=
  λ s, match m s with
       | (Thrown e, s') => h e s'
       | r => r
       end.
Definition gets {A} (f : state → A) : M A := λ s, (Returned (f s), s).
Definition modify (f : state → state) : M unit := λ s, (Returned tt, f s).
Definition console_log (e : log_entry) : M unit := modify (log e).
(** A pure step that may throw. *)
Definition lift {A} (r : exn + A) : M A :=
  match r with inl e => throw e | inr a => ret a end.

Notation "'do' x <- m ; k" := (bind m (λ x, k))
  (at level 10, x name, m at level 100, k at level 200).
Notation "'run' m ; k" := (bind m (λ _, k))
  (at level 10, m at level 100, k at level 200).

(** Paths are relative to [process.cwd()]. *)
Definition DATA_DIR : string := "data".
Definition VECTORS_FILE : string := "data/vectors.json".

(** [Array.prototype.slice(from, to)] for indices that are not negative. *)
Definition slice {A} (from to : nat) (l : list A) : list A :=
  take (to - from) (drop from l).

(** [Array.prototype.slice(0, k)]: a negative [k] counts from the end. *)
Definition slice_to {A} (k : Z) (l : list A) : list A :=
  let len := Z.of_nat (length l) in
  let final := if (k <? 0)%Z then Z.max (len + k) 0 else Z.min k len in
  take (Z.to_nat final) l.

(** [Array.prototype.sort(compareFn)].  The language requires a stable sort:
    an element ends up behind a later one only if [compareFn] is positive on
    the pair, and a [NaN] result counts as zero.  For a consistent
    [compareFn] that fixes the result; where the language leaves the order
    open (an inconsistent [compareFn]), this is insertion from the right. *)
Fixpoint sort_insert {A} (compareFn : A → A → float) (x : A) (l : list A)
    : list A :=
  match l with
  | [] => [x]
  | y :: l' =>
      if (0 <? compareFn x y)%float then y :: sort_insert compareFn x l'
      else x :: y :: l'
  end.

Definition Array_sort {A} (compareFn : A → A → float) (l : list A) : list A :=
  foldr (sort_insert compareFn) [] l.

(** ** [class SimpleMemoryVectorStore] *)

Module SimpleMemoryVectorStore.
Section WithEmbeddings.

(** [this.embeddings] *)
Variable embeddings : OpenAIEmbeddings.

Definition BATCH_SIZE : nat := 50.

(** [await this.embeddings.embedDocuments(texts)] *)
Definition call_embedDocuments (texts : list string) : M (list (list float)) :=
  λ s, lift (embedDocuments embeddings (requests s) texts)
            (sent (EmbedDocuments texts) s).

(** [await this.embeddings.embedQuery(query)] *)
Definition call_embedQuery (query : string) : M (list float) :=
  λ s, lift (embedQuery embeddings (requests s) query)
            (sent (EmbedQuery query) s).

(** The inner loop of [addDocuments]: one record per document of the batch,
    [embeddings[j]] being [undefined] past the end of the answer. *)
Definition embedded (batch : list Document) (answer : list (list float))
    : list vrecord :=
  imap (λ j d, mkRecord d (answer !! j)) batch.

Definition push (l : list vrecord) : M unit :=
  modify (λ s, set_docs (docs s ++ l) s).

(** The body of [for (let i = 0; i < documents.length; i += BATCH_SIZE)],
    entered with the current [i].  [fuel] bounds the iterations left; the
    loop needs at most [documents.length] of them. *)
Fixpoint addDocuments_loop (fuel i : nat) (documents : list Document) : M unit :=
  match fuel with
  | 0 => ret tt
  | S fuel =>
      if decide (i < length documents) then
        let batch := slice i (i + BATCH_SIZE) documents in
        let texts := map pageContent batch in
        run try_catch
          (do answer <- call_embedDocuments texts;
           run push (embedded batch answer);
           console_log
             (LogEmbedded (i + 1) (Nat.min (i + BATCH_SIZE) (length documents))))
          (λ err,
           run console_log (ErrBatch (i / BATCH_SIZE + 1) err);
           throw err);
        addDocuments_loop fuel (i + BATCH_SIZE) documents
      else ret tt
  end.

Definition addDocuments (documents : list Document) : M unit :=
  if decide (length documents = 0) then ret tt
  else addDocuments_loop (length documents) 0 documents.

(** The loop of [cosineSimilarity] over [a], carrying [dot], [normA] and
    [normB].  [b] is walked alongside; past its end [b[i]] is [undefined],
    which arithmetic reads as [NaN]. *)
Fixpoint cosine_sums (a b : list float) (acc : float * float * float)
    : float * float * float :=
  match a with
  | [] => acc
  | x :: a' =>
      let y := hd PrimFloat.nan b in
      let '(dot, normA, normB) := acc in
      cosine_sums a' (tl b) ((dot + x * y)%float,
                             (normA + x * x)%float,
                             (normB + y * y)%float)
  end.

Definition cosineSimilarity (a b : list float) : float :=
  let '(dot, normA, normB) := cosine_sums a b (0, 0, 0)%float in
  (dot / (PrimFloat.sqrt normA * PrimFloat.sqrt normB))%float.

(** The divisor of that last line. *)
Definition denominator (a b : list float) : float :=
  let '(_, normA, normB) := cosine_sums a b (0, 0, 0)%float in
  (PrimFloat.sqrt normA * PrimFloat.sqrt normB)%float.

(** [this.cosineSimilarity(queryEmbedding, item.embedding)] where the
    embedding may be [undefined]: reading [b[i]] then throws, unless the loop
    body never runs. *)
Definition score_against (a : list float) (b : option (list float)) : exn + float :=
  match b, a with
  | Some b, _ => inr (cosineSimilarity a b)
  | None, [] => inr (cosineSimilarity [] [])
  | None, _ :: _ =>
      inl (TypeError "Cannot read properties of undefined (reading '0')")
  end.

(** A record that passed the filter, with its score. *)
Record scored := mkScored {
  sdoc : Document;
  score : float
}.

(** [Object.entries(filter).every(([key, val]) => item.doc.metadata[key] === val)] *)
Definition matches (filter : gmap string scalar) (d : Document) : bool :=
  forallb (λ '(key, val), strict_eq_member (get_member (metadata d) key) val)
          (map_to_list filter).

(** The callback given to [this.docs.map]: [None] is the [null] it returns
    for a record the filter rejects. *)
Definition score_item (queryEmbedding : list float)
    (filter : option (gmap string scalar)) (item : vrecord)
    : exn + option scored :=
  let rejected :=
    match filter with
    | Some f => negb (matches f (doc item))
    | None => false
    end in
  if rejected then inr None
  else match score_against queryEmbedding (embedding item) with
       | inr sc => inr (Some (mkScored (doc item) sc))
       | inl e => inl e
       end.

(** [array.map(f)] for a callback that may throw: the first exception ends
    the traversal. *)
Fixpoint map_throwing {A B} (f : A → exn + B) (l : list A) : exn + list B :=
  match l with
  | [] => inr []
  | x :: l' =>
      match f x with
      | inl e => inl e
      | inr y =>
          match map_throwing f l' with
          | inl e => inl e
          | inr ys => inr (y :: ys)
          end
      end
  end.

(** [(a, b) => b.score - a.score] *)
Definition comparator (a b : scored) : float := (score b - score a)%float.

Definition similaritySearch (query : string) (k : option Z)
    (filter : option (gmap string scalar)) : M (list Document) :=
  let k := default 4%Z k in
  do queryEmbedding <- call_embedQuery query;
  do items <- gets docs;
  do mapped <- lift (map_throwing (score_item queryEmbedding filter) items);
  let results := slice_to k (Array_sort comparator (omap (λ item, item) mapped)) in
  ret (map sdoc results).

(** [saveToFile]: [mkdirSync] makes the directory when it is missing, then
    the file is written.  Directories are not part of [files], and a write
    always goes through: a disk that refuses [mkdirSync] or [writeFileSync]
    is not modelled, so what is stated of a call that saves is stated of a
    write that went through. *)
Definition saveToFile (filePath : string) : M unit :=
  do items <- gets docs;
  let data := Json (json_of_docs items) in
  run modify (λ s, set_files (<[filePath := data]> (files s)) s);
  console_log (LogSaved (length items) filePath).

(** [JSON.parse(data)] *)
Definition JSON_parse (data : file_data) : exn + json :=
  match data with
  | Corrupt _ => inl (SyntaxError "Unexpected token in JSON")
  | Json j => inr j
  end.

Definition loadFromFile (filePath : string) : M bool :=
  do present <- gets (λ s, files s !! filePath);
  match present with
  | Some data =>
      try_catch
        (do parsed <- lift (JSON_parse data);
         match docs_of_json parsed with
         | Some items =>
             run modify (set_docs items);
             run console_log (LogLoaded (length items) filePath);
             ret true
         | None => λ s, (IllTyped, s)
         end)
        (λ err,
         run console_log (ErrLoad err);
         ret false)
  | None => ret false
  end.

(** [new SimpleMemoryVectorStore(embeddings)]: [docs] starts empty. *)
Definition new : M unit := modify (set_docs []).

End WithEmbeddings.
End SimpleMemoryVectorStore.

(** ** [class BerkshireVectorStore] *)

Module BerkshireVectorStore.
Section WithEmbeddings.

Variable embeddings : OpenAIEmbeddings.

(** The constructor: a fresh inner store, then the attempt to load the
    snapshot, whose result is dropped. *)
Definition constructor : M unit :=
  run SimpleMemoryVectorStore.new;
  do _ <- SimpleMemoryVectorStore.loadFromFile VECTORS_FILE;
  ret tt.

(** The [Document] built for the document at position [idx]:
    [{ ...doc.metadata, chunkIndex: doc.metadata?.chunkIndex ?? idx }]. *)
Definition chunk (idx : nat) (d : BerkshireDocument) : Document :=
  let md := default ∅ (bd_metadata d) in
  let chunkIndex :=
    nullish_coalesce (get_prop md "chunkIndex") (Num (float_of_nat idx)) in
  mkDocument (content d) (<["chunkIndex" := chunkIndex]> md).

Definition addDocuments (documents : list BerkshireDocument) : M unit :=
  run console_log (LogAdding (length documents));
  try_catch
    (let allChunks := imap chunk documents in
     run SimpleMemoryVectorStore.addDocuments embeddings allChunks;
     run console_log (LogAdded (length allChunks) (length documents));
     SimpleMemoryVectorStore.saveToFile VECTORS_FILE)
    (λ error,
     run console_log (ErrAdding error);
     throw error).

Definition query (q : string) (topK : option Z)
    (filter : option (gmap string scalar)) : M (list BerkshireDocument) :=
  let topK := default 5%Z topK in
  run console_log (LogQuerying q);
  try_catch
    (do results <- SimpleMemoryVectorStore.similaritySearch embeddings q (Some topK) filter;
     run console_log (LogFound (length results));
     ret (map (λ d, mkBerkshireDocument (pageContent d) (Some (metadata d))) results))
    (λ error,
     run console_log (ErrQuerying error);
     throw error).

Definition queryByYear (q : string) (year : float) (topK : option Z)
    : M (list BerkshireDocument) :=
  let topK := default 5%Z topK in
  query q (Some topK) (Some {[ "year" := Num year ]}).

Definition clearIndex : M unit :=
  run console_log LogClearing;
  run SimpleMemoryVectorStore.new;
  do present <- gets (λ s, files s !! VECTORS_FILE);
  run (if present is Some _
       then modify (λ s, set_files (delete VECTORS_FILE (files s)) s)
       else ret tt);
  console_log LogCleared.

End WithEmbeddings.
End BerkshireVectorStore.

(** ** Test fixtures *)

(** A provider that embeds a text as the pair (its length, 1) and never
    fails. *)
Definition length_embedding (t : string) : list float :=
  [float_of_nat (String.length t); 1%float].

Definition steady : OpenAIEmbeddings :=
  mkEmbeddings (λ _ texts, inr (map length_embedding texts))
               (λ _ t, inr (length_embedding t)).

(** A provider that rejects every [embedDocuments] call once [n] requests
    have been sent. *)
Definition fails_after (n : nat) : OpenAIEmbeddings :=
  mkEmbeddings
    (λ history texts,
       if decide (length history < n) then inr (map length_embedding texts)
       else inl (ProviderError "429 rate limit"))
    (λ _ t, inr (length_embedding t)).

Definition empty_state : state := mkState [] ∅ [] [].

Definition plain (c : string) : BerkshireDocument := mkBerkshireDocument c None.

(** ** Vocabulary of the statements *)

(** *** Binary64 *)

(** A number's place in the order of binary64 values, as an integer: the
    mantissa scaled to the least exponent, infinities just beyond the largest
    finite number, both zeros at 0.  Defined on the specification side of
    the primitive floats ([Prim2SF]). *)
Definition SFrank (x : spec_float) : Z :=
  match x with
  | S754_zero _ => 0
  | S754_nan => 0
  | S754_infinity s => cond_Zopp s (2 ^ (emax - emin))
  | S754_finite s m e => cond_Zopp s (Zpos m * 2 ^ (e - emin))
  end%Z.

Definition SFis_nan (x : spec_float) : bool :=
  match x with S754_nan => true | _ => false end.

Definition rank (x : float) : Z := SFrank (Prim2SF x).

Definition SFzero_or_nan (x : spec_float) : bool :=
  match x with
  | S754_zero _ | S754_nan => true
  | _ => false
  end.

(** [x] is [+0], [-0] or [NaN]. *)
Definition zero_or_nan (x : float) : bool := SFzero_or_nan (Prim2SF x).

Definition SFnonneg (x : spec_float) : bool :=
  match x with
  | S754_zero false | S754_infinity false | S754_finite false _ _ | S754_nan => true
  | _ => false
  end.

(** [x] is [+0], a positive number, [+Infinity] or [NaN]: what a sum of
    squares can be. *)
Definition nonneg (x : float) : bool := SFnonneg (Prim2SF x).

(** Positive and at least [2^-537]: what the square root of a positive
    number is. *)
Definition SFroot_sized (x : spec_float) : bool :=
  match x with
  | S754_infinity false => true
  | S754_finite false m e => (-536 <=? Zpos (digits2_pos m) + e)%Z
  | _ => false
  end.

(** *** Floats as real numbers *)

(** The real number a positive mantissa and an exponent stand for. *)
Definition F2R (m : positive) (e : Z) : R := (IZR (Zpos m) * powerRZ 2 e)%R.

(** Half a unit in the last place of a number in [1, 2): [2^-53]. *)
Definition unit_roundoff : R := (/ 9007199254740992)%R.

(** [x] lies in the unit interval that starts at [m], where [l] says. *)
Definition located (m : Z) (l : location) (x : R) : Prop :=
  match l with
  | loc_Exact => x = IZR m
  | loc_Inexact Lt => (IZR m < x < IZR m + / 2)%R
  | loc_Inexact Eq => x = (IZR m + / 2)%R
  | loc_Inexact Gt => (IZR m + / 2 < x < IZR m + 1)%R
  end.

(** *** Cosine similarity, as the specification words it *)

Definition dot (q e : list float) : float :=
  foldl (λ acc xy, (acc + xy.1 * xy.2)%float) 0%float (zip q e).

Definition squared_norm (v : list float) : float :=
  foldl (λ acc x, (acc + x * x)%float) 0%float v.

Definition norm (v : list float) : float := PrimFloat.sqrt (squared_norm v).

(** No component is [NaN], and the square of some component is not zero:
    a nonzero vector of numbers that is not so small that every square
    underflows. *)
Definition weighty (v : list float) : bool :=
  forallb (λ x, negb (is_nan x)) v
  && existsb (λ x, negb (is_zero (x * x)%float)) v.

(** [dot(q, e) / (‖q‖ · ‖e‖)] *)
Definition cosine_formula (q e : list float) : float :=
  (dot q e / (norm q * norm e))%float.

(** *** Queries *)

(** The record passes the filter, if there is one. *)
Definition passes (filter : option (gmap string scalar)) (r : vrecord) : bool :=
  match filter with
  | Some f => SimpleMemoryVectorStore.matches f (doc r)
  | None => true
  end.

(** The score of a record against the query embedding ([NaN] when computing
    it throws). *)
Definition similarity (queryEmbedding : list float) (r : vrecord) : float :=
  match SimpleMemoryVectorStore.score_against queryEmbedding (embedding r) with
  | inr x => x
  | inl _ => PrimFloat.nan
  end.

(** The score of the record can be computed and is a number. *)
Definition has_score (queryEmbedding : list float) (r : vrecord) : bool :=
  match SimpleMemoryVectorStore.score_against queryEmbedding (embedding r) with
  | inr x => negb (PrimFloat.is_nan x)
  | inl _ => false
  end.

(** [a] ranks before [b], for records paired with their position in the
    index: a higher score, or the same score and an earlier position. *)
Definition ranks_before (queryEmbedding : list float) (a b : nat * vrecord) : Prop :=
  (similarity queryEmbedding b.2 <? similarity queryEmbedding a.2)%float = true ∨
  ((similarity queryEmbedding a.2 =? similarity queryEmbedding b.2)%float = true
   ∧ a.1 < b.1).

(** The same order on any elements with a numeric [key] and a [tag], read
    off the ranks of the keys. *)
Definition ordered_before {A} (key : A → float) (tag : A → nat) (a b : A) : Prop :=
  (rank (key b) < rank (key a))%Z
  ∨ (rank (key a) = rank (key b) ∧ tag a < tag b).

(** The elements of a list paired with their positions, counted from [n]. *)
Fixpoint positions_from {A} (n : nat) (l : list A) : list (nat * A) :=
  match l with
  | [] => []
  | x :: l' => (n, x) :: positions_from (S n) l'
  end.

(** *** Snapshots *)












(** *** Batches *)

(** The texts of batch number [j] (from 0). *)
Definition batch_texts (documents : list Document) (j : nat) : list string :=
  map pageContent
      (slice (j * SimpleMemoryVectorStore.BATCH_SIZE)
             (j * SimpleMemoryVectorStore.BATCH_SIZE + SimpleMemoryVectorStore.BATCH_SIZE)
             documents).

Definition batch_request (documents : list Document) (j : nat) : request :=
  EmbedDocuments (batch_texts documents j).

(** The request log once batches [0 .. j-1] have been sent from state [s]. *)
Definition history_at (s : state) (documents : list Document) (j : nat)
    : list request :=
  requests s ++ map (batch_request documents) (seq 0 j).

(** The state after [n] calls of [clearIndex]. *)
Fixpoint cleared (n : nat) (s : state) : state :=
  match n with
  | 0 => s
  | S n => (BerkshireVectorStore.clearIndex (cleared n s)).2
  end.
(** ** Splitting text into chunks

    The first vector store of the repository, kept in [pdf-ingestion.ts],
    cut every document into overlapping chunks itself before handing them to
    LangChain's [MemoryVectorStore].

    A string is its sequence of UTF-16 code units; the strings of this model
    hold the code units below 256, one per character of a Rocq [string], so
    [text.length] is [String.length].  Sizes and positions are integers. *)

(** An index as [slice] reads it: below zero it counts from the end, and it
    is clamped to the string. *)
Definition relative_index (len i : Z) : Z :=
  if (i <? 0)%Z then Z.max (len + i) 0 else Z.min i len.

(** [text.slice(start, end)] *)
Definition String_slice (text : string) (start end_ : Z) : string :=
  let len := Z.of_nat (String.length text) in
  let from := relative_index len start in
  let to := relative_index len end_ in
  String.substring (Z.to_nat from) (Z.to_nat (to - from)) text.

(** White space and line terminators, as [trim] strips them: tab, line feed,
    vertical tab, form feed, carriage return, space and no-break space (the
    others lie above 255). *)
Definition is_white_space (c : Ascii.ascii) : bool :=
  bool_decide (Ascii.nat_of_ascii c ∈ [9; 10; 11; 12; 13; 32; 160]).

Fixpoint trimStart (s : string) : string :=
  match s with
  | String c s' => if is_white_space c then trimStart s' else s
  | EmptyString => EmptyString
  end.

Definition trimEnd (s : string) : string :=
  String.rev (trimStart (String.rev s)).

(** [s.trim()] *)
Definition trim (s : string) : string := trimEnd (trimStart s).

Module ChunkingVectorStore.

(** The [while] loop of [chunkText], entered with the current [start] and
    the chunks pushed so far.  [None]: the loop is still running when [fuel]
    tests of its condition have been made. *)
Fixpoint chunkText_loop (fuel : nat) (text : string) (chunkSize overlap : Z)
    (start : Z) (chunks : list string) : option (list string) :=
  match fuel with
  | 0 => None
  | S fuel =>
      if (start <? Z.of_nat (String.length text))%Z then
        let end_ := Z.min (start + chunkSize) (Z.of_nat (String.length text)) in
        chunkText_loop fuel text chunkSize overlap
          (start + (chunkSize - overlap))%Z
          (chunks ++ [String_slice text start end_])
      else Some chunks
  end.

(** [chunkText(text, chunkSize, overlap)] *)
Definition chunkText (fuel : nat) (text : string) (chunkSize overlap : Z)
    : option (list string) :=
  chunks ← chunkText_loop fuel text chunkSize overlap 0 [];
  Some (List.filter (λ c, 0 <? String.length (trim c)) chunks).

(** [CHUNK_CONFIG] *)
Definition chunkSize : Z := 1000.
Definition chunkOverlap : Z := 200.

(** The chunks [addDocuments] makes of one document, with
    [{ ...doc.metadata, chunkIndex: idx, totalChunks: chunks.length }].
    With the sizes of [CHUNK_CONFIG] the loop of [chunkText] ends within
    [text.length + 1] tests. *)
Definition chunks_of (d : BerkshireDocument) : list Document :=
  let chunks :=
    default [] (chunkText (S (String.length (content d))) (content d)
                          chunkSize chunkOverlap) in
  imap (λ idx chunk,
          mkDocument chunk
            (<["totalChunks" := Scalar (Num (float_of_nat (length chunks)))]>
               (<["chunkIndex" := Scalar (Num (float_of_nat idx))]>
                  (default ∅ (bd_metadata d)))))
       chunks.

(** [allChunks], as the loop over [documents] leaves it. *)
Definition allChunks (documents : list BerkshireDocument) : list Document :=
  concat (map chunks_of documents).

Section WithStore.

(** [this.store.addDocuments] of LangChain's [MemoryVectorStore], which is
    not part of the repository. *)
Variable store_addDocuments : list Document → M unit.

Definition addDocuments (documents : list BerkshireDocument) : M unit :=
  run console_log (LogAdding (length documents));
  try_catch
    (run store_addDocuments (allChunks documents);
     console_log (LogAdded (length (allChunks documents)) (length documents)))
    (λ error,
     run console_log (ErrAdding error);
     throw error).

End WithStore.
End ChunkingVectorStore.
(** *** Vocabulary for chunks *)

(** The code units of a string. *)
Definition units (s : string) : list Ascii.ascii := String.list_ascii_of_string s.

(** Nothing but white space (the empty string included). *)
Definition blank (s : string) : bool := forallb is_white_space (units s).

(** The windows of [size] code units that start every [step] units, as long
    as they start inside the text. *)
Definition windows (text : string) (size step : nat) : list string :=
  map (λ k, String.substring (k * step) size text)
      (seq 0 ((String.length text + (step - 1)) / step)).
(** ** The programs around the store

    The ingestion pipeline, the scripts and the HTTP handler use the store
    through the module's instance [berkshireVectorStore].  They run in a
    world made of the store's state and of the lines they write to the
    console themselves; the lines written by the store's own methods stay in
    the store's console. *)

Inductive stream := ToLog | ToWarn | ToError.

(** A value handed to a console call: interpolated into the template or
    passed after it. *)
Inductive shown :=
  | Text (s : string)
  | Count (n : nat)
  | Value (v : jsval)
  | Caught (e : exn).

(** One console call: the stream, the text of the template as the source
    writes it, and the values, in order. *)
Record line := mkLine {
  line_stream : stream;
  line_template : string;
  line_values : list shown
}.

Record world := mkWorld {
  store : state;            (* [berkshireVectorStore] and the files *)
  terminal : list line      (* oldest line first *)
}.

Definition App (A : Type) : Type := world → outcome A * world.

#[global] Instance App_ret : MRet App := λ A a w, (Returned a, w).
#[global] Instance App_bind : MBind App := λ A B k m w,
  match m w with
  | (Returned a, w') => k a w'
  | (Thrown e, w') => (Thrown e, w')
  | (IllTyped, w') => (IllTyped, w')
  end.

Definition app_throw {A} (e : exn) : App A := λ w, (Thrown e, w).

(** [try { m } catch (error) { h error }] *)
Definition app_try {A} (m : App A) (h : exn → App A) : App A :=
  λ w, match m w with
       | (Thrown e, w') => h e w'
       | r => r
       end.

(** A step that may throw and touches nothing. *)
Definition app_lift {A} (r : exn + A) : App A :=
  match r with inl e => app_throw e | inr a => mret a end.

Definition say (to : stream) (template : string) (values : list shown) : App unit :=
  λ w, (Returned tt, mkWorld (store w) (terminal w ++ [mkLine to template values])).

(** A call of a method of the store. *)
Definition in_store {A} (m : M A) : App A :=
  λ w, let '(r, s) := m (store w) in (r, mkWorld s (terminal w)).

(** *** Strings *)

(** [s.toLowerCase()] on code units below 256: the letters [A-Z] and the
    capital letters of Latin-1 ([À] to [Þ], without the multiplication
    sign) move up by 32, the rest is unchanged. *)
Definition toLowerCase_unit (c : Ascii.ascii) : Ascii.ascii :=
  let n := Ascii.nat_of_ascii c in
  if bool_decide (65 ≤ n ≤ 90 ∨ (192 ≤ n ≤ 222 ∧ n ≠ 215))
  then Ascii.ascii_of_nat (n + 32) else c.

Definition toLowerCase (s : string) : string :=
  String.string_of_list_ascii (map toLowerCase_unit (units s)).

(** [s.endsWith(searchString)] *)
Definition endsWith (s searchString : string) : bool :=
  bool_decide (units searchString `suffix_of` units s).

(** [\d] *)
Definition is_digit (c : Ascii.ascii) : bool :=
  bool_decide (48 ≤ Ascii.nat_of_ascii c ≤ 57).

(** [s.match(/(\d{4})/)]: the capture of the leftmost run of four digits. *)
Fixpoint match_4_digits (s : list Ascii.ascii) : option (list Ascii.ascii) :=
  match s with
  | [] => None
  | _ :: s' =>
      if bool_decide (length (take 4 s) = 4) && forallb is_digit (take 4 s)
      then Some (take 4 s)
      else match_4_digits s'
  end.

(** [parseInt(digits)] on a string of decimal digits. *)
Definition parseInt (digits : list Ascii.ascii) : float :=
  float_of_nat (foldl (λ n c, 10 * n + (Ascii.nat_of_ascii c - 48)) 0 digits).

(** [x ? ... : ...] on a number: zero and [NaN] are falsy. *)
Definition truthy_number (x : float) : bool :=
  negb (PrimFloat.is_zero x || PrimFloat.is_nan x).

(** *** The disk and the paths *)

(** What is on the disk, read while the program runs and not changed by
    it: the names in a directory, and the text [pdf-parse-fork] extracts from
    the bytes of a file.  Either step may fail. *)
Record FileSystem := mkFileSystem {
  readdir : string → exn + list string;
  pdfParse_text : string → exn + string
}.

(** Node's [path] module. *)
Record Path := mkPath {
  path_join : string → string → string;
  path_basename : string → string → string
}.

(** ** [pdf-ingestion.ts] *)

Module PdfIngestion.
Section WithDisk.

Variable fs : FileSystem.
Variable path : Path.

(** [fs.readFileSync] and [pdfParse] in one step, then [data.text]. *)
Definition parsePDF (filePath : string) : App string :=
  app_try (app_lift (pdfParse_text fs filePath))
    (λ error,
     say ToError "Error parsing PDF ${filePath}:" [Text filePath; Caught error];;
     app_throw error).

(** [processPDF(filePath, metadata)]; a caller that leaves [metadata] out
    passes the empty object. *)
Definition processPDF (filePath : string) (metadata : gmap string jsval)
    : App (list BerkshireDocument) :=
  say ToLog "Processing PDF: ${filePath}" [Text filePath];;
  text ← parsePDF filePath;
  say ToLog "Extracted ${text.length} characters from PDF"
      [Count (String.length text)];;
  let fileName := path_basename path filePath ".pdf" in
  mret [mkBerkshireDocument text
          (Some (metadata ∪ {[ "source" := Scalar (Str filePath);
                               "fileName" := Scalar (Str fileName);
                               "type" := Scalar (Str "pdf") ]}))].

(** [file => file.toLowerCase().endsWith('.pdf')] *)
Definition is_pdf (file : string) : bool := endsWith (toLowerCase file) ".pdf".

(** The [for] loop of [processAllPDFs] over the files left, with
    [allDocuments] as filled so far. *)
Fixpoint processAllPDFs_loop (directoryPath : string)
    (metadata : gmap string jsval) (pdfFiles : list string)
    (allDocuments : list BerkshireDocument) : App (list BerkshireDocument) :=
  match pdfFiles with
  | [] => mret allDocuments
  | pdfFile :: rest =>
      let filePath := path_join path directoryPath pdfFile in
      allDocuments ←
        app_try
          (documents ← processPDF filePath metadata;
           mret (allDocuments ++ documents))
          (λ error,
           say ToError "Failed to process ${pdfFile}:" [Text pdfFile; Caught error];;
           mret allDocuments);
      processAllPDFs_loop directoryPath metadata rest allDocuments
  end.

Definition processAllPDFs (directoryPath : string)
    (metadata : gmap string jsval) : App (list BerkshireDocument) :=
  say ToLog "Processing PDFs from directory: ${directoryPath}"
      [Text directoryPath];;
  files ← app_lift (readdir fs directoryPath);
  let pdfFiles := List.filter is_pdf files in
  say ToLog "Found ${pdfFiles.length} PDF files" [Count (length pdfFiles)];;
  allDocuments ← processAllPDFs_loop directoryPath metadata pdfFiles [];
  say ToLog "Total documents created: ${allDocuments.length}"
      [Count (length allDocuments)];;
  mret allDocuments.

(** [yearMatch ? parseInt(yearMatch[1]) : undefined] *)
Definition year_of (pdfFile : string) : scalar :=
  match match_4_digits (units pdfFile) with
  | Some digits => Num (parseInt digits)
  | None => Undefined
  end.

(** The values of [`✓ Processed ${pdfFile}${year ? ` (${year})` : ''}`]: the
    year is shown when it is a number other than zero. *)
Definition processed_values (pdfFile : string) (year : scalar) : list shown :=
  match year with
  | Num y => if truthy_number y then [Text pdfFile; Value (Scalar year)]
             else [Text pdfFile; Text ""]
  | _ => [Text pdfFile; Text ""]
  end.

Fixpoint processBerkshireLetters_loop (directoryPath : string)
    (pdfFiles : list string) (allDocuments : list BerkshireDocument)
    : App (list BerkshireDocument) :=
  match pdfFiles with
  | [] => mret allDocuments
  | pdfFile :: rest =>
      let filePath := path_join path directoryPath pdfFile in
      let year := year_of pdfFile in
      allDocuments ←
        app_try
          (documents ←
             processPDF filePath
               {[ "company" := Scalar (Str "Berkshire Hathaway");
                  "documentType" := Scalar (Str "shareholder_letter");
                  "year" := Scalar year ]};
           say ToLog "✓ Processed ${pdfFile}${year ? ` (${year})` : ''}"
               (processed_values pdfFile year);;
           mret (allDocuments ++ documents))
          (λ error,
           say ToError "✗ Failed to process ${pdfFile}:"
               [Text pdfFile; Caught error];;
           mret allDocuments);
      processBerkshireLetters_loop directoryPath rest allDocuments
  end.

Definition processBerkshireLetters (directoryPath : string)
    : App (list BerkshireDocument) :=
  say ToLog "Processing Berkshire Hathaway shareholder letters..." [];;
  files ← app_lift (readdir fs directoryPath);
  let pdfFiles := List.filter is_pdf files in
  processBerkshireLetters_loop directoryPath pdfFiles [].

End WithDisk.
End PdfIngestion.
(** ** [ingest.ts] *)

Module Ingest.
Section WithWorld.

Variable embeddings : OpenAIEmbeddings.
Variable fs : FileSystem.
Variable path : Path.

(** [path.dirname(fileURLToPath(import.meta.url))] *)
Variable __dirname : string.

Definition ingestBerkshireLetters : App unit :=
  say ToLog "🚀 Starting Berkshire Hathaway letter ingestion...\n" [];;
  app_try
    (let pdfDirectory := path_join path __dirname "../../../data/pdfs" in
     say ToLog "📁 PDF Directory: ${pdfDirectory}\n" [Text pdfDirectory];;
     say ToLog "📄 Step 1: Processing PDF files..." [];;
     documents ← PdfIngestion.processBerkshireLetters fs path pdfDirectory;
     if bool_decide (length documents = 0) then
       say ToWarn "\n⚠️  No documents were created!" [];;
       say ToLog "\nMake sure to:" [];;
       say ToLog "1. Place Berkshire Hathaway shareholder letter PDFs in: data/pdfs/" [];;
       say ToLog "2. Name them with years (e.g., 2023.pdf, letter_2022.pdf)" []
     else
       say ToLog "\n✓ Prepared ${documents.length} PDF document(s) for embedding\n"
           [Count (length documents)];;
       say ToLog "🔮 Step 2: Creating embeddings and storing in vector database..." [];;
       in_store (BerkshireVectorStore.addDocuments embeddings documents);;
       say ToLog "\n✅ Ingestion complete!" [];;
       say ToLog "\n📊 Summary:" [];;
       say ToLog "   - Documents processed: ${documents.length}"
           [Count (length documents)];;
       say ToLog "   - Vector store: Ready for queries" [];;
       say ToLog "\n💡 You can now query the letters using the berkshireVectorStore.query() method" [])
    (λ error,
     say ToError "\n❌ Ingestion failed:" [Caught error];;
     app_throw error).

End WithWorld.
End Ingest.

(** ** [index.ts]: the quick start script *)

Module QuickStart.
Section WithDisk.

Variable fs : FileSystem.
Variable path : Path.
Variable __dirname : string.

(** [checkPDFs]: the [catch] has no binding and returns 0. *)
Definition checkPDFs : App nat :=
  let pdfDir := path_join path __dirname "../data/pdfs" in
  app_try
    (files ← app_lift (readdir fs pdfDir);
     let pdfs := List.filter PdfIngestion.is_pdf files in
     mret (length pdfs))
    (λ _, mret 0).

End WithDisk.
End QuickStart.

(** ** [api/query.ts] *)

(** [req.query], with the values that are strings. *)
Record VercelRequest := mkRequest {
  req_query : gmap string string
}.

(** What [res.status(code).json(body)] was called with. *)
Record VercelResponse := mkResponse {
  res_status : nat;
  res_json : jsval
}.

(** [err.message]; every exception of the model is an [Error] with a
    message, so that [err?.message ?? 'Unknown error'] is the message. *)
Definition message (e : exn) : string :=
  match e with
  | ProviderError msg | TypeError msg | SyntaxError msg => msg
  end.

(** The double quote. *)
Definition quote : string := String (Ascii.ascii_of_nat 34) EmptyString.

Module Api.
Section WithStore.

Variable embeddings : OpenAIEmbeddings.

(** [r.content.substring(0, 500) + (r.content.length > 500 ? '...' : '')] *)
Definition preview (content : string) : string :=
  String.app (String.substring 0 500 content)
             (if 500 <? String.length content then "..." else "").

(** [r => ({ content: ..., metadata: r.metadata })] *)
Definition result_json (r : BerkshireDocument) : jsval :=
  Obj {[ "content" := Scalar (Str (preview (content r)));
         "metadata" := match bd_metadata r with
                       | Some m => Obj m
                       | None => Scalar Undefined
                       end ]}.

Definition handler (req : VercelRequest) : App VercelResponse :=
  app_try
    (let q := default "" (req_query req !! "q") in
     if bool_decide (q = "") then
       mret (mkResponse 400
               (Obj {[ "error" :=
                         Scalar (Str (String.app "Missing query parameter "
                                        (String.app quote (String.app "q" quote)))) ]}))
     else
       say ToLog "Query received: ${q}" [Text q];;
       results ← in_store (BerkshireVectorStore.query embeddings q (Some 5%Z) None);
       mret (mkResponse 200
               (Obj {[ "query" := Scalar (Str q);
                       "results" := Arr (map result_json results) ]})))
    (λ err,
     say ToError "Query error:" [Caught err];;
     mret (mkResponse 500 (Obj {[ "error" := Scalar (Str (message err)) ]}))).

End WithStore.
End Api.
(** *** Vocabulary for the pipeline *)

(** The PDF files of a directory listing whose text can be extracted, each
    with its text, in the order of the listing. *)
Definition parsed_pdfs (fs : FileSystem) (path : Path) (directoryPath : string)
    (files : list string) : list (string * string) :=
  omap (λ pdfFile,
          match pdfParse_text fs (path_join path directoryPath pdfFile) with
          | inr text => Some (pdfFile, text)
          | inl _ => None
          end)
       (List.filter PdfIngestion.is_pdf files).

(** [d] holds the text of the file [p.1] of the directory, under metadata
    that reads as [metadata] where that has a property and names the file
    elsewhere. *)
Definition document_of_pdf (path : Path) (directoryPath : string)
    (metadata : gmap string jsval) (p : string * string)
    (d : BerkshireDocument) : Prop :=
  let filePath := path_join path directoryPath p.1 in
  content d = p.2
  ∧ ∃ md, bd_metadata d = Some md
      ∧ (∀ key v, metadata !! key = Some v → md !! key = Some v)
      ∧ (∀ key, metadata !! key = None →
           md !! key =
             if bool_decide (key = "source") then Some (Scalar (Str filePath))
             else if bool_decide (key = "fileName")
                  then Some (Scalar (Str (path_basename path filePath ".pdf")))
             else if bool_decide (key = "type") then Some (Scalar (Str "pdf"))
             else None).

(** The metadata [processBerkshireLetters] gives to [processPDF] for a
    file. *)
Definition letter_metadata (pdfFile : string) : gmap string jsval :=
  {[ "company" := Scalar (Str "Berkshire Hathaway");
     "documentType" := Scalar (Str "shareholder_letter");
     "year" := Scalar (PdfIngestion.year_of pdfFile) ]}.

(** The number four decimal digits write. *)
Definition four_digits (a b c d : nat) : float :=
  float_of_nat (1000 * a + 100 * b + 10 * c + d).

(** The code unit of a decimal digit. *)
Definition digit_unit (n : nat) : Ascii.ascii := Ascii.ascii_of_nat (48 + n).

(** Four digits in a row start at position [i] of [s]. *)
Definition digit_run (s : list Ascii.ascii) (i : nat) : bool :=
  bool_decide (length (take 4 (drop i s)) = 4)
  && forallb is_digit (take 4 (drop i s)).

(** The last four code units of a name that ends in [.pdf], in capitals or
    not. *)
Definition pdf_ending (x1 x2 x3 x4 : Ascii.ascii) : Prop :=
  Ascii.nat_of_ascii x1 = 46
  ∧ (Ascii.nat_of_ascii x2 = 112 ∨ Ascii.nat_of_ascii x2 = 80)
  ∧ (Ascii.nat_of_ascii x3 = 100 ∨ Ascii.nat_of_ascii x3 = 68)
  ∧ (Ascii.nat_of_ascii x4 = 102 ∨ Ascii.nat_of_ascii x4 = 70).
(** *** Fixtures for the pipeline *)

(** A stand-in for [path]: [join] puts a slash between its arguments and
    [basename] returns the path as it is. *)
Definition plain_paths : Path :=
  mkPath (λ a b, String.app a (String.app "/" b)) (λ p _, p).

(** A disk where every directory lists two letters and a note, and the
    letter of 1978 is damaged. *)
Definition shelf : FileSystem :=
  mkFileSystem
    (λ _, inr ["letter_1977.PDF"; "notes.txt"; "1978.pdf"])
    (λ filePath,
       if bool_decide (filePath = "src/../../../data/pdfs/letter_1977.PDF")
       then inr "To the Stockholders of Berkshire Hathaway Inc."
       else inl (SyntaxError "Invalid PDF structure")).

(** A disk without the directory. *)
Definition bare_disk : FileSystem :=
  mkFileSystem (λ _, inl (ProviderError "ENOENT: no such file or directory"))
               (λ _, inl (ProviderError "ENOENT: no such file or directory")).

Definition empty_world : world := mkWorld empty_state [].
(** ** Values as text *)

(** The line feed that [\n] writes in a string of the source. *)
Definition LF : string := String (Ascii.ascii_of_nat 10) EmptyString.

(** [x || y] and [x ? a : b] test whether [x] is truthy: everything but
    [undefined], [null], [false], the zeros, [NaN] and the empty string. *)
Definition truthy (v : jsval) : bool :=
  match v with
  | Scalar Undefined | Scalar Null => false
  | Scalar (Bool b) => b
  | Scalar (Num x) => truthy_number x
  | Scalar (Str s) => negb (bool_decide (s = ""))
  | Arr _ | Obj _ => true
  end.

Section ToString.

(** [Number.prototype.toString()]: the digits it writes are not modelled. *)
Variable Number_toString : float → string.

(** [`${v}`], that is [ToString(v)].  An array is joined with commas, its
    [null] and [undefined] elements written as nothing; an object is written
    by [Object.prototype.toString] unless it has a [toString] property of its
    own, which in this model is never a function, so that the conversion
    throws. *)
Fixpoint ToString (v : jsval) : exn + string :=
  match v with
  | Scalar Undefined => inr "undefined"
  | Scalar Null => inr "null"
  | Scalar (Bool b) => inr (if b then "true" else "false")
  | Scalar (Num x) => inr (Number_toString x)
  | Scalar (Str s) => inr s
  | Arr l =>
      match SimpleMemoryVectorStore.map_throwing
              (λ v, if nullish v then inr "" else ToString v) l with
      | inr parts => inr (String.concat "," parts)
      | inl e => inl e
      end
  | Obj m =>
      if bool_decide (is_Some (m !! "toString"))
      then inl (TypeError "Cannot convert object to primitive value")
      else inr "[object Object]"
  end.

(** [doc.metadata?.key] *)
Definition metadata_prop (d : BerkshireDocument) (key : string) : jsval :=
  match bd_metadata d with
  | Some m => get_prop m key
  | None => Scalar Undefined
  end.

(** [x || fallback] *)
Definition or_else (x fallback : jsval) : jsval :=
  if truthy x then x else fallback.

End ToString.

(** ** [berkshire-agent.ts] *)

Module BerkshireAgent.
Section WithStore.

Variable embeddings : OpenAIEmbeddings.
Variable Number_toString : float → string.

(** [`[${year} Letter, Passage ${i + 1}]:\n${content}`], where [content] is
    [doc.content || '']: the content itself, the empty string being the only
    falsy string. *)
Definition passage (i : nat) (d : BerkshireDocument) : exn + string :=
  let year := or_else (metadata_prop d "year") (Scalar (Str "Unknown year")) in
  match ToString Number_toString year with
  | inr year =>
      inr (String.app "["
          (String.app year
          (String.app " Letter, Passage "
          (String.app (Number_toString (float_of_nat (i + 1)))
          (String.app "]:"
          (String.app LF (content d)))))))
  | inl e => inl e
  end.

(** The [beforeGenerate] hook; the result is the [context] it returns. *)
Definition beforeGenerate (prompt : string) : App string :=
  say ToLog (String.app "🔍 Searching shareholder letters for: "
               (String.app quote (String.app "${prompt}" quote)))
      [Text prompt];;
  app_try
    (results ← in_store (BerkshireVectorStore.query embeddings prompt (Some 5%Z) None);
     if bool_decide (length results = 0) then
       mret "No relevant information found in shareholder letters. The database may not be initialized yet."
     else
       passages ← app_lift (SimpleMemoryVectorStore.map_throwing
                              (λ p, passage p.1 p.2) (positions_from 0 results));
       let context :=
         String.concat (String.app LF (String.app LF
                         (String.app "---" (String.app LF LF)))) passages in
       say ToLog "✓ Found ${results.length} relevant passages"
           [Count (length results)];;
       mret (String.app "Here are relevant passages from Berkshire Hathaway shareholder letters:"
            (String.app LF (String.app LF
            (String.app context
            (String.app LF (String.app LF
               "Please answer the question based on this context.")))))))
    (λ error,
     say ToError "Error retrieving context:" [Caught error];;
     mret "Error retrieving information from shareholder letters.").

(** [queryLettersTool.execute({ query, topK })] *)
Definition queryLettersTool_execute (query : string) (topK : option Z)
    : App jsval :=
  let topK := default 5%Z topK in
  say ToLog (String.app "Searching letters: "
               (String.app quote (String.app "${query}" quote)))
      [Text query];;
  results ← in_store (BerkshireVectorStore.query embeddings query (Some topK) None);
  mret (Obj {[ "found" := Scalar (Num (float_of_nat (length results)));
               "passages" :=
                 Arr (map (λ d, Obj {[ "year" := metadata_prop d "year";
                                       "content" := Scalar (Str (content d));
                                       "fileName" := metadata_prop d "fileName" ]})
                          results) ]}).

(** [queryByYearTool.execute({ query, year, topK })] *)
Definition queryByYearTool_execute (query : string) (year : float)
    (topK : option Z) : App jsval :=
  let topK := default 5%Z topK in
  say ToLog (String.app "Searching ${year} letter: "
               (String.app quote (String.app "${query}" quote)))
      [Value (Scalar (Num year)); Text query];;
  results ← in_store (BerkshireVectorStore.queryByYear embeddings query year (Some topK));
  mret (Obj {[ "year" := Scalar (Num year);
               "found" := Scalar (Num (float_of_nat (length results)));
               "passages" :=
                 Arr (map (λ d, Obj {[ "content" := Scalar (Str (content d));
                                       "chunkIndex" := metadata_prop d "chunkIndex" ]})
                          results) ]}).

End WithStore.
End BerkshireAgent.

(** * Properties *)

(** ** Binary64 facts

    Everything here is derived from the specification of the primitive
    operations ([FloatAxioms]): a comparison of two numbers is the comparison
    of their ranks, and so is the sign of their difference; zeros and [NaN]
    propagate through the arithmetic of a score; a product of square roots
    does not underflow. *)

Section Binary64.
#[local] Open Scope Z_scope.

Lemma digits2_pos_bounds (m : positive) :
  2 ^ (Zpos (digits2_pos m) - 1) <= Zpos m < 2 ^ Zpos (digits2_pos m).
Proof.
  induction m as [m IH|m IH|]; simpl digits2_pos.
  - rewrite Pos2Z.inj_succ, Z.pow_succ_r by lia.
    replace (Z.succ (Zpos (digits2_pos m)) - 1) with (Z.succ (Zpos (digits2_pos m) - 1)) by lia.
    rewrite Z.pow_succ_r by lia. lia.
  - rewrite Pos2Z.inj_succ, Z.pow_succ_r by lia.
    replace (Z.succ (Zpos (digits2_pos m)) - 1) with (Z.succ (Zpos (digits2_pos m) - 1)) by lia.
    rewrite Z.pow_succ_r by lia. lia.
  - simpl. lia.
Qed.

(** A valid finite number has at most [prec] digits, exactly [prec] of them
    above the least exponent, and its exponent lies in range. *)
Lemma bounded_inv (m : positive) (e : Z) :
  bounded prec emax m e = true →
  emin <= e <= emax - prec ∧ Zpos (digits2_pos m) <= prec ∧
  (emin < e → Zpos (digits2_pos m) = prec).
Proof.
  unfold bounded, canonical_mantissa, fexp. rewrite andb_true_iff, Z.eqb_eq, Z.leb_le.
  unfold emin, SpecFloat.emin, prec, emax. lia.
Qed.

Lemma finite_rank_bound (m : positive) (e : Z) :
  bounded prec emax m e = true →
  0 < Zpos m * 2 ^ (e - emin) < 2 ^ (emax - emin).
Proof.
  intros Hb. destruct (bounded_inv m e Hb) as ([He1 He2] & Hd & _).
  pose proof (digits2_pos_bounds m) as [_ Hm].
  assert (0 < 2 ^ (e - emin)) by (apply Z.pow_pos_nonneg; lia).
  split; [lia|].
  assert (Zpos m < 2 ^ prec).
  { eapply Z.lt_le_trans; [exact Hm|]. apply Z.pow_le_mono_r; lia. }
  assert (2 ^ (emax - emin) = 2 ^ prec * 2 ^ (emax - prec - emin)) as ->.
  { rewrite <- Z.pow_add_r; [f_equal; lia| unfold prec; lia | unfold emin, SpecFloat.emin, emax, prec; lia]. }
  assert (2 ^ (e - emin) <= 2 ^ (emax - prec - emin)) by (apply Z.pow_le_mono_r; lia).
  nia.
Qed.

Lemma finite_lt_by_exponent (m1 m2 : positive) (e1 e2 : Z) :
  bounded prec emax m1 e1 = true → bounded prec emax m2 e2 = true →
  e1 < e2 →
  Zpos m1 * 2 ^ (e1 - emin) < Zpos m2 * 2 ^ (e2 - emin).
Proof.
  intros H1 H2 Hlt.
  destruct (bounded_inv _ _ H1) as ([? ?] & Hd1 & _).
  destruct (bounded_inv _ _ H2) as ([? ?] & _ & Hd2).
  pose proof (digits2_pos_bounds m1) as [_ Hm1].
  pose proof (digits2_pos_bounds m2) as [Hm2 _].
  rewrite Hd2 in Hm2 by lia.
  assert (Zpos m1 < 2 ^ prec).
  { eapply Z.lt_le_trans; [exact Hm1|]. apply Z.pow_le_mono_r; lia. }
  assert (2 ^ prec = 2 * 2 ^ (prec - 1)) as Hp.
  { reflexivity. }
  assert (0 < 2 ^ (e1 - emin)) by (apply Z.pow_pos_nonneg; lia).
  assert (2 * 2 ^ (e1 - emin) <= 2 ^ (e2 - emin)).
  { rewrite <- Z.pow_succ_r by lia. apply Z.pow_le_mono_r; lia. }
  nia.
Qed.

Lemma SFcompare_rank (x y : spec_float) :
  valid_binary x = true → valid_binary y = true →
  SFis_nan x = false → SFis_nan y = false →
  SFcompare x y = Some (SFrank x ?= SFrank y).
Proof.
  intros Hx Hy Nx Ny.
  assert (0 < 2 ^ (emax - emin)) as Hinf
    by (apply Z.pow_pos_nonneg; unfold emax, emin, SpecFloat.emin, prec; lia).
  destruct x as [sx|sx| |sx mx ex], y as [sy|sy| |sy my ey]; try discriminate;
    simpl in Hx, Hy;
    try pose proof (finite_rank_bound _ _ Hx) as Bx;
    try pose proof (finite_rank_bound _ _ Hy) as By;
    unfold SFcompare, SFrank, cond_Zopp; f_equal; symmetry;
    generalize dependent (2 ^ (emax - emin)); intros inf; intros.
  all: try (destruct sx; try reflexivity;
            first [apply Z.compare_lt_iff; lia | apply Z.compare_gt_iff; lia]).
  all: try (destruct sy; try reflexivity;
            first [apply Z.compare_lt_iff; lia | apply Z.compare_gt_iff; lia]).
  all: try (destruct sx, sy; try reflexivity;
            first [apply Z.compare_eq_iff; lia | apply Z.compare_lt_iff; lia
                  | apply Z.compare_gt_iff; lia]).
  (* finite against finite, same sign *)
  all: destruct sx, sy;
    try (apply Z.compare_lt_iff; lia); try (apply Z.compare_gt_iff; lia).
  - destruct (Z.compare_spec ex ey) as [->|Hlt|Hgt].
    + rewrite Pos.compare_cont_spec.
      assert (0 < 2 ^ (ey - emin)) by lia.
      destruct (Pos.compare_spec mx my) as [->|Hm|Hm]; simpl;
        [apply Z.compare_eq_iff | apply Z.compare_gt_iff | apply Z.compare_lt_iff]; nia.
    + apply Z.compare_gt_iff. pose proof (finite_lt_by_exponent _ _ _ _ Hx Hy Hlt). lia.
    + apply Z.compare_lt_iff. pose proof (finite_lt_by_exponent _ _ _ _ Hy Hx Hgt). lia.
  - destruct (Z.compare_spec ex ey) as [->|Hlt|Hgt].
    + rewrite Pos.compare_cont_spec.
      assert (0 < 2 ^ (ey - emin)) by lia.
      destruct (Pos.compare_spec mx my) as [->|Hm|Hm]; simpl;
        [apply Z.compare_eq_iff | apply Z.compare_lt_iff | apply Z.compare_gt_iff]; nia.
    + apply Z.compare_lt_iff. pose proof (finite_lt_by_exponent _ _ _ _ Hx Hy Hlt). lia.
    + apply Z.compare_gt_iff. pose proof (finite_lt_by_exponent _ _ _ _ Hy Hx Hgt). lia.
Qed.

Lemma Zdigits2_pos_iff (m : Z) : 0 <= m → (0 < Zdigits2 m ↔ 0 < m).
Proof. destruct m; simpl; lia. Qed.

Lemma shr_1_digits (r : shr_record) :
  0 <= shr_m r →
  0 <= shr_m (shr_1 r) ∧
  Zdigits2 (shr_m (shr_1 r)) = Z.max 0 (Zdigits2 (shr_m r) - 1).
Proof.
  destruct r as [m b c]. simpl. intros Hm.
  destruct m as [|[p|p|]|p]; simpl; try lia.
Qed.

Lemma iter_shr_1_digits (n : positive) (r : shr_record) :
  0 <= shr_m r →
  0 <= shr_m (SpecFloat.iter_pos shr_1 n r) ∧
  Zdigits2 (shr_m (SpecFloat.iter_pos shr_1 n r)) = Z.max 0 (Zdigits2 (shr_m r) - Zpos n).
Proof.
  revert r. induction n as [n IH|n IH|]; intros r Hr; simpl SpecFloat.iter_pos.
  - destruct (shr_1_digits r Hr) as [H1 E1].
    destruct (IH _ H1) as [H2 E2]. destruct (IH _ H2) as [H3 E3].
    split; [done|]. rewrite E3, E2, E1. lia.
  - destruct (IH _ Hr) as [H2 E2]. destruct (IH _ H2) as [H3 E3].
    split; [done|]. rewrite E3, E2. lia.
  - apply shr_1_digits, Hr.
Qed.

Lemma shr_m_of_loc (m : Z) (l : location) : shr_m (shr_record_of_loc m l) = m.
Proof. destruct l as [|[]]; reflexivity. Qed.

(** Rounding a positive mantissa at an exponent in range never shifts all
    of its digits out. *)
Lemma shr_fexp_pos (m e : Z) (l : location) :
  0 < m → emin <= e →
  0 < shr_m (shr_fexp prec emax m e l).1 ∧ emin <= (shr_fexp prec emax m e l).2.
Proof.
  intros Hm He. unfold shr_fexp, shr.
  pose proof (proj2 (Zdigits2_pos_iff m ltac:(lia)) Hm) as Hd.
  destruct (fexp prec emax (Zdigits2 m + e) - e) as [|n|n] eqn:En; simpl;
    rewrite ?shr_m_of_loc; try (split; lia).
  destruct (iter_shr_1_digits n (shr_record_of_loc m l)) as [H0 Hdig].
  { rewrite shr_m_of_loc. lia. }
  rewrite shr_m_of_loc in Hdig.
  split; [|lia].
  apply Zdigits2_pos_iff; [done|]. rewrite Hdig.
  unfold fexp, emin, SpecFloat.emin, prec, emax in *. lia.
Qed.

Lemma binary_round_aux_sign (s : bool) (m e : Z) (l : location) :
  0 < m → emin <= e →
  (∃ m' e', binary_round_aux prec emax s m e l = S754_finite s m' e') ∨
  binary_round_aux prec emax s m e l = S754_infinity s.
Proof.
  intros Hm He. unfold binary_round_aux.
  destruct (shr_fexp_pos m e l Hm He) as [H1 H1e].
  destruct (shr_fexp prec emax m e l) as [r1 e1]. simpl in H1, H1e.
  set (m2 := round_nearest_even (shr_m r1) (loc_of_shr_record r1)).
  assert (0 < m2) as H2.
  { unfold m2, round_nearest_even.
    destruct (loc_of_shr_record r1) as [|[]]; try lia.
    destruct (Z.even (shr_m r1)); lia. }
  destruct (shr_fexp_pos m2 e1 loc_Exact H2 H1e) as [H3 _].
  destruct (shr_fexp prec emax m2 e1 loc_Exact) as [r3 e3]. simpl in H3.
  destruct (shr_m r3) as [|p|p]; try lia.
  destruct (e3 <=? emax - prec); eauto.
Qed.

Lemma binary_round_sign (s : bool) (m : positive) (e : Z) :
  emin <= e →
  (∃ m' e', binary_round prec emax s m e = S754_finite s m' e') ∨
  binary_round prec emax s m e = S754_infinity s.
Proof.
  intros He. unfold binary_round, shl_align.
  set (E := fexp prec emax (Zpos (digits2_pos m) + e)).
  assert (emin <= E) by (unfold E, fexp, emin, SpecFloat.emin; lia).
  destruct (E - e) as [|d|d] eqn:Ed; apply binary_round_aux_sign; lia.
Qed.

Lemma SFltb_zero_normalize (D e : Z) :
  emin <= e →
  SFltb (S754_zero false) (binary_normalize prec emax D e false) = (0 <? D).
Proof.
  intros He. destruct D as [|p|p]; simpl; [reflexivity| |].
  - destruct (binary_round_sign false p e He) as [(m' & e' & ->)| ->]; reflexivity.
  - destruct (binary_round_sign true p e He) as [(m' & e' & ->)| ->]; reflexivity.
Qed.

Lemma Pos_iter_xO (m d : positive) :
  Zpos (Pos.iter xO m d) = Zpos m * 2 ^ Zpos d.
Proof.
  induction d as [|d IH] using Pos.peano_ind.
  - simpl. lia.
  - rewrite Pos.iter_succ, Pos2Z.inj_succ, Z.pow_succ_r by lia.
    rewrite Pos2Z.inj_xO, IH. lia.
Qed.

(** Aligning a mantissa to a smaller exponent keeps the number. *)
Lemma shl_align_rank (m : positive) (e e' : Z) :
  emin <= e' <= e →
  Zpos (shl_align m e e').1 * 2 ^ (e' - emin) = Zpos m * 2 ^ (e - emin).
Proof.
  intros He. unfold shl_align.
  destruct (e' - e) as [|d|d] eqn:Ed; simpl.
  - by replace e' with e by lia.
  - lia.
  - rewrite Pos_iter_xO, <- Z.mul_assoc, <- Z.pow_add_r by lia.
    do 2 f_equal. lia.
Qed.

Lemma SFsub_sign (x y : spec_float) :
  valid_binary x = true → valid_binary y = true →
  SFis_nan x = false → SFis_nan y = false →
  SFltb (S754_zero false) (SFsub prec emax y x) = (SFrank x <? SFrank y).
Proof.
  intros Hx Hy Nx Ny.
  assert (0 < 2 ^ (emax - emin)) as Hinf
    by (apply Z.pow_pos_nonneg; unfold emax, emin, SpecFloat.emin, prec; lia).
  destruct x as [sx|sx| |sx mx ex], y as [sy|sy| |sy my ey]; try discriminate;
    simpl in Hx, Hy;
    try pose proof (finite_rank_bound _ _ Hx) as Bx;
    try pose proof (finite_rank_bound _ _ Hy) as By.
  all: try (unfold SFsub, SFrank, cond_Zopp;
            generalize dependent (2 ^ (emax - emin)); intros inf; intros;
            symmetry;
            repeat match goal with s : bool |- _ => destruct s end; simpl;
            first [apply Z.ltb_lt; lia | apply Z.ltb_ge; lia]).
  (* finite minus finite *)
  destruct (bounded_inv _ _ Hx) as ([? ?] & _ & _).
  destruct (bounded_inv _ _ Hy) as ([? ?] & _ & _).
  unfold SFsub. rewrite SFltb_zero_normalize by lia.
  pose proof (shl_align_rank mx ex (Z.min ey ex) ltac:(lia)) as Ex.
  pose proof (shl_align_rank my ey (Z.min ey ex) ltac:(lia)) as Ey.
  assert (0 < 2 ^ (Z.min ey ex - emin)) by (apply Z.pow_pos_nonneg; lia).
  unfold SFrank. rewrite <- Ex, <- Ey.
  generalize dependent (2 ^ (Z.min ey ex - emin)).
  generalize (Zpos (shl_align mx ex (Z.min ey ex)).1).
  generalize (Zpos (shl_align my ey (Z.min ey ex)).1).
  intros a b p _ _ Hp.
  destruct sx, sy; simpl;
    match goal with |- (0 <? ?d) = _ => destruct (Z.ltb_spec 0 d) end;
    symmetry; first [apply Z.ltb_lt; nia | apply Z.ltb_ge; nia].
Qed.

Lemma SFcompare_refl (x : spec_float) :
  SFis_nan x = false → SFcompare x x = Some Eq.
Proof.
  destruct x as [s|s| |s m e]; try discriminate; intros _; simpl.
  - done.
  - by destruct s.
  - rewrite Z.compare_refl, Pos.compare_cont_refl. by destruct s.
Qed.

Lemma is_nan_spec (x : float) : is_nan x = SFis_nan (Prim2SF x).
Proof.
  unfold is_nan. rewrite FloatAxioms.eqb_spec. unfold SFeqb.
  destruct (SFis_nan (Prim2SF x)) eqn:E.
  - by destruct (Prim2SF x).
  - by rewrite SFcompare_refl.
Qed.

Lemma is_nan_eq (x : float) : is_nan x = true → x = nan.
Proof.
  rewrite is_nan_spec. intros H. apply Prim2SF_inj.
  destruct (Prim2SF x); try discriminate. reflexivity.
Qed.

Lemma compare_rank (x y : float) :
  is_nan x = false → is_nan y = false →
  SFcompare (Prim2SF x) (Prim2SF y) = Some (rank x ?= rank y).
Proof.
  rewrite !is_nan_spec. intros. apply SFcompare_rank; auto using Prim2SF_valid.
Qed.

Lemma ltb_rank (x y : float) :
  is_nan x = false → is_nan y = false →
  (x <? y)%float = (rank x <? rank y).
Proof.
  intros Hx Hy. rewrite FloatAxioms.ltb_spec. unfold SFltb, Z.ltb.
  by rewrite compare_rank.
Qed.

Lemma leb_rank (x y : float) :
  is_nan x = false → is_nan y = false →
  (x <=? y)%float = (rank x <=? rank y).
Proof.
  intros Hx Hy. rewrite FloatAxioms.leb_spec. unfold SFleb, Z.leb.
  rewrite compare_rank by done. by destruct (rank x ?= rank y).
Qed.

Lemma eqb_rank (x y : float) :
  is_nan x = false → is_nan y = false →
  (x =? y)%float = (rank x =? rank y).
Proof.
  intros Hx Hy. rewrite FloatAxioms.eqb_spec. unfold SFeqb.
  rewrite compare_rank by done.
  destruct (Z.compare_spec (rank x) (rank y)); symmetry;
    first [apply Z.eqb_eq; lia | apply Z.eqb_neq; lia].
Qed.

(** The sign test that [Array.prototype.sort] applies to [b - a]. *)
Lemma sub_pos_rank (x y : float) :
  is_nan x = false → is_nan y = false →
  (0 <? y - x)%float = (rank x <? rank y).
Proof.
  rewrite !is_nan_spec. intros Hx Hy.
  rewrite FloatAxioms.ltb_spec, sub_spec.
  change (Prim2SF 0) with (S754_zero false).
  apply SFsub_sign; auto using Prim2SF_valid.
Qed.

(** With a [NaN] on either side the difference is [NaN] and the test fails. *)
Lemma sub_pos_nan (x y : float) :
  is_nan x = true ∨ is_nan y = true → (0 <? y - x)%float = false.
Proof.
  rewrite !is_nan_spec, FloatAxioms.ltb_spec, sub_spec. unfold SF64sub.
  intros [H|H]; destruct (Prim2SF x), (Prim2SF y); try discriminate; reflexivity.
Qed.

Lemma is_zero_spec (x : float) :
  is_zero x = match Prim2SF x with S754_zero _ => true | _ => false end.
Proof.
  unfold is_zero. rewrite FloatAxioms.eqb_spec.
  change (Prim2SF zero) with (S754_zero false).
  destruct (Prim2SF x) as [s|s| |s m e]; try reflexivity; by destruct s.
Qed.

Lemma is_zero_zero_or_nan (x : float) : is_zero x = true → zero_or_nan x = true.
Proof. rewrite is_zero_spec. unfold zero_or_nan. by destruct (Prim2SF x). Qed.

Lemma zero_or_nan_nan : zero_or_nan nan = true.
Proof. reflexivity. Qed.

Lemma zero_or_nan_zero : zero_or_nan 0 = true.
Proof. reflexivity. Qed.

Lemma zero_or_nan_mul_l (x y : float) :
  zero_or_nan x = true → zero_or_nan (x * y) = true.
Proof.
  unfold zero_or_nan. rewrite mul_spec.
  destruct (Prim2SF x), (Prim2SF y); try discriminate; reflexivity.
Qed.

Lemma zero_or_nan_mul_r (x y : float) :
  zero_or_nan y = true → zero_or_nan (x * y) = true.
Proof.
  unfold zero_or_nan. rewrite mul_spec.
  destruct (Prim2SF x), (Prim2SF y); try discriminate; reflexivity.
Qed.

Lemma zero_or_nan_add (x y : float) :
  zero_or_nan x = true → zero_or_nan y = true → zero_or_nan (x + y) = true.
Proof.
  unfold zero_or_nan. rewrite add_spec.
  destruct (Prim2SF x) as [[]| | |], (Prim2SF y) as [[]| | |];
    try discriminate; reflexivity.
Qed.

Lemma zero_or_nan_sqrt (x : float) :
  zero_or_nan x = true → zero_or_nan (sqrt x) = true.
Proof.
  unfold zero_or_nan. rewrite sqrt_spec.
  destruct (Prim2SF x); try discriminate; reflexivity.
Qed.

Lemma zero_or_nan_div (x y : float) :
  zero_or_nan x = true → zero_or_nan y = true → (x / y)%float = nan.
Proof.
  unfold zero_or_nan. intros Hx Hy. apply Prim2SF_inj. rewrite div_spec.
  destruct (Prim2SF x), (Prim2SF y); try discriminate; reflexivity.
Qed.

(** A zero numerator over a divisor that is neither zero nor [NaN]. *)
Lemma zero_div (x y : float) :
  is_zero x = true → zero_or_nan y = false → is_zero (x / y) = true.
Proof.
  rewrite !is_zero_spec. unfold zero_or_nan. rewrite div_spec.
  destruct (Prim2SF x), (Prim2SF y); try discriminate; reflexivity.
Qed.

Lemma div_eucl_multiple (m : positive) (k : Z) :
  Z.div_eucl (Zpos m * k) (Zpos m) = (k, 0).
Proof.
  pose proof (Z.div_eucl_eq (Zpos m * k) (Zpos m) ltac:(lia)) as E.
  pose proof (Z.mod_pos_bound (Zpos m * k) (Zpos m) ltac:(lia)) as B.
  unfold Z.modulo in B.
  destruct (Z.div_eucl (Zpos m * k) (Zpos m)) as [q r]. simpl in B.
  assert (Zpos m * (k - q) = r) as Hr by lia.
  assert (k - q = 0) by nia. f_equal; lia.
Qed.

Lemma SFdiv_self (s : bool) (m : positive) (e : Z) :
  SFdiv prec emax (S754_finite s m e) (S754_finite s m e) = Prim2SF 1.
Proof.
  unfold SFdiv, SFdiv_core_binary.
  replace (Zdigits2 (Zpos m) + e - (Zdigits2 (Zpos m) + e)) with 0 by lia.
  replace (e - e) with 0 by lia.
  change (Z.min (fexp prec emax 0) 0) with (-53).
  change (0 - -53) with 53.
  rewrite Z.shiftl_mul_pow2 by lia.
  rewrite div_eucl_multiple.
  assert (new_location (Zpos m) 0 = loc_Exact) as ->.
  { unfold new_location. by destruct (Z.even (Zpos m)). }
  rewrite xorb_nilpotent. reflexivity.
Qed.

Lemma div_self (x : float) :
  is_finite x = true → is_zero x = false → (x / x)%float = 1%float.
Proof.
  intros Hf Hz. apply Prim2SF_inj. rewrite div_spec.
  rewrite is_zero_spec in Hz.
  unfold is_finite, is_infinity in Hf.
  rewrite is_nan_spec, FloatAxioms.eqb_spec, abs_spec in Hf.
  change (Prim2SF infinity) with (S754_infinity false) in Hf.
  destruct (Prim2SF x) as [s|s| |s m e]; try discriminate.
  apply SFdiv_self.
Qed.

(** The magnitude of a positive mantissa at an exponent: the number lies in
    [2^(mag-1), 2^mag). *)
Lemma Zdigits2_log2 (m : Z) : 0 < m → Zdigits2 m = Z.log2 m + 1.
Proof.
  destruct m as [|p|p]; try lia. intros _. simpl Zdigits2.
  pose proof (digits2_pos_bounds p) as [H1 H2].
  symmetry. apply Z.add_move_r. apply Z.log2_unique; [lia|].
  split; [done|]. by replace (Z.succ (Zpos (digits2_pos p) - 1)) with (Zpos (digits2_pos p)) by lia.
Qed.

Lemma Zdigits2_mono (m n : Z) : 0 < m → m <= n → Zdigits2 m <= Zdigits2 n.
Proof.
  intros Hm Hn. rewrite !Zdigits2_log2 by lia.
  pose proof (Z.log2_le_mono m n Hn). lia.
Qed.

(** Shifting for rounding keeps the magnitude as long as the number is above
    the least subnormal. *)
Lemma shr_fexp_magnitude (m e : Z) (l : location) :
  0 < m → emin < Zdigits2 m + e →
  0 < shr_m (shr_fexp prec emax m e l).1
  ∧ Zdigits2 (shr_m (shr_fexp prec emax m e l).1) + (shr_fexp prec emax m e l).2
    = Zdigits2 m + e.
Proof.
  intros Hm He. unfold shr_fexp, shr.
  pose proof (proj2 (Zdigits2_pos_iff m ltac:(lia)) Hm) as Hd.
  destruct (fexp prec emax (Zdigits2 m + e) - e) as [|n|n] eqn:En; simpl;
    rewrite ?shr_m_of_loc; try (split; lia).
  destruct (iter_shr_1_digits n (shr_record_of_loc m l)) as [H0 Hdig].
  { rewrite shr_m_of_loc. lia. }
  rewrite shr_m_of_loc in Hdig.
  assert (Zpos n < Zdigits2 m) as Hn.
  { unfold fexp, emin, SpecFloat.emin, prec, emax in *. lia. }
  split; [|lia].
  apply Zdigits2_pos_iff; [done|]. lia.
Qed.

Lemma binary_round_aux_magnitude (s : bool) (m e : Z) (l : location) :
  0 < m → emin < Zdigits2 m + e →
  binary_round_aux prec emax s m e l = S754_infinity s
  ∨ ∃ m' e', binary_round_aux prec emax s m e l = S754_finite s m' e'
             ∧ Zdigits2 m + e <= Zpos (digits2_pos m') + e'.
Proof.
  intros Hm He. unfold binary_round_aux.
  destruct (shr_fexp_magnitude m e l Hm He) as [H1 M1].
  destruct (shr_fexp prec emax m e l) as [r1 e1]. simpl in H1, M1.
  set (m2 := round_nearest_even (shr_m r1) (loc_of_shr_record r1)).
  assert (shr_m r1 <= m2) as H2.
  { unfold m2, round_nearest_even.
    destruct (loc_of_shr_record r1) as [|[]]; try lia.
    destruct (Z.even (shr_m r1)); lia. }
  pose proof (Zdigits2_mono _ _ H1 H2) as D2.
  destruct (shr_fexp_magnitude m2 e1 loc_Exact ltac:(lia) ltac:(lia)) as [H3 M3].
  destruct (shr_fexp prec emax m2 e1 loc_Exact) as [r3 e3]. simpl in H3, M3.
  destruct (shr_m r3) as [|p|p] eqn:E3; try lia.
  destruct (e3 <=? emax - prec); [right|by left].
  eexists _, _. split; [reflexivity|]. simpl in M3. lia.
Qed.

(** Rounding a mantissa that is not negative gives a number of the requested
    sign (possibly zero), never [NaN]. *)
Lemma binary_round_aux_nonneg (s : bool) (m e : Z) (l : location) :
  0 <= m →
  match binary_round_aux prec emax s m e l with
  | S754_zero s' | S754_infinity s' | S754_finite s' _ _ => s' = s
  | S754_nan => False
  end.
Proof.
  intros Hm. unfold binary_round_aux, shr_fexp, shr.
  set (n1 := fexp prec emax (Zdigits2 m + e) - e).
  assert (0 <= shr_m (match n1 with
                      | Zpos p => (SpecFloat.iter_pos shr_1 p (shr_record_of_loc m l), e + n1)
                      | _ => (shr_record_of_loc m l, e) end).1) as H1.
  { destruct n1; simpl; rewrite ?shr_m_of_loc; try done.
    apply iter_shr_1_digits. by rewrite shr_m_of_loc. }
  destruct (match n1 with Zpos p => _ | _ => _ end) as [r1 e1]. simpl in H1.
  set (m2 := round_nearest_even (shr_m r1) (loc_of_shr_record r1)).
  assert (0 <= m2) as H2.
  { unfold m2, round_nearest_even.
    destruct (loc_of_shr_record r1) as [|[]]; try lia.
    destruct (Z.even (shr_m r1)); lia. }
  set (n2 := fexp prec emax (Zdigits2 m2 + e1) - e1).
  assert (0 <= shr_m (match n2 with
                      | Zpos p => (SpecFloat.iter_pos shr_1 p (shr_record_of_loc m2 loc_Exact), e1 + n2)
                      | _ => (shr_record_of_loc m2 loc_Exact, e1) end).1) as H3.
  { destruct n2; simpl; try done. by apply iter_shr_1_digits. }
  destruct (match n2 with Zpos p => _ | _ => _ end) as [r3 e3]. simpl in H3.
  destruct (shr_m r3); try lia; try done.
  by destruct (e3 <=? emax - prec).
Qed.

Lemma SFmul_self_nonneg (x : spec_float) : SFnonneg (SFmul prec emax x x) = true.
Proof.
  destruct x as [[]|[]| |s m e]; try reflexivity. unfold SFmul.
  pose proof (binary_round_aux_nonneg (xorb s s) (Zpos (m * m)) (e + e) loc_Exact
                ltac:(lia)) as H.
  rewrite xorb_nilpotent in *.
  by destruct (binary_round_aux _ _ _ _ _ _) as [[]|[]| |[] ? ?].
Qed.

Lemma SFadd_nonneg (x y : spec_float) :
  valid_binary x = true → valid_binary y = true →
  SFnonneg x = true → SFnonneg y = true →
  SFnonneg (SFadd prec emax x y) = true.
Proof.
  intros Vx Vy Hx Hy.
  destruct x as [[]|[]| |[] mx ex], y as [[]|[]| |[] my ey];
    try discriminate; try reflexivity.
  simpl in Vx, Vy.
  destruct (bounded_inv _ _ Vx) as ([? ?] & _ & _).
  destruct (bounded_inv _ _ Vy) as ([? ?] & _ & _).
  unfold SFadd, cond_Zopp, binary_normalize.
  set (p := Zpos _ + Zpos _). assert (0 < p) as Hp by (unfold p; lia).
  destruct p as [|p|p]; try lia.
  by destruct (binary_round_sign false p (Z.min ex ey) ltac:(lia))
    as [(m' & e' & ->)| ->].
Qed.

Lemma sqrt_digits (n : Z) :
  0 < n → Zdigits2 n <= 2 * Zdigits2 (Z.sqrt n) ∧ 0 < Z.sqrt n.
Proof.
  intros Hn.
  assert (0 < Z.sqrt n) as Hq by (apply Z.sqrt_pos; lia).
  split; [|done].
  rewrite !Zdigits2_log2 by lia.
  pose proof (Z.sqrt_spec n ltac:(lia)) as [_ Hup].
  pose proof (Z.log2_spec (Z.sqrt n) Hq) as [_ Hlog].
  assert (n < 2 ^ (2 * (Z.log2 (Z.sqrt n) + 1))) as Hlt.
  { pose proof (Z.log2_nonneg (Z.sqrt n)).
    replace (2 * (Z.log2 (Z.sqrt n) + 1))
      with (Z.succ (Z.log2 (Z.sqrt n)) + Z.succ (Z.log2 (Z.sqrt n))) by lia.
    rewrite Z.pow_add_r by lia. nia. }
  apply Z.log2_lt_pow2 in Hlt; lia.
Qed.

Lemma SFsqrt_root_sized (m : positive) (e : Z) :
  bounded prec emax m e = true →
  SFroot_sized (SFsqrt prec emax (S754_finite false m e)) = true.
Proof.
  intros Hb. destruct (bounded_inv _ _ Hb) as ([He1 He2] & _ & _).
  unfold SFsqrt, SFsqrt_core_binary.
  set (d := Zdigits2 (Zpos m)).
  assert (1 <= d) as Hd by (unfold d; simpl; lia).
  set (e' := Z.min (fexp prec emax (Z.div2 (d + e + 1))) (Z.div2 e)).
  assert (2 * e' <= e) as He'.
  { unfold e'. rewrite !Z.div2_div.
    pose proof (Z.div_mod e 2 ltac:(lia)). pose proof (Z.mod_pos_bound e 2 ltac:(lia)).
    lia. }
  remember (e - 2 * e') as s eqn:Es.
  set (m' := match s with Zpos _ => Z.shiftl (Zpos m) s | 0 => Zpos m | Zneg _ => 0 end).
  assert (0 < m' ∧ Zdigits2 m' = d + s) as [Hm' Dm'].
  { unfold m'. destruct s as [|p|p]; [| |lia].
    - split; [lia|]. unfold d. simpl. lia.
    - rewrite Z.shiftl_mul_pow2 by lia.
      assert (0 < 2 ^ Zpos p) by (apply Z.pow_pos_nonneg; lia).
      split; [lia|]. rewrite Zdigits2_log2 by lia. unfold d.
      rewrite Zdigits2_log2 by lia.
      rewrite Z.log2_mul_pow2 by lia. lia. }
  pose proof (Z.sqrtrem_sqrt m') as Hfst.
  destruct (Z.sqrtrem m') as [q r]. simpl in Hfst. subst q.
  destruct (sqrt_digits m' Hm') as [Hdig Hq].
  set (l := if r =? 0 then loc_Exact else loc_Inexact (if r <=? Z.sqrt m' then Lt else Gt)).
  assert (-1073 <= d + e) by (unfold emin, SpecFloat.emin, emax, prec in *; lia).
  assert (-536 <= Zdigits2 (Z.sqrt m') + e') as Hmag by lia.
  destruct (binary_round_aux_magnitude false (Z.sqrt m') e' l Hq)
    as [->|(mf & ef & -> & Hf)]; [unfold emin, SpecFloat.emin, emax, prec; lia|done|].
  simpl. apply Z.leb_le. lia.
Qed.

Lemma SFmul_root_sized (x y : spec_float) :
  SFroot_sized x = true → SFroot_sized y = true →
  SFzero_or_nan (SFmul prec emax x y) = false.
Proof.
  destruct x as [[]|[]| |[] mx ex], y as [[]|[]| |[] my ey];
    try discriminate; try reflexivity.
  simpl. rewrite !Z.leb_le. intros Hx Hy.
  assert (Zdigits2 (Zpos mx) + Zdigits2 (Zpos my) - 1 <= Zdigits2 (Zpos (mx * my))) as Hd.
  { rewrite !Zdigits2_log2 by lia. rewrite Pos2Z.inj_mul.
    pose proof (Z.log2_mul_below (Zpos mx) (Zpos my) ltac:(lia) ltac:(lia)). lia. }
  simpl Zdigits2 in Hd.
  destruct (binary_round_aux_magnitude false (Zpos (mx * my)) (ex + ey) loc_Exact)
    as [->|(mf & ef & -> & Hf)]; try reflexivity; try lia.
  simpl Zdigits2. unfold emin, SpecFloat.emin, emax, prec. lia.
Qed.

Lemma nonneg_mul_self (x : float) : nonneg (x * x) = true.
Proof. unfold nonneg. rewrite mul_spec. apply SFmul_self_nonneg. Qed.

Lemma nonneg_add (x y : float) :
  nonneg x = true → nonneg y = true → nonneg (x + y) = true.
Proof.
  unfold nonneg. rewrite add_spec. apply SFadd_nonneg; apply Prim2SF_valid.
Qed.

(** The square roots of two sums of squares that are neither zero nor [NaN]
    have a product that is neither: it cannot underflow. *)
Lemma sqrt_mul_not_zero (x y : float) :
  nonneg x = true → nonneg y = true →
  zero_or_nan x = false → zero_or_nan y = false →
  zero_or_nan (sqrt x * sqrt y) = false.
Proof.
  unfold nonneg, zero_or_nan. rewrite mul_spec, !sqrt_spec.
  intros Nx Ny Zx Zy.
  assert (∀ z, valid_binary z = true → SFnonneg z = true →
               SFzero_or_nan z = false →
               SFroot_sized (SF64sqrt z) = true) as Hroot.
  { intros [[]|[]| |[] m e] Hv; try discriminate; intros _ _; [reflexivity|].
    by apply SFsqrt_root_sized. }
  apply SFmul_root_sized; apply Hroot; auto using Prim2SF_valid.
Qed.


End Binary64.
(** ** Rounding errors

    What the rounding of one operation loses, read in the real numbers: the
    square root, the product and the quotient of normal numbers are within a
    relative error of [unit_roundoff] of the exact results. *)

Section Rounding.
#[local] Open Scope Z_scope.
#[local] Open Scope R_scope.

Lemma IZR_xO (p : positive) : IZR (Zpos p~0) = 2 * IZR (Zpos p).
Proof. by rewrite Pos2Z.inj_xO, mult_IZR. Qed.

Lemma IZR_xI (p : positive) : IZR (Zpos p~1) = 2 * IZR (Zpos p) + 1.
Proof. by rewrite Pos2Z.inj_xI, plus_IZR, mult_IZR. Qed.

Lemma shr_1_located (r : shr_record) (x : R) :
  (0 <= shr_m r)%Z →
  located (shr_m r) (loc_of_shr_record r) x →
  located (shr_m (shr_1 r)) (loc_of_shr_record (shr_1 r)) (x / 2).
Proof.
  destruct r as [m rb sb]. cbn [shr_m]. intros Hm.
  destruct m as [|[p|p|]|p]; [| | | |lia]; clear Hm.
  all: destruct rb, sb;
    cbn [shr_1 shr_m shr_r shr_s loc_of_shr_record located orb].
  all: rewrite ?(IZR_xO p), ?(IZR_xI p); intros; lra.
Qed.

Lemma iter_shr_1_located (n : positive) : ∀ (r : shr_record) (x : R),
  (0 <= shr_m r)%Z →
  located (shr_m r) (loc_of_shr_record r) x →
  located (shr_m (SpecFloat.iter_pos shr_1 n r))
          (loc_of_shr_record (SpecFloat.iter_pos shr_1 n r))
          (x / powerRZ 2 (Zpos n)).
Proof.
  assert (∀ k, powerRZ 2 k ≠ 0) as Hnz by (intros; apply powerRZ_NOR; lra).
  induction n as [n IH|n IH|]; intros r x Hr Hx; simpl SpecFloat.iter_pos.
  - pose proof (shr_1_located r x Hr Hx) as H1.
    destruct (shr_1_digits r Hr) as [Hr1 _].
    pose proof (IH _ _ Hr1 H1) as H2.
    destruct (iter_shr_1_digits n _ Hr1) as [Hr2 _].
    pose proof (IH _ _ Hr2 H2) as H3.
    replace (x / powerRZ 2 (Zpos n~1))
      with (x / 2 / powerRZ 2 (Zpos n) / powerRZ 2 (Zpos n)); [done|].
    replace (Zpos n~1) with (Zpos n + Zpos n + 1)%Z by lia.
    rewrite !powerRZ_add by lra. change (powerRZ 2 1) with (2 * 1).
    field. apply Hnz.
  - pose proof (IH _ _ Hr Hx) as H2.
    destruct (iter_shr_1_digits n _ Hr) as [Hr2 _].
    pose proof (IH _ _ Hr2 H2) as H3.
    replace (x / powerRZ 2 (Zpos n~0))
      with (x / powerRZ 2 (Zpos n) / powerRZ 2 (Zpos n)); [done|].
    replace (Zpos n~0) with (Zpos n + Zpos n)%Z by lia.
    rewrite !powerRZ_add by lra. field. apply Hnz.
  - change (powerRZ 2 1) with (2 * 1). rewrite Rmult_1_r.
    by apply shr_1_located.
Qed.

Lemma loc_of_record_of_loc (m : Z) (l : location) :
  loc_of_shr_record (shr_record_of_loc m l) = l.
Proof. by destruct l as [|[]]. Qed.

(** The shift before rounding keeps the number: [x * 2^e] is the same
    before and after. *)
Lemma shr_fexp_located (m e : Z) (l : location) (x : R) :
  (0 < m)%Z → located m l x →
  let r := (shr_fexp prec emax m e l).1 in
  let e' := (shr_fexp prec emax m e l).2 in
  ∃ x', located (shr_m r) (loc_of_shr_record r) x'
        ∧ x' * powerRZ 2 e' = x * powerRZ 2 e
        ∧ e' = Z.max e (fexp prec emax (Zdigits2 m + e)).
Proof.
  intros Hm Hx. unfold shr_fexp, shr.
  destruct (fexp prec emax (Zdigits2 m + e) - e)%Z as [|n|n] eqn:En; simpl.
  - exists x. rewrite loc_of_record_of_loc, shr_m_of_loc. split; [done|].
    split; [done|lia].
  - exists (x / powerRZ 2 (Zpos n)). split; [|split; [|lia]].
    + apply iter_shr_1_located; rewrite ?shr_m_of_loc, ?loc_of_record_of_loc;
        [lia|done].
    + rewrite powerRZ_add by lra. field. apply powerRZ_NOR; lra.
  - exists x. rewrite loc_of_record_of_loc, shr_m_of_loc. split; [done|].
    split; [done|lia].
Qed.

Lemma round_nearest_even_located (m : Z) (l : location) (x : R) :
  located m l x →
  Rabs (IZR (round_nearest_even m l) - x) <= / 2
  ∧ (m <= round_nearest_even m l <= m + 1)%Z.
Proof.
  destruct l as [|[]]; simpl; intros Hx.
  - rewrite Hx. split; [|lia].
    rewrite Rminus_diag, Rabs_R0. lra.
  - rewrite Hx. destruct (Z.even m).
    + split; [|lia]. rewrite Rabs_left; lra.
    + split; [|lia]. rewrite plus_IZR. rewrite Rabs_right; lra.
  - split; [|lia]. rewrite Rabs_left; lra.
  - split; [|lia]. rewrite plus_IZR. rewrite Rabs_right; lra.
Qed.

End Rounding.

Section Digits.
#[local] Open Scope Z_scope.

Lemma Zdigits2_bounds (m : Z) :
  0 < m → 2 ^ (Zdigits2 m - 1) <= m < 2 ^ Zdigits2 m.
Proof.
  destruct m as [|p|p]; try lia. intros _. apply digits2_pos_bounds.
Qed.

Lemma Zdigits2_ge (m k : Z) : 0 <= k → 2 ^ k <= m → k + 1 <= Zdigits2 m.
Proof.
  intros Hk Hm.
  assert (0 < m) as Hp by (pose proof (Z.pow_pos_nonneg 2 k); lia).
  destruct (Zdigits2_bounds m Hp) as [_ Hu].
  destruct (Z.le_gt_cases (k + 1) (Zdigits2 m)) as [|Hlt]; [done|].
  assert (2 ^ Zdigits2 m <= 2 ^ k) by (apply Z.pow_le_mono_r; lia). lia.
Qed.

Lemma Zdigits2_le (m k : Z) : 0 < m → m < 2 ^ k → Zdigits2 m <= k.
Proof.
  intros Hp Hm.
  destruct (Zdigits2_bounds m Hp) as [Hl _].
  destruct (Z.le_gt_cases (Zdigits2 m) k) as [|Hlt]; [done|].
  assert (0 <= k).
  { destruct (Z.le_gt_cases 0 k); [done|]. rewrite Z.pow_neg_r in Hm; lia. }
  assert (2 ^ k <= 2 ^ (Zdigits2 m - 1)) by (apply Z.pow_le_mono_r; lia). lia.
Qed.

Lemma Zdigits2_mul (a b : Z) :
  0 < a → 0 < b →
  Zdigits2 a + Zdigits2 b - 1 <= Zdigits2 (a * b) <= Zdigits2 a + Zdigits2 b.
Proof.
  intros Ha Hb.
  destruct (Zdigits2_bounds a Ha) as [La Ua], (Zdigits2_bounds b Hb) as [Lb Ub].
  pose proof (proj2 (Zdigits2_pos_iff a ltac:(lia)) Ha).
  pose proof (proj2 (Zdigits2_pos_iff b ltac:(lia)) Hb).
  assert (0 < 2 ^ (Zdigits2 a - 1)) by (apply Z.pow_pos_nonneg; lia).
  assert (0 < 2 ^ (Zdigits2 b - 1)) by (apply Z.pow_pos_nonneg; lia).
  split.
  - assert (Zdigits2 a + Zdigits2 b - 2 + 1 <= Zdigits2 (a * b)); [|lia].
    apply Zdigits2_ge; [lia|].
    replace (Zdigits2 a + Zdigits2 b - 2) with ((Zdigits2 a - 1) + (Zdigits2 b - 1)) by lia.
    rewrite Z.pow_add_r by lia. nia.
  - apply Zdigits2_le; [nia|]. rewrite Z.pow_add_r by lia. nia.
Qed.

End Digits.

Section RoundingError.
#[local] Open Scope Z_scope.
#[local] Open Scope R_scope.

Lemma powerRZ_2_pos (k : Z) : 0 < powerRZ 2 k.
Proof. apply powerRZ_lt. lra. Qed.

Lemma IZR_pow2 (k : Z) : (0 <= k)%Z → IZR (2 ^ k) = powerRZ 2 k.
Proof.
  intros Hk. rewrite <- (Z2Nat.id k Hk) at 1.
  rewrite <- pow_IZR, pow_powerRZ. by rewrite Z2Nat.id.
Qed.

Lemma powerRZ_2_succ (k : Z) : powerRZ 2 (k + 1) = 2 * powerRZ 2 k.
Proof. rewrite powerRZ_add by lra. simpl. lra. Qed.

Lemma unit_roundoff_prec : powerRZ 2 (- prec) = unit_roundoff.
Proof.
  unfold unit_roundoff.
  change (- prec)%Z with (Zneg 53). unfold powerRZ.
  rewrite pow_IZR, positive_nat_Z. reflexivity.
Qed.

(** Rounding to nearest: a number whose magnitude lies in the range of the
    normal numbers, given with at least [prec] digits, is rounded to a normal
    number within a relative error of [unit_roundoff]. *)
Lemma binary_round_aux_error (m e : Z) (l : location) (x : R) :
  (0 < m)%Z → located m l x →
  (prec <= Zdigits2 m)%Z →
  (emin + prec <= Zdigits2 m + e < emax)%Z →
  ∃ m' e', binary_round_aux prec emax false m e l = S754_finite false m' e'
    ∧ Zpos (digits2_pos m') = prec
    ∧ (Zdigits2 m + e <= prec + e' <= Zdigits2 m + e + 1)%Z
    ∧ Rabs (IZR (Zpos m') * powerRZ 2 e' - x * powerRZ 2 e)
      <= unit_roundoff * (x * powerRZ 2 e).
Proof.
  intros Hm Hx Hd Hmag. unfold binary_round_aux.
  destruct (shr_fexp_located m e l x Hm Hx) as (x1 & L1 & V1 & E1).
  destruct (shr_fexp_magnitude m e l Hm) as [P1 D1].
  { unfold emin, SpecFloat.emin, prec, emax in *. lia. }
  destruct (shr_fexp prec emax m e l) as [r1 e1]. simpl in L1, V1, E1, P1, D1.
  assert (e1 = Zdigits2 m + e - prec)%Z as He1.
  { unfold fexp, emin, SpecFloat.emin, prec, emax in *. lia. }
  assert (Zdigits2 (shr_m r1) = prec) as Hd1 by lia.
  destruct (round_nearest_even_located _ _ _ L1) as [Hr Hm2].
  set (m2 := round_nearest_even (shr_m r1) (loc_of_shr_record r1)) in *.
  destruct (Zdigits2_bounds _ P1) as [Lo1 Up1]. rewrite Hd1 in Lo1, Up1.
  assert (IZR (2 ^ (prec - 1)) <= x1) as Hx1.
  { apply Rle_trans with (IZR (shr_m r1)); [by apply IZR_le|].
    destruct (loc_of_shr_record r1) as [|[]]; simpl in L1; lra. }
  assert (Rabs (IZR m2 * powerRZ 2 e1 - x * powerRZ 2 e)
          <= unit_roundoff * (x * powerRZ 2 e)) as Herr.
  { rewrite <- V1.
    replace (IZR m2 * powerRZ 2 e1 - x1 * powerRZ 2 e1)
      with ((IZR m2 - x1) * powerRZ 2 e1) by ring.
    pose proof (powerRZ_2_pos e1) as Hp.
    rewrite Rabs_mult, (Rabs_right (powerRZ 2 e1)) by lra.
    rewrite <- Rmult_assoc. apply Rmult_le_compat_r; [lra|].
    apply Rle_trans with (/ 2); [done|].
    apply Rle_trans with (unit_roundoff * IZR (2 ^ (prec - 1))).
    - unfold unit_roundoff. change (2 ^ (prec - 1))%Z with 4503599627370496%Z. lra.
    - apply Rmult_le_compat_l; [unfold unit_roundoff; lra|done]. }
  clearbody m2.
  destruct (Z.eq_dec m2 (2 ^ prec)%Z) as [->|Hne].
  - (* the mantissa was rounded up to a power of two *)
    assert (shr_fexp prec emax (2 ^ prec) e1 loc_Exact
            = ({| shr_m := 2 ^ (prec - 1); shr_r := false; shr_s := false |}, e1 + 1)%Z)
      as ->.
    { unfold shr_fexp.
      replace (fexp prec emax (Zdigits2 (2 ^ prec) + e1) - e1)%Z with 1%Z; [done|].
      change (Zdigits2 (2 ^ prec)) with 54%Z.
      unfold fexp, emin, SpecFloat.emin, prec, emax in *. lia. }
    cbn [shr_m]. change (2 ^ (prec - 1))%Z with (Zpos 4503599627370496).
    replace (e1 + 1 <=? emax - prec)%Z with true
      by (symmetry; apply Z.leb_le; unfold prec, emax in *; lia).
    eexists _, _. split; [reflexivity|]. split; [reflexivity|]. split; [lia|].
    replace (IZR (Zpos 4503599627370496) * powerRZ 2 (e1 + 1))
      with (IZR (2 ^ prec) * powerRZ 2 e1); [done|].
    rewrite powerRZ_2_succ. change (2 ^ prec)%Z with 9007199254740992%Z. lra.
  - assert (Zdigits2 m2 = prec) as Hd2.
    { apply Z.le_antisymm.
      - apply Zdigits2_le; lia.
      - replace prec with ((prec - 1) + 1)%Z at 1 by lia.
        apply Zdigits2_ge; [unfold prec; lia|lia]. }
    assert (shr_fexp prec emax m2 e1 loc_Exact
            = ({| shr_m := m2; shr_r := false; shr_s := false |}, e1)) as ->.
    { unfold shr_fexp.
      replace (fexp prec emax (Zdigits2 m2 + e1) - e1)%Z with 0%Z; [done|].
      unfold fexp, emin, SpecFloat.emin, prec, emax in *. lia. }
    cbn [shr_m]. destruct m2 as [|p|p]; try lia.
    replace (e1 <=? emax - prec)%Z with true
      by (symmetry; apply Z.leb_le; unfold prec, emax in *; lia).
    eexists _, _. split; [reflexivity|]. split; [exact Hd2|]. split; [lia|done].
Qed.

End RoundingError.

Section Operations.
#[local] Open Scope Z_scope.
#[local] Open Scope R_scope.

Lemma F2R_pos (m : positive) (e : Z) : 0 < F2R m e.
Proof.
  unfold F2R. apply Rmult_lt_0_compat; [|apply powerRZ_2_pos].
  apply IZR_lt. lia.
Qed.

Lemma located_fraction (q : Z) (l : location) (r : R) :
  match l with
  | loc_Exact => r = 0
  | loc_Inexact Lt => 0 < r < / 2
  | loc_Inexact Eq => r = / 2
  | loc_Inexact Gt => / 2 < r < 1
  end → located q l (IZR q + r).
Proof. destruct l as [|[]]; simpl; lra. Qed.

Lemma new_location_located (q n k : Z) :
  (0 <= k < n)%Z → located q (new_location n k) (IZR q + IZR k / IZR n).
Proof.
  intros Hk. apply located_fraction.
  assert (0 < IZR n) as Hn by (apply IZR_lt; lia).
  assert (IZR k / IZR n * IZR n = IZR k) as Hr by (field; lra).
  assert (0 <= IZR k < IZR n) as Hk' by (split; [apply IZR_le|apply IZR_lt]; lia).
  set (r := IZR k / IZR n) in *.
  assert (∀ a b : R, a * IZR n < b * IZR n → a < b) as lt_n
    by (intros a b; apply Rmult_lt_reg_r; lra).
  assert (∀ a b : R, a * IZR n = b * IZR n → a = b) as eq_n
    by (intros a b H; apply (Rmult_eq_reg_r (IZR n)); [done|lra]).
  unfold new_location, new_location_even, new_location_odd.
  destruct (Z.even n) eqn:En; destruct (Z.eqb_spec k 0) as [->|Hk0].
  - apply eq_n. lra.
  - assert (0 < IZR k) by (apply IZR_lt; lia).
    destruct (Z.compare_spec (2 * k) n) as [E|E|E].
    + apply eq_n. rewrite Hr, <- E, mult_IZR. lra.
    + apply IZR_lt in E. rewrite mult_IZR in E. split; apply lt_n; lra.
    + apply IZR_lt in E. rewrite mult_IZR in E. split; apply lt_n; lra.
  - apply eq_n. lra.
  - assert (0 < IZR k) by (apply IZR_lt; lia).
    assert (2 * k ≠ n)%Z as Hodd.
    { intros <-. rewrite Z.even_mul in En. discriminate. }
    destruct (Z.compare_spec (2 * k + 1) n) as [E|E|E].
    + assert (2 * k < n)%Z as E' by lia.
      apply IZR_lt in E'. rewrite mult_IZR in E'. split; apply lt_n; lra.
    + assert (2 * k < n)%Z as E' by lia.
      apply IZR_lt in E'. rewrite mult_IZR in E'. split; apply lt_n; lra.
    + assert (n < 2 * k)%Z as E' by lia.
      apply IZR_lt in E'. rewrite mult_IZR in E'. split; apply lt_n; lra.
Qed.

Lemma shiftl_pow2 (m s : Z) :
  (0 <= s)%Z →
  match s with Zpos _ => Z.shiftl m s | Z0 => m | Zneg _ => 0%Z end = (m * 2 ^ s)%Z.
Proof.
  intros Hs. destruct s as [|p|p]; try lia.
  by rewrite Z.shiftl_mul_pow2.
Qed.

Lemma Zdigits2_shift (m s : Z) :
  (0 < m)%Z → (0 <= s)%Z → Zdigits2 (m * 2 ^ s) = (Zdigits2 m + s)%Z.
Proof.
  intros Hm Hs. rewrite !Zdigits2_log2; [|done|].
  - rewrite Z.log2_mul_pow2 by lia. lia.
  - pose proof (Z.pow_pos_nonneg 2 s). lia.
Qed.

(** The quotient the division core hands to rounding. *)
Lemma SFdiv_core_located (m1 m2 : positive) (e1 e2 : Z) :
  let M := (Zdigits2 (Zpos m1) + e1 - (Zdigits2 (Zpos m2) + e2))%Z in
  (emin + prec <= M)%Z →
  ∃ q e l x,
    SFdiv_core_binary prec emax (Zpos m1) e1 (Zpos m2) e2 = (q, e, l)
    ∧ (0 < q)%Z ∧ located q l x
    ∧ x * powerRZ 2 e = F2R m1 e1 / F2R m2 e2
    ∧ (prec <= Zdigits2 q)%Z
    ∧ (M <= Zdigits2 q + e <= M + 1)%Z.
Proof.
  intros M HM. unfold SFdiv_core_binary.
  fold M.
  set (e := Z.min (fexp prec emax M) (e1 - e2)).
  set (s := (e1 - e2 - e)%Z).
  assert (0 <= s)%Z as Hs by (unfold s, e; lia).
  rewrite (shiftl_pow2 (Zpos m1) s Hs).
  set (m' := (Zpos m1 * 2 ^ s)%Z).
  assert (0 < 2 ^ s)%Z as Hp by (apply Z.pow_pos_nonneg; lia).
  assert (0 < m')%Z as Hm' by (unfold m'; lia).
  pose proof (Z.div_eucl_eq m' (Zpos m2) ltac:(lia)) as Heq.
  pose proof (Z.mod_pos_bound m' (Zpos m2) ltac:(lia)) as Hb.
  unfold Z.modulo, Z.div in *.
  destruct (Z.div_eucl m' (Zpos m2)) as [q r].
  assert (Zdigits2 m' = Zdigits2 (Zpos m1) + s)%Z as Hd'
    by (by apply Zdigits2_shift).
  destruct (Zdigits2_bounds m' Hm') as [Lm Um].
  destruct (Zdigits2_bounds (Zpos m2) ltac:(lia)) as [L2 U2].
  assert (0 < Zdigits2 (Zpos m2))%Z as Hd2 by (simpl; lia).
  set (d2 := Zdigits2 (Zpos m2)) in *.
  set (d' := Zdigits2 m') in *.
  assert (e <= M - prec)%Z as He.
  { unfold e, fexp, emin, SpecFloat.emin, prec, emax in *. lia. }
  assert (d' - d2 = M - e)%Z as Hdd by (unfold M, s in *; fold d2; lia).
  assert (prec <= d' - d2)%Z as Hpd by lia.
  assert (0 < 2 ^ (d2 - 1))%Z by (apply Z.pow_pos_nonneg; lia).
  assert (2 ^ (d' - 1) = 2 ^ (d' - 1 - d2) * 2 ^ d2)%Z as Esplit.
  { rewrite <- Z.pow_add_r; [f_equal; lia|unfold prec in *; lia|lia]. }
  assert (2 ^ (d' - d2 + 1) * 2 ^ (d2 - 1) = 2 ^ d')%Z as Esplit'.
  { rewrite <- Z.pow_add_r; [f_equal; lia|unfold prec in *; lia|lia]. }
  assert (0 < 2 ^ (d' - 1 - d2))%Z
    by (apply Z.pow_pos_nonneg; unfold prec in *; lia).
  assert (2 ^ (d' - 1 - d2) <= q)%Z as Lq by nia.
  assert (q < 2 ^ (d' - d2 + 1))%Z as Uq by nia.
  assert (d' - d2 <= Zdigits2 q)%Z as Dl.
  { replace (d' - d2)%Z with (d' - 1 - d2 + 1)%Z by lia.
    apply Zdigits2_ge; [unfold prec in *; lia|done]. }
  assert (Zdigits2 q <= d' - d2 + 1)%Z as Du by (apply Zdigits2_le; lia).
  exists q, e, (new_location (Zpos m2) r), (IZR q + IZR r / IZR (Zpos m2)).
  split; [done|]. split; [lia|]. split; [by apply new_location_located|].
  split; [|split; lia].
  assert (0 < IZR (Zpos m2)) as H2 by (apply IZR_lt; lia).
  replace (IZR q + IZR r / IZR (Zpos m2)) with (IZR m' / IZR (Zpos m2)).
  2:{ rewrite Heq, plus_IZR, mult_IZR. field. lra. }
  unfold F2R, m'. rewrite mult_IZR, IZR_pow2 by done.
  assert (powerRZ 2 e1 = powerRZ 2 s * powerRZ 2 e * powerRZ 2 e2) as ->.
  { rewrite <- !powerRZ_add by lra. f_equal. unfold s. lia. }
  field.
  split; [|lra]. pose proof (powerRZ_2_pos e2). lra.
Qed.

Lemma div2_bounds (x : Z) : (2 * Z.div2 x <= x <= 2 * Z.div2 x + 1)%Z.
Proof.
  rewrite Z.div2_div.
  pose proof (Z.div_mod x 2 ltac:(lia)).
  pose proof (Z.mod_pos_bound x 2 ltac:(lia)). lia.
Qed.

(** The root the square-root core hands to rounding. *)
Lemma SFsqrt_core_located (m : positive) (e : Z) :
  let M := Z.div2 (Zdigits2 (Zpos m) + e + 1) in
  (emin + prec <= M)%Z →
  ∃ q e' l x,
    SFsqrt_core_binary prec emax (Zpos m) e = (q, e', l)
    ∧ (0 < q)%Z ∧ located q l x
    ∧ x * powerRZ 2 e' = R_sqrt.sqrt (F2R m e)
    ∧ (prec <= Zdigits2 q)%Z
    ∧ (Zdigits2 q + e' = M)%Z.
Proof.
  intros M HM. unfold SFsqrt_core_binary. fold M.
  set (e' := Z.min (fexp prec emax M) (Z.div2 e)).
  set (s := (e - 2 * e')%Z).
  pose proof (div2_bounds e) as He2.
  pose proof (div2_bounds (Zdigits2 (Zpos m) + e + 1)) as HM2. fold M in HM2.
  assert (0 <= s)%Z as Hs by (unfold s, e'; lia).
  rewrite (shiftl_pow2 (Zpos m) s Hs).
  set (m' := (Zpos m * 2 ^ s)%Z).
  assert (0 < 2 ^ s)%Z as Hp by (apply Z.pow_pos_nonneg; lia).
  assert (0 < m')%Z as Hm' by (unfold m'; lia).
  pose proof (Z.sqrtrem_spec m' ltac:(lia)) as Hspec.
  pose proof (Z.sqrtrem_sqrt m') as Hsq.
  destruct (Z.sqrtrem m') as [q r]. simpl in Hsq. destruct Hspec as [Heq Hr].
  destruct (sqrt_digits m' Hm') as [Dl Hq]. rewrite <- Hsq in Dl, Hq.
  assert (Zdigits2 m' = Zdigits2 (Zpos m) + s)%Z as Hd'
    by (by apply Zdigits2_shift).
  assert (2 * Zdigits2 q - 1 <= Zdigits2 m')%Z as Du.
  { pose proof (Zdigits2_mul q q Hq Hq) as [Hl _].
    pose proof (Zdigits2_mono (q * q) m' ltac:(lia) ltac:(lia)). lia. }
  assert (e' <= M - prec)%Z as He.
  { unfold e', fexp, emin, SpecFloat.emin, prec, emax in *. lia. }
  assert (Zdigits2 q + e' = M)%Z as Hmag.
  { unfold s in *. lia. }
  set (l := if (r =? 0)%Z then loc_Exact
            else loc_Inexact (if (r <=? q)%Z then Lt else Gt)).
  exists q, e', l, (R_sqrt.sqrt (IZR m')).
  split; [done|]. split; [done|]. split; [|split; [|split; [lia|done]]].
  - assert (0 < IZR q) as Hq' by (apply IZR_lt; lia).
    assert (IZR m' = IZR q * IZR q + IZR r) as Heq'
      by (rewrite Heq, plus_IZR, mult_IZR; done).
    assert (0 <= IZR r <= 2 * IZR q) as Hr'.
    { split; [apply IZR_le; lia|]. rewrite <- mult_IZR. apply IZR_le; lia. }
    assert (∀ a b : R, 0 <= a → a * a < b → a < R_sqrt.sqrt b) as lower.
    { intros a b Ha Hab. rewrite <- (sqrt_square a Ha).
      apply sqrt_lt_1; nra. }
    assert (∀ a b : R, 0 <= a → 0 <= b → b < a * a → R_sqrt.sqrt b < a) as upper.
    { intros a b Ha Hb Hab. rewrite <- (sqrt_square a Ha).
      apply sqrt_lt_1; nra. }
    unfold l. destruct (Z.eqb_spec r 0) as [->|Hr0].
    + simpl. rewrite Heq'. rewrite Rplus_0_r. apply sqrt_square. lra.
    + assert (1 <= IZR r) by (apply IZR_le; lia).
      destruct (Z.leb_spec r q) as [Hle|Hgt]; simpl.
      * apply IZR_le in Hle. split; [apply lower|apply upper]; nra.
      * assert (q + 1 <= r)%Z as Hgt' by lia.
        apply IZR_le in Hgt'. rewrite plus_IZR in Hgt'.
        split; [apply lower|apply upper]; nra.
  - unfold F2R, m'. rewrite mult_IZR, IZR_pow2 by done.
    assert (powerRZ 2 e = powerRZ 2 s * (powerRZ 2 e' * powerRZ 2 e')) as ->.
    { rewrite <- !powerRZ_add by lra. f_equal. unfold s. lia. }
    pose proof (powerRZ_2_pos e'). pose proof (powerRZ_2_pos s).
    assert (0 < IZR (Zpos m)) by (apply IZR_lt; lia).
    rewrite <- Rmult_assoc.
    rewrite (sqrt_mult (IZR (Zpos m) * powerRZ 2 s)); [|nra|nra].
    rewrite sqrt_square by lra. done.
Qed.

End Operations.

Section OperationErrors.
#[local] Open Scope Z_scope.
#[local] Open Scope R_scope.

Lemma Rabs_bound (x y : R) : Rabs x <= y → - y <= x <= y.
Proof. unfold Rabs. destruct (Rcase_abs x); lra. Qed.

Lemma SFsqrt_error (m : positive) (e : Z) :
  let M := Z.div2 (Zdigits2 (Zpos m) + e + 1) in
  (emin + prec <= M < emax)%Z →
  ∃ m' e', SFsqrt prec emax (S754_finite false m e) = S754_finite false m' e'
    ∧ Zpos (digits2_pos m') = prec
    ∧ (M <= prec + e' <= M + 1)%Z
    ∧ Rabs (F2R m' e' - R_sqrt.sqrt (F2R m e)) <= unit_roundoff * R_sqrt.sqrt (F2R m e).
Proof.
  intros M [HM1 HM2].
  destruct (SFsqrt_core_located m e HM1) as (q & e0 & l & x & Hc & Hq & L & V & D & Mg).
  fold M in Mg.
  destruct (binary_round_aux_error q e0 l x Hq L D ltac:(lia))
    as (m' & e' & H1 & H2 & H3 & H4).
  exists m', e'. unfold SFsqrt. rewrite Hc.
  split; [done|]. split; [done|]. split; [lia|]. by rewrite V in H4.
Qed.

Lemma SFmul_error (m1 m2 : positive) (e1 e2 : Z) :
  Zpos (digits2_pos m1) = prec → Zpos (digits2_pos m2) = prec →
  (emin + prec <= 2 * prec - 1 + e1 + e2)%Z → (2 * prec + e1 + e2 < emax)%Z →
  ∃ m' e', SFmul prec emax (S754_finite false m1 e1) (S754_finite false m2 e2)
           = S754_finite false m' e'
    ∧ Zpos (digits2_pos m') = prec
    ∧ (2 * prec - 1 + e1 + e2 <= prec + e' <= 2 * prec + e1 + e2 + 1)%Z
    ∧ Rabs (F2R m' e' - F2R m1 e1 * F2R m2 e2)
      <= unit_roundoff * (F2R m1 e1 * F2R m2 e2).
Proof.
  intros D1 D2 Hlo Hhi.
  pose proof (Zdigits2_mul (Zpos m1) (Zpos m2) ltac:(lia) ltac:(lia)) as Hd.
  change (Zdigits2 (Zpos m1)) with (Zpos (digits2_pos m1)) in Hd.
  change (Zdigits2 (Zpos m2)) with (Zpos (digits2_pos m2)) in Hd.
  rewrite D1, D2 in Hd.
  change (Zpos m1 * Zpos m2)%Z with (Zpos (m1 * m2)) in Hd.
  destruct (binary_round_aux_error (Zpos (m1 * m2)) (e1 + e2) loc_Exact
              (IZR (Zpos (m1 * m2))) ltac:(lia) ltac:(done))
    as (m' & e' & H1 & H2 & H3 & H4).
  { unfold prec in *. lia. }
  { lia. }
  exists m', e'. split; [exact H1|]. split; [done|]. split; [lia|].
  replace (F2R m1 e1 * F2R m2 e2)
    with (IZR (Zpos (m1 * m2)) * powerRZ 2 (e1 + e2)); [done|].
  unfold F2R. rewrite Pos2Z.inj_mul, mult_IZR, powerRZ_add by lra. ring.
Qed.

Lemma SFdiv_error (m1 m2 : positive) (e1 e2 : Z) :
  let M := (Zdigits2 (Zpos m1) + e1 - (Zdigits2 (Zpos m2) + e2))%Z in
  (emin + prec <= M)%Z → (M + 1 < emax)%Z →
  ∃ m' e', SFdiv prec emax (S754_finite false m1 e1) (S754_finite false m2 e2)
           = S754_finite false m' e'
    ∧ Zpos (digits2_pos m') = prec
    ∧ Rabs (F2R m' e' - F2R m1 e1 / F2R m2 e2)
      <= unit_roundoff * (F2R m1 e1 / F2R m2 e2).
Proof.
  intros M HM1 HM2.
  destruct (SFdiv_core_located m1 m2 e1 e2 HM1)
    as (q & e0 & l & x & Hc & Hq & L & V & D & Mg).
  fold M in Mg.
  destruct (binary_round_aux_error q e0 l x Hq L D ltac:(lia))
    as (m' & e' & H1 & H2 & H3 & H4).
  exists m', e'. unfold SFdiv. rewrite Hc.
  split; [done|]. split; [done|]. by rewrite V in H4.
Qed.

(** A number of magnitude between [-999] and [1001], divided by the product of
    its square root with itself, gives a number within [8 * unit_roundoff] of
    one. *)
Lemma SFself_ratio (m : positive) (e : Z) :
  Zpos (digits2_pos m) = prec → (-1052 <= e <= 948)%Z →
  let n := S754_finite false m e in
  ∃ m' e',
    SFdiv prec emax n (SFmul prec emax (SFsqrt prec emax n) (SFsqrt prec emax n))
    = S754_finite false m' e'
    ∧ 1 - 8 * unit_roundoff <= F2R m' e' <= 1 + 8 * unit_roundoff.
Proof.
  intros Hd He n. unfold n.
  pose proof (div2_bounds (Zdigits2 (Zpos m) + e + 1)) as HM.
  simpl Zdigits2 in HM. rewrite Hd in HM.
  destruct (SFsqrt_error m e) as (ms & es & -> & Ds & Ms & Es).
  { simpl Zdigits2. rewrite Hd.
    unfold emin, SpecFloat.emin, prec, emax in *. lia. }
  simpl Zdigits2 in Ms. rewrite Hd in Ms.
  destruct (SFmul_error ms ms es es Ds Ds) as (mp & ep & -> & Dp & Mp & Ep).
  { unfold emin, SpecFloat.emin, prec, emax in *. lia. }
  { unfold emin, SpecFloat.emin, prec, emax in *. lia. }
  destruct (SFdiv_error m mp e ep) as (mr & er & -> & Dr & Er).
  { simpl Zdigits2. rewrite Hd, Dp.
    unfold emin, SpecFloat.emin, prec, emax in *. lia. }
  { simpl Zdigits2. rewrite Hd, Dp.
    unfold emin, SpecFloat.emin, prec, emax in *. lia. }
  exists mr, er. split; [done|].
  pose proof (F2R_pos m e) as HN. pose proof (F2R_pos ms es) as HS.
  pose proof (F2R_pos mp ep) as HP.
  set (N := F2R m e) in *. set (S := F2R ms es) in *. set (P := F2R mp ep) in *.
  set (Q := F2R mr er) in *.
  assert (0 < R_sqrt.sqrt N) as Ha by (by apply sqrt_lt_R0).
  assert (R_sqrt.sqrt N * R_sqrt.sqrt N = N) as Haa by (apply sqrt_sqrt; lra).
  set (a := R_sqrt.sqrt N) in *.
  apply Rabs_bound in Es, Ep, Er.
  unfold unit_roundoff in *.
  assert ((1 - / 9007199254740992) * a <= S
          <= (1 + / 9007199254740992) * a) as BS by lra.
  assert ((1 - / 9007199254740992) * a * ((1 - / 9007199254740992) * a)
          <= S * S) as BL by (apply Rmult_le_compat; lra).
  assert (S * S <= (1 + / 9007199254740992) * a
                   * ((1 + / 9007199254740992) * a)) as BU
    by (apply Rmult_le_compat; lra).
  assert ((1 - 4 * / 9007199254740992) * N <= P
          <= (1 + 4 * / 9007199254740992) * N) as BP by (split; lra).
  assert (N / P * P = N) as HX by (field; lra).
  set (X := N / P) in *.
  assert (1 - 5 * / 9007199254740992 <= X <= 1 + 5 * / 9007199254740992) as BX.
  { split; apply (Rmult_le_reg_r P); lra. }
  split; lra.
Qed.

End OperationErrors.

Section Comparisons.
#[local] Open Scope Z_scope.

Lemma SFrank_F2R (m : positive) (e : Z) :
  emin <= e →
  IZR (SFrank (S754_finite false m e)) = (F2R m e * powerRZ 2 (- emin))%R.
Proof.
  intros He. unfold SFrank, F2R. cbn [cond_Zopp].
  rewrite mult_IZR, IZR_pow2 by lia.
  rewrite Rmult_assoc, <- powerRZ_add by lra. do 2 f_equal; lia.
Qed.

Lemma SFleb_F2R (m1 m2 : positive) (e1 e2 : Z) :
  bounded prec emax m1 e1 = true → bounded prec emax m2 e2 = true →
  (F2R m1 e1 <= F2R m2 e2)%R →
  SFleb (S754_finite false m1 e1) (S754_finite false m2 e2) = true.
Proof.
  intros B1 B2 Hle. unfold SFleb.
  rewrite SFcompare_rank by done.
  destruct (bounded_inv _ _ B1) as ([He1 _] & _), (bounded_inv _ _ B2) as ([He2 _] & _).
  assert (SFrank (S754_finite false m1 e1) <= SFrank (S754_finite false m2 e2)) as Hr.
  { apply le_IZR. rewrite !SFrank_F2R by done.
    apply Rmult_le_compat_r; [|done].
    pose proof (powerRZ_2_pos (- emin)). lra. }
  destruct (Z.compare_spec (SFrank (S754_finite false m1 e1))
              (SFrank (S754_finite false m2 e2))); try done; lia.
Qed.

(** A float between [2^-1000] and [2^1000] is a normal number. *)
Lemma between_normal (n : float) :
  (0x1p-1000 <=? n)%float = true → (n <=? 0x1p1000)%float = true →
  ∃ m e, Prim2SF n = S754_finite false m e
         ∧ Zpos (digits2_pos m) = prec ∧ -1052 <= e <= 948.
Proof.
  rewrite !FloatAxioms.leb_spec.
  pose proof (Prim2SF_valid n) as V.
  change (Prim2SF 0x1p-1000) with (S754_finite false 4503599627370496 (-1052)).
  change (Prim2SF 0x1p1000) with (S754_finite false 4503599627370496 948).
  destruct (Prim2SF n) as [s|s| |s m e]; try discriminate.
  - destruct s; discriminate.
  - destruct s; [discriminate|].
    unfold SFleb, SFcompare. intros Hlo Hhi.
    destruct (Z.compare_spec (-1052) e) as [E|E|E]; try discriminate;
      destruct (Z.compare_spec e 948) as [E'|E'|E']; try discriminate;
      exists m, e; (split; [done|]);
      destruct (bounded_inv _ _ V) as (_ & _ & Hd);
      (split; [apply Hd; unfold emin, SpecFloat.emin, prec, emax; lia|lia]).
Qed.

(** Dividing a float between [2^-1000] and [2^1000] by the product of its
    square root with itself gives [1.0] up to [2^-50]. *)
Lemma self_ratio_close (n : float) :
  (0x1p-1000 <=? n)%float = true → (n <=? 0x1p1000)%float = true →
  (1 - 0x1p-50 <=? n / (sqrt n * sqrt n))%float = true
  ∧ (n / (sqrt n * sqrt n) <=? 1 + 0x1p-50)%float = true.
Proof.
  intros Hlo Hhi.
  destruct (between_normal n Hlo Hhi) as (m & e & En & Hd & He).
  destruct (SFself_ratio m e Hd He) as (m' & e' & Er & Blo & Bhi).
  pose proof (Prim2SF_valid (n / (sqrt n * sqrt n))) as V.
  rewrite !FloatAxioms.leb_spec.
  rewrite div_spec, mul_spec, sqrt_spec, En in *.
  unfold SF64div, SF64mul, SF64sqrt in *.
  rewrite Er in *.
  change (Prim2SF (1 - 0x1p-50)) with (S754_finite false 9007199254740984 (-53)).
  change (Prim2SF (1 + 0x1p-50)) with (S754_finite false 4503599627370500 (-52)).
  assert (powerRZ 2 (-53) = unit_roundoff) as E53 by apply unit_roundoff_prec.
  assert (powerRZ 2 (-52) = 2 * unit_roundoff)%R as E52.
  { change (-52) with (-53 + 1). rewrite powerRZ_2_succ, E53. done. }
  split; apply SFleb_F2R; try done.
  - unfold F2R at 1. rewrite E53. unfold unit_roundoff in *. lra.
  - unfold F2R at 2. rewrite E52. unfold unit_roundoff in *. lra.
Qed.

End Comparisons.


(** ** Running the monad *)

Ltac run_m :=
  unfold bind, ret, throw, try_catch, gets, modify, console_log, lift in *;
  simpl in *.

Import SimpleMemoryVectorStore.

(** ** Loading *)

(** C5. When the snapshot file is absent, [loadFromFile] returns [false]
    and changes nothing; when it is there but does not parse, the error is
    written to the console and the result is [false] again.  In both cases
    the records in memory stay as they were and nothing is thrown, and the
    facade's constructor, which starts from an empty store, ends with an
    empty index. *)
Theorem load_without_snapshot (path : string) (s : state) :
  (∀ j, files s !! path ≠ Some (Json j)) →
  ∃ s', loadFromFile path s = (Returned false, s')
      ∧ docs s' = docs s ∧ files s' = files s ∧ requests s' = requests s
      ∧ (files s !! path = None → s' = s)
      ∧ (∀ t, files s !! path = Some (Corrupt t) →
           ∃ err, console s' = console s ++ [ErrLoad err])
      ∧ (path = VECTORS_FILE →
           ∃ s'', BerkshireVectorStore.constructor s = (Returned tt, s'')
                ∧ docs s'' = [] ∧ files s'' = files s).
Proof.
  intros Hno. unfold loadFromFile, BerkshireVectorStore.constructor, new. run_m.
  destruct (files s !! path) as [[t|j]|] eqn:E.
  - eexists. split; [reflexivity|]. simpl. repeat split; try done.
    + intros; eauto.
    + intros ->. unfold loadFromFile. run_m. rewrite E. simpl. eauto.
  - by destruct (Hno j).
  - exists s. destruct s. repeat split; try done.
    intros ->. unfold loadFromFile; run_m. rewrite E. simpl. eauto.
Qed.

Lemma load_without_snapshot_witness :
  let s := mkState [mkRecord (mkDocument "kept" ∅) (Some [1%float])]
                   {[ VECTORS_FILE := Corrupt "[{" ]} [] [] in
  ∃ s', loadFromFile VECTORS_FILE s = (Returned false, s') ∧ docs s' = docs s.
Proof.
  intros s.
  destruct (load_without_snapshot VECTORS_FILE s) as (s' & H1 & H2 & _).
  - intros j. vm_compute. discriminate.
  - exists s'. split; assumption.
Defined.

(** ** Clearing *)

Lemma clearIndex_once (s : state) :
  ∃ s', BerkshireVectorStore.clearIndex s = (Returned tt, s')
      ∧ docs s' = [] ∧ files s' = delete VECTORS_FILE (files s)
      ∧ requests s' = requests s.
Proof.
  unfold BerkshireVectorStore.clearIndex, new. run_m.
  destruct (files s !! VECTORS_FILE) eqn:E; simpl; eexists; split; try reflexivity;
    simpl; repeat split; try done.
  symmetry. by apply delete_id.
Qed.

Lemma similaritySearch_empty (embeddings : OpenAIEmbeddings) (q : string)
    (k : option Z) (filter : option (gmap string scalar)) (s : state) :
  docs s = [] →
  similaritySearch embeddings q k filter s =
    (match embedQuery embeddings (requests s) q with
     | inr _ => Returned []
     | inl e => Thrown e
     end, sent (EmbedQuery q) s).
Proof.
  intros Hd. unfold similaritySearch, call_embedQuery. run_m.
  destruct (embedQuery embeddings (requests s) q) as [e|qe]; simpl; [done|].
  rewrite Hd. simpl. unfold slice_to. simpl. by rewrite take_nil.
Qed.

(** C8. After one call of [clearIndex] or more, the index is empty and the
    snapshot file is gone; a further call changes neither.  A query then
    returns the empty list whatever its text, [topK] and filter are; it can
    only fail the way the provider fails to embed the query text. *)
Theorem clearIndex_idempotent (embeddings : OpenAIEmbeddings) (n : nat) (s : state) :
  let s' := cleared (S n) s in
  (BerkshireVectorStore.clearIndex (cleared n s)).1 = Returned tt
  ∧ docs s' = [] ∧ files s' !! VECTORS_FILE = None
  ∧ docs (cleared (S (S n)) s) = docs s'
  ∧ files (cleared (S (S n)) s) = files s'
  ∧ ∀ q topK filter,
      (BerkshireVectorStore.query embeddings q topK filter s').1 =
        match embedQuery embeddings (requests s') q with
        | inr _ => Returned []
        | inl e => Thrown e
        end.
Proof.
  intros s'. unfold s'. simpl cleared.
  destruct (clearIndex_once (cleared n s)) as (s1 & E1 & D1 & F1 & R1).
  rewrite E1. simpl.
  destruct (clearIndex_once s1) as (s2 & E2 & D2 & F2 & R2).
  rewrite E2. simpl.
  repeat split; try done.
  - rewrite F1. apply lookup_delete_eq.
  - congruence.
  - rewrite F2, F1. by rewrite delete_delete_eq.
  - intros q topK filter. unfold BerkshireVectorStore.query. run_m.
    rewrite similaritySearch_empty by done. simpl.
    by destruct (embedQuery embeddings (requests s1) q).
Qed.

(** ** Filtering *)

Lemma matches_spec (f : gmap string scalar) (d : Document) :
  matches f d = true ↔
  ∀ key val, f !! key = Some val →
             strict_eq_member (get_member (metadata d) key) val = true.
Proof.
  unfold matches. rewrite forallb_forall. split.
  - intros H key val Hk. apply (H (key, val)).
    apply list_elem_of_In, elem_of_map_to_list. done.
  - intros H [key val] Hin. apply H.
    apply elem_of_map_to_list, list_elem_of_In. done.
Qed.

Lemma strict_eq_undefined (w : scalar) :
  strict_eq (Scalar Undefined) w = true → w = Undefined.
Proof. by destruct w. Qed.

(** For a key that [Object.prototype] does not define, [o[key]] is the own
    property or [undefined]. *)
Lemma get_member_plain (o : gmap string jsval) (key : string) (w : scalar) :
  bool_decide (key ∈ Object_prototype) = false →
  strict_eq_member (get_member o key) w = strict_eq (get_prop o key) w.
Proof.
  intros Hkey. unfold get_member, get_prop. rewrite Hkey.
  by destruct (o !! key).
Qed.

(** One pair of the filter against the metadata, by cases on the own
    property. *)
Lemma strict_eq_member_cases (o : gmap string jsval) (key : string) (w : scalar) :
  strict_eq_member (get_member o key) w = true ↔
  match o !! key with
  | Some v => strict_eq v w = true
  | None => w = Undefined ∧ key ∉ Object_prototype
  end.
Proof.
  unfold get_member. destruct (o !! key) as [v|]; [done|].
  case_bool_decide as Hkey; simpl.
  - split; [done|]. by intros [_ ?].
  - split.
    + intros Hw. split; [|done]. by destruct w.
    + by intros [-> _].
Qed.

(** What the callback of [this.docs.map] returns, by cases. *)
Lemma score_item_cases (qe : list float) (filter : option (gmap string scalar))
    (r : vrecord) :
  score_item qe filter r =
    if passes filter r then
      match score_against qe (embedding r) with
      | inr x => inr (Some (mkScored (doc r) x))
      | inl e => inl e
      end
    else inr None.
Proof.
  unfold score_item, passes. destruct filter as [f|]; [|done].
  by destruct (matches f (doc r)).
Qed.

(** The records that reach the sort are the ones that pass, in order. *)
Lemma survivors_of_map (qe : list float) (filter : option (gmap string scalar))
    (items : list vrecord) (mapped : list (option scored)) :
  map_throwing (score_item qe filter) items = inr mapped →
  omap (λ item, item) mapped =
    map (λ r, mkScored (doc r) (similarity qe r)) (List.filter (passes filter) items).
Proof.
  revert mapped. induction items as [|r items IH]; intros mapped; simpl.
  - by intros [= <-].
  - rewrite score_item_cases.
    destruct (passes filter r).
    + destruct (score_against qe (embedding r)) as [e|x] eqn:E; [done|].
      destruct (map_throwing _ items) as [e|ys]; [done|].
      intros [= <-]. simpl. f_equal; [|by apply IH].
      unfold similarity. by rewrite E.
    + destruct (map_throwing _ items) as [e|ys]; [done|].
      intros [= <-]. simpl. by apply IH.
Qed.

(** C3 (as amended). The map step keeps exactly the records that pass: with
    no filter every record passes; with a filter a record passes if and
    only if, for every key and value of the filter, [metadata[key] === value].
    For a key the metadata has as a property of its own that is the strict
    equality of the two values.  A record that lacks the key passes for it
    only when the value asked for is [undefined] and the key is not the name
    of a member of [Object.prototype]: it is rejected whenever the value
    asked for is not [undefined], and whatever the value when the key is
    [toString], [constructor] or another inherited name, since
    [metadata[key]] is then the inherited member. *)
Theorem filter_semantics (qe : list float) (filter : option (gmap string scalar))
    (items : list vrecord) (mapped : list (option scored)) :
  map_throwing (score_item qe filter) items = inr mapped →
  map sdoc (omap (λ item, item) mapped) = map doc (List.filter (passes filter) items)
  ∧ (∀ r, score_item qe filter r = inr None ↔ passes filter r = false)
  ∧ (∀ r, passes None r = true)
  ∧ (∀ f r, passes (Some f) r = true ↔
            ∀ key val, f !! key = Some val →
                       match metadata (doc r) !! key with
                       | Some v => strict_eq v val = true
                       | None => val = Undefined ∧ key ∉ Object_prototype
                       end)
  ∧ (∀ f r key val, f !! key = Some val → val ≠ Undefined →
                    metadata (doc r) !! key = None → passes (Some f) r = false)
  ∧ (∀ f r key val, f !! key = Some val → key ∈ Object_prototype →
                    metadata (doc r) !! key = None → passes (Some f) r = false).
Proof.
  intros Hmap.
  assert (∀ f r, passes (Some f) r = true ↔
            ∀ key val, f !! key = Some val →
                       match metadata (doc r) !! key with
                       | Some v => strict_eq v val = true
                       | None => val = Undefined ∧ key ∉ Object_prototype
                       end) as Hiff.
  { intros f r. simpl. rewrite matches_spec.
    split; intros H key val Hk; apply strict_eq_member_cases, H, Hk. }
  split; [|split; [|split; [|split; [|split]]]].
  - rewrite (survivors_of_map _ _ _ _ Hmap), map_map. done.
  - intros r. rewrite score_item_cases. split.
    + destruct (passes filter r); [|done].
      by destruct (score_against qe (embedding r)).
    + by intros ->.
  - done.
  - exact Hiff.
  - intros f r key val Hk Hval Hmiss.
    destruct (passes (Some f) r) eqn:E; [|done]. exfalso.
    pose proof (proj1 (Hiff f r) E key val Hk) as H.
    rewrite Hmiss in H. by destruct H.
  - intros f r key val Hk Hkey Hmiss.
    destruct (passes (Some f) r) eqn:E; [|done]. exfalso.
    pose proof (proj1 (Hiff f r) E key val Hk) as H.
    rewrite Hmiss in H. by destruct H.
Qed.

Lemma filter_semantics_witness :
  let y2020 := mkRecord (mkDocument "a" {[ "year" := Scalar (Num 2020) ]}) (Some [1%float]) in
  let y2021 := mkRecord (mkDocument "b" {[ "year" := Scalar (Num 2021) ]}) (Some [1%float]) in
  let bare := mkRecord (mkDocument "c" ∅) (Some [1%float]) in
  let filter := Some ({[ "year" := Num 2020 ]} : gmap string scalar) in
  let inherited : gmap string scalar := {[ "toString" := Undefined ]} in
  (∃ mapped,
     map_throwing (score_item [1%float] filter) [y2020; y2021] = inr mapped
     ∧ map sdoc (omap (λ item, item) mapped) = [doc y2020])
  ∧ score_item [1%float] (Some inherited) bare = inr None.
Proof.
  intros y2020 y2021 bare filter inherited. split.
  - eexists. split; [vm_compute; reflexivity|].
    refine (eq_trans
      (proj1 (filter_semantics [1%float] filter [y2020; y2021] _ _)) _);
      vm_compute; reflexivity.
  - destruct (filter_semantics [1%float] (Some inherited) [bare] _ eq_refl)
      as (_ & Hnone & _ & _ & _ & Hinherited).
    apply Hnone.
    apply (Hinherited inherited bare "toString" Undefined).
    + reflexivity.
    + eapply bool_decide_eq_true_1. vm_compute. reflexivity.
    + reflexivity.
Defined.

(** A filter that asks for [undefined] lets through a record without the
    key. *)
Lemma filter_undefined_keeps_missing_key :
  let f : gmap string scalar := {[ "year" := Undefined ]} in
  let d := mkDocument "a letter without a year" ∅ in
  f !! "year" = Some Undefined
  ∧ metadata d !! "year" = None
  ∧ score_item [1%float] (Some f) (mkRecord d (Some [1%float]))
    = inr (Some (mkScored d 1%float)).
Proof. vm_compute. done. Qed.

(** ** Batches *)

Ltac blia := unfold BATCH_SIZE in *; lia.

Section Batches.

Variable embeddings : OpenAIEmbeddings.
Variable documents : list Document.

Abbreviation B := BATCH_SIZE.

Lemma map_doc_imap (f : nat → Document → vrecord) (l : list Document) :
  (∀ j d, doc (f j d) = d) → map doc (imap f l) = l.
Proof.
  revert f. induction l as [|d l IH]; intros f Hf; simpl; [done|].
  rewrite Hf. f_equal. apply IH. intros j d'. apply Hf.
Qed.

Lemma doc_embedded (batch : list Document) (answer : list (list float)) :
  map doc (embedded batch answer) = batch.
Proof. by apply map_doc_imap. Qed.

Lemma length_embedded (batch : list Document) (answer : list (list float)) :
  length (embedded batch answer) = length batch.
Proof. by rewrite <- (doc_embedded batch answer) at 2; rewrite length_map. Qed.

(** One turn of the loop. *)
Lemma loop_step (fuel i : nat) (s : state) :
  i < length documents →
  let batch := slice i (i + B) documents in
  let texts := map pageContent batch in
  let s1 := sent (EmbedDocuments texts) s in
  addDocuments_loop embeddings (S fuel) i documents s =
    match embedDocuments embeddings (requests s) texts with
    | inr answer =>
        addDocuments_loop embeddings fuel (i + B) documents
          (log (LogEmbedded (i + 1) (Nat.min (i + B) (length documents)))
               (set_docs (docs s1 ++ embedded batch answer) s1))
    | inl err => (Thrown err, log (ErrBatch (i / B + 1) err) s1)
    end.
Proof.
  intros Hi. simpl. rewrite decide_True by done.
  unfold call_embedDocuments, push. run_m.
  by destruct (embedDocuments embeddings (requests s) _).
Qed.

Lemma loop_done (fuel i : nat) (s : state) :
  length documents ≤ i →
  addDocuments_loop embeddings fuel i documents s = (Returned tt, s).
Proof.
  intros Hi. destruct fuel; simpl; [done|]. rewrite decide_False by lia. done.
Qed.

Lemma batches_succ (n j : nat) :
  j * B < n →
  S ((n - S j * B + (B - 1)) / B) = (n - j * B + (B - 1)) / B.
Proof.
  unfold BATCH_SIZE. intros Hlt.
  pose proof (Nat.div_mod_eq (n - S j * 50 + (50 - 1)) 50).
  pose proof (Nat.div_mod_eq (n - j * 50 + (50 - 1)) 50).
  pose proof (Nat.mod_upper_bound (n - S j * 50 + (50 - 1)) 50 ltac:(lia)).
  pose proof (Nat.mod_upper_bound (n - j * 50 + (50 - 1)) 50 ltac:(lia)).
  lia.
Qed.

Lemma slice_batch (j : nat) :
  slice (j * B) (j * B + B) documents = take B (drop (j * B) documents).
Proof. unfold slice. f_equal. lia. Qed.

Lemma seq_shift_app (j m : nat) (f : nat → request) (l : list request) :
  (l ++ [f j]) ++ map f (seq (S j) m) = l ++ map f (seq j (S m)).
Proof. by rewrite <- app_assoc. Qed.

(** The loop when every call is answered. *)
Lemma loop_ok (fuel : nat) : ∀ (j : nat) (s : state),
  length documents ≤ j * B + fuel →
  (∀ i, (j + i) * B < length documents →
        ∃ answer,
          embedDocuments embeddings
            (requests s ++ map (batch_request documents) (seq j i))
            (batch_texts documents (j + i)) = inr answer) →
  ∃ s' recs,
    addDocuments_loop embeddings fuel (j * B) documents s = (Returned tt, s')
    ∧ files s' = files s
    ∧ docs s' = docs s ++ recs
    ∧ map doc recs = drop (j * B) documents
    ∧ requests s' =
        requests s ++ map (batch_request documents)
                          (seq j ((length documents - j * B + (B - 1)) / B)).
Proof.
  induction fuel as [|fuel IH]; intros j s Hfuel Hans.
  - exists s, []. rewrite loop_done by lia.
    repeat split; try done.
    + by rewrite app_nil_r.
    + by rewrite drop_ge by lia.
    + replace (length documents - j * B) with 0 by lia.
      simpl. by rewrite app_nil_r.
  - destruct (decide (j * B < length documents)) as [Hlt|Hge].
    + rewrite loop_step by done.
      destruct (Hans 0) as [answer Ha]; [by rewrite Nat.add_0_r|].
      simpl in Ha. rewrite app_nil_r, Nat.add_0_r in Ha.
      unfold batch_texts in Ha. rewrite Ha.
      set (s1 := log _ _).
      destruct (IH (S j) s1) as (s' & recs & E & Hf & Hd & Hm & Hr).
      { blia. }
      { intros i Hi. destruct (Hans (S i)) as [ans Hans'].
        - replace (j + S i) with (S j + i) by lia. done.
        - exists ans. simpl requests.
          replace (S j + i) with (j + S i) by lia.
          rewrite <- Hans'. f_equal.
          apply (seq_shift_app j i (batch_request documents) (requests s)). }
      replace (j * B + B) with (S j * B) by blia.
      exists s', (embedded (slice (j * B) (j * B + B) documents) answer ++ recs).
      rewrite E. repeat split.
      * done.
      * rewrite Hd. simpl. by rewrite app_assoc.
      * rewrite map_app, doc_embedded, Hm, slice_batch.
        replace (S j * B) with (j * B + B) by blia.
        rewrite <- drop_drop. apply take_drop.
      * rewrite Hr. simpl requests.
        replace ((length documents - j * B + (B - 1)) / B)
          with (S ((length documents - S j * B + (B - 1)) / B)).
        { apply (seq_shift_app j _ (batch_request documents) (requests s)). }
        by apply batches_succ.
    + exists s, []. rewrite loop_done by lia.
      repeat split; try done.
      * by rewrite app_nil_r.
      * by rewrite drop_ge by lia.
      * replace (length documents - j * B) with 0 by lia.
        simpl. by rewrite app_nil_r.
Qed.

(** The loop when batch [j + m] is the first one that is rejected. *)
Lemma loop_fail (m : nat) : ∀ (fuel j : nat) (s : state) (err : exn),
  length documents ≤ j * B + fuel →
  (j + m) * B < length documents →
  (∀ i, i < m →
        ∃ answer,
          embedDocuments embeddings
            (requests s ++ map (batch_request documents) (seq j i))
            (batch_texts documents (j + i)) = inr answer) →
  embedDocuments embeddings
    (requests s ++ map (batch_request documents) (seq j m))
    (batch_texts documents (j + m)) = inl err →
  ∃ s' recs,
    addDocuments_loop embeddings fuel (j * B) documents s = (Thrown err, s')
    ∧ files s' = files s
    ∧ docs s' = docs s ++ recs
    ∧ map doc recs = take (m * B) (drop (j * B) documents)
    ∧ requests s' =
        requests s ++ map (batch_request documents) (seq j (S m)).
Proof.
  induction m as [|m IH]; intros fuel j s err Hfuel Hlt Hans Herr.
  - destruct fuel as [|fuel]; [blia|].
    rewrite Nat.add_0_r in *. rewrite loop_step by done.
    simpl in Herr. rewrite app_nil_r in Herr.
    unfold batch_texts in Herr. rewrite Herr.
    eexists _, []. split; [reflexivity|]. simpl. repeat split.
    by rewrite app_nil_r.
  - destruct fuel as [|fuel]; [blia|].
    assert (j * B < length documents) as Hj by blia.
    rewrite loop_step by done.
    destruct (Hans 0) as [answer Ha]; [lia|].
    simpl in Ha. rewrite app_nil_r, Nat.add_0_r in Ha.
    unfold batch_texts in Ha. rewrite Ha.
    set (s1 := log _ _).
    destruct (IH fuel (S j) s1 err) as (s' & recs & E & Hf & Hd & Hm & Hr).
    { blia. }
    { replace (S j + m) with (j + S m) by lia. done. }
    { intros i Hi. destruct (Hans (S i)) as [ans Hans']; [lia|].
      exists ans. simpl requests.
      replace (S j + i) with (j + S i) by lia.
      rewrite <- Hans'. f_equal.
      apply (seq_shift_app j i (batch_request documents) (requests s)). }
    { simpl requests. replace (S j + m) with (j + S m) by lia.
      rewrite <- Herr. f_equal.
      apply (seq_shift_app j m (batch_request documents) (requests s)). }
    replace (j * B + B) with (S j * B) by blia.
    exists s', (embedded (slice (j * B) (j * B + B) documents) answer ++ recs).
    rewrite E. repeat split.
    + done.
    + rewrite Hd. simpl. by rewrite app_assoc.
    + rewrite map_app, doc_embedded, Hm, slice_batch.
      replace (S j * B) with (j * B + B) by blia.
      rewrite <- drop_drop.
      replace (S m * B) with (B + m * B) by blia.
      by rewrite take_take_drop.
    + rewrite Hr. simpl requests.
      apply (seq_shift_app j _ (batch_request documents) (requests s)).
Qed.

End Batches.

(** ** Adding documents *)

Section Adding.

Variable embeddings : OpenAIEmbeddings.

Abbreviation B := BATCH_SIZE.

(** Whatever the provider does, the loop only appends records and leaves the
    files alone; when it returns, it has appended one record per document
    left, in order. *)
Lemma loop_appends (documents : list Document) (fuel : nat) :
  ∀ (j : nat) (s : state),
  ∃ recs,
    docs (addDocuments_loop embeddings fuel (j * B) documents s).2 = docs s ++ recs
    ∧ files (addDocuments_loop embeddings fuel (j * B) documents s).2 = files s
    ∧ (addDocuments_loop embeddings fuel (j * B) documents s).1 ≠ IllTyped
    ∧ ((addDocuments_loop embeddings fuel (j * B) documents s).1 = Returned tt →
       length documents ≤ j * B + fuel →
       map doc recs = drop (j * B) documents).
Proof.
  induction fuel as [|fuel IH]; intros j s.
  - exists []. simpl. rewrite app_nil_r. repeat split; try done.
    intros _ H. by rewrite drop_ge by lia.
  - destruct (decide (j * B < length documents)) as [Hlt|Hge].
    + rewrite loop_step by done.
      destruct (embedDocuments embeddings (requests s) _) as [err|answer].
      * exists []. simpl. rewrite app_nil_r. done.
      * set (s1 := log _ _).
        replace (j * B + B) with (S j * B) by blia.
        destruct (IH (S j) s1) as (recs & Hd & Hf & Hi & Hm).
        exists (embedded (slice (j * B) (j * B + B) documents) answer ++ recs).
        rewrite Hd, Hf. unfold s1 at 1 2. cbn [docs files log set_docs sent].
        rewrite app_assoc.
        repeat split; try done.
        intros Hr Hfuel.
        rewrite map_app, doc_embedded, Hm, slice_batch by (done || blia).
        replace (S j * B) with (j * B + B) by blia.
        rewrite <- drop_drop. apply take_drop.
    + exists []. rewrite loop_done by lia. simpl. rewrite app_nil_r.
      repeat split; try done. intros _ _. by rewrite drop_ge by lia.
Qed.

Lemma addDocuments_appends (documents : list Document) (s : state) :
  ∃ recs,
    docs (SimpleMemoryVectorStore.addDocuments embeddings documents s).2
      = docs s ++ recs
    ∧ files (SimpleMemoryVectorStore.addDocuments embeddings documents s).2
      = files s
    ∧ (SimpleMemoryVectorStore.addDocuments embeddings documents s).1 ≠ IllTyped
    ∧ ((SimpleMemoryVectorStore.addDocuments embeddings documents s).1
         = Returned tt →
       map doc recs = documents).
Proof.
  unfold SimpleMemoryVectorStore.addDocuments.
  destruct (decide (length documents = 0)) as [H0|Hn].
  - exists []. simpl. rewrite app_nil_r. repeat split; try done.
    intros _. symmetry. by apply nil_length_inv.
  - destruct (loop_appends documents (length documents) 0 s)
      as (recs & Hd & Hf & Hi & Hm).
    exists recs. repeat split; try done.
    intros Hr. rewrite Hm by (done || lia). done.
Qed.

Lemma addDocuments_ok (documents : list Document) (s : state) :
  (∀ j, j * B < length documents →
        ∃ answer,
          embedDocuments embeddings (history_at s documents j)
                         (batch_texts documents j) = inr answer) →
  ∃ s' recs,
    SimpleMemoryVectorStore.addDocuments embeddings documents s = (Returned tt, s')
    ∧ files s' = files s
    ∧ docs s' = docs s ++ recs
    ∧ map doc recs = documents
    ∧ requests s' = history_at s documents ((length documents + (B - 1)) / B).
Proof.
  intros Hans. unfold SimpleMemoryVectorStore.addDocuments.
  destruct (decide (length documents = 0)) as [H0|Hn].
  - exists s, []. rewrite H0. unfold history_at. simpl.
    rewrite !app_nil_r. repeat split; try done.
    symmetry. by apply nil_length_inv.
  - destruct (loop_ok embeddings documents (length documents) 0 s)
      as (s' & recs & E & Hf & Hd & Hm & Hr); [lia|exact Hans|].
    exists s', recs. simpl in *. rewrite Nat.sub_0_r in Hr. done.
Qed.

Lemma addDocuments_fail (documents : list Document) (s : state) (m : nat) (err : exn) :
  m * B < length documents →
  (∀ i, i < m →
        ∃ answer,
          embedDocuments embeddings (history_at s documents i)
                         (batch_texts documents i) = inr answer) →
  embedDocuments embeddings (history_at s documents m)
                 (batch_texts documents m) = inl err →
  ∃ s' recs,
    SimpleMemoryVectorStore.addDocuments embeddings documents s = (Thrown err, s')
    ∧ files s' = files s
    ∧ docs s' = docs s ++ recs
    ∧ map doc recs = take (m * B) documents
    ∧ requests s' = history_at s documents (S m).
Proof.
  intros Hm Hans Herr. unfold SimpleMemoryVectorStore.addDocuments.
  rewrite decide_False by lia.
  destruct (loop_fail embeddings documents m (length documents) 0 s err)
    as (s' & recs & E & Hf & Hd & Hmap & Hr); try done; try lia.
  exists s', recs. done.
Qed.

(** The records the loop has pushed when batch [j + m] is the first one
    rejected: the record at position [t] among them holds vector [t mod 50]
    of the provider's answer to batch [j + t / 50]. *)
Lemma loop_fail_records (documents : list Document) (m : nat) :
  ∀ (fuel j : nat) (s : state) (err : exn),
  length documents ≤ j * B + fuel →
  (j + m) * B < length documents →
  (∀ i, i < m →
        ∃ answer,
          embedDocuments embeddings
            (requests s ++ map (batch_request documents) (seq j i))
            (batch_texts documents (j + i)) = inr answer) →
  embedDocuments embeddings
    (requests s ++ map (batch_request documents) (seq j m))
    (batch_texts documents (j + m)) = inl err →
  ∀ t r,
    docs (addDocuments_loop embeddings fuel (j * B) documents s).2
      !! (length (docs s) + t) = Some r →
    ∃ answer,
      embedDocuments embeddings
        (requests s ++ map (batch_request documents) (seq j (t / B)))
        (batch_texts documents (j + t / B)) = inr answer
      ∧ embedding r = answer !! (t mod B).
Proof.
  induction m as [|m IH]; intros fuel j s err Hfuel Hlt Hans Herr t r Ht.
  - destruct fuel as [|fuel]; [blia|].
    rewrite Nat.add_0_r in *. rewrite loop_step in Ht by done.
    simpl in Herr. rewrite app_nil_r in Herr.
    unfold batch_texts in Herr. rewrite Herr in Ht. simpl in Ht.
    apply lookup_lt_Some in Ht. lia.
  - destruct fuel as [|fuel]; [blia|].
    assert (j * B < length documents) as Hj by blia.
    rewrite loop_step in Ht by done.
    destruct (Hans 0) as [answer Ha]; [lia|].
    simpl in Ha. rewrite app_nil_r, Nat.add_0_r in Ha.
    pose proof Ha as Ha'.
    unfold batch_texts in Ha. rewrite Ha in Ht.
    set (batch := slice (j * B) (j * B + B) documents) in *.
    set (s1 := log _ _) in Ht.
    assert (length batch = B) as Hbatch.
    { unfold batch, slice. rewrite length_take, length_drop. blia. }
    assert (docs s1 = docs s ++ embedded batch answer) as Hs1 by done.
    replace (j * B + B) with (S j * B) in Ht by blia.
    destruct (loop_appends documents fuel (S j) s1) as (recs & Hd & _).
    rewrite Hd, Hs1 in Ht.
    destruct (Nat.lt_ge_cases t B) as [Hsmall|Hlarge].
    + rewrite <- app_assoc, lookup_app_r in Ht by lia.
      replace (length (docs s) + t - length (docs s)) with t in Ht by lia.
      rewrite lookup_app_l in Ht by (rewrite length_embedded; lia).
      unfold embedded in Ht. rewrite list_lookup_imap in Ht.
      destruct (batch !! t) as [d|]; simpl in Ht; [|done].
      injection Ht as <-. cbn [embedding].
      rewrite Nat.div_small, Nat.mod_small by done.
      exists answer. simpl. rewrite app_nil_r, Nat.add_0_r. done.
    + destruct (IH fuel (S j) s1 err) with (t := t - B) (r := r)
        as (ans & Hans' & Hemb).
      { blia. }
      { replace (S j + m) with (j + S m) by lia. done. }
      { intros i Hi. destruct (Hans (S i)) as [ans Hans']; [lia|].
        exists ans. simpl requests.
        replace (S j + i) with (j + S i) by lia.
        rewrite <- Hans'. f_equal.
        apply (seq_shift_app j i (batch_request documents) (requests s)). }
      { simpl requests. replace (S j + m) with (j + S m) by lia.
        rewrite <- Herr. f_equal.
        apply (seq_shift_app j m (batch_request documents) (requests s)). }
      { rewrite Hd, Hs1, <- Ht. f_equal.
        rewrite length_app, length_embedded. lia. }
      assert (t / B = S ((t - B) / B)) as Hdiv.
      { replace t with (t - B + 1 * B) at 1 by lia.
        rewrite Nat.div_add by (unfold BATCH_SIZE; lia). lia. }
      assert (t mod B = (t - B) mod B) as Hmod.
      { replace t with (t - B + 1 * B) at 1 by lia.
        apply Nat.Div0.mod_add. }
      exists ans. rewrite Hdiv, Hmod. split; [|done].
      rewrite <- Hans'. simpl requests.
      replace (j + S ((t - B) / B)) with (S j + (t - B) / B) by lia.
      f_equal. symmetry.
      apply (seq_shift_app j _ (batch_request documents) (requests s)).
Qed.

Lemma addDocuments_fail_records (documents : list Document) (s s' : state)
    (recs : list vrecord) (m : nat) (err : exn) :
  m * B < length documents →
  (∀ i, i < m →
        ∃ answer,
          embedDocuments embeddings (history_at s documents i)
                         (batch_texts documents i) = inr answer) →
  embedDocuments embeddings (history_at s documents m)
                 (batch_texts documents m) = inl err →
  SimpleMemoryVectorStore.addDocuments embeddings documents s = (Thrown err, s') →
  docs s' = docs s ++ recs →
  ∀ t r, recs !! t = Some r →
    ∃ answer,
      embedDocuments embeddings (history_at s documents (t / B))
                     (batch_texts documents (t / B)) = inr answer
      ∧ embedding r = answer !! (t mod B).
Proof.
  intros Hm Hans Herr E Hd t r Ht.
  unfold SimpleMemoryVectorStore.addDocuments in E.
  rewrite decide_False in E by lia.
  apply (loop_fail_records documents m (length documents) 0 s err);
    [lia|done|exact Hans|exact Herr|].
  simpl. rewrite E. simpl. rewrite Hd.
  rewrite lookup_app_r by lia.
  by replace (length (docs s) + t - length (docs s)) with t by lia.
Qed.

(** C6. When the provider answers every call, [addDocuments] on [n]
    documents sends one request per slice of 50 documents, one after the
    other, [ceil(n / 50)] in all, and appends [n] records that hold the
    documents in input order.  For 120 documents these are three requests,
    of 50, 50 and 20 texts. *)
Theorem addDocuments_batches (documents : list Document) (s : state) :
  (∀ j, j * BATCH_SIZE < length documents →
        ∃ answer,
          embedDocuments embeddings (history_at s documents j)
                         (batch_texts documents j) = inr answer) →
  ∃ s' recs,
    SimpleMemoryVectorStore.addDocuments embeddings documents s = (Returned tt, s')
    ∧ docs s' = docs s ++ recs
    ∧ map doc recs = documents
    ∧ length recs = length documents
    ∧ requests s' =
        requests s ++ map (batch_request documents)
                          (seq 0 ((length documents + 49) / 50))
    ∧ (length documents = 120 →
       ∃ t1 t2 t3,
         requests s' =
           requests s ++ [EmbedDocuments t1; EmbedDocuments t2; EmbedDocuments t3]
         ∧ length t1 = 50 ∧ length t2 = 50 ∧ length t3 = 20).
Proof.
  intros Hans.
  destruct (addDocuments_ok documents s Hans) as (s' & recs & E & Hf & Hd & Hm & Hr).
  exists s', recs. repeat split; try done.
  - by rewrite <- (length_map doc), Hm.
  - intros H120. rewrite Hr. unfold history_at. rewrite H120.
    change ((120 + (B - 1)) / B) with 3. simpl.
    eexists _, _, _. split; [reflexivity|].
    unfold batch_texts, slice. rewrite !length_map, !length_take, !length_drop.
    rewrite H120. unfold BATCH_SIZE. simpl. lia.
Qed.

End Adding.

Lemma addDocuments_batches_witness :
  let documents := replicate 120 (mkDocument "letter" ∅) in
  ∃ s',
    SimpleMemoryVectorStore.addDocuments steady documents empty_state
      = (Returned tt, s')
    ∧ length (docs s') = 120
    ∧ map (λ r, match r with EmbedDocuments t => length t | _ => 0 end)
          (requests s') = [50; 50; 20].
Proof.
  intros documents.
  destruct (addDocuments_batches steady documents empty_state)
    as (s' & recs & E & Hd & _ & Hl & _ & H120).
  - intros j _. eexists. reflexivity.
  - exists s'. split; [exact E|]. split.
    + rewrite Hd. exact Hl.
    + destruct (H120 eq_refl) as (t1 & t2 & t3 & Hr & H1 & H2 & H3).
      rewrite Hr. simpl. by rewrite H1, H2, H3.
Defined.

(** ** Default chunk index *)

Lemma chunk_lookup (i : nat) (d : BerkshireDocument) :
  let md := default ∅ (bd_metadata d) in
  pageContent (BerkshireVectorStore.chunk i d) = content d
  ∧ (nullish (get_prop md "chunkIndex") = true →
     metadata (BerkshireVectorStore.chunk i d) !! "chunkIndex"
       = Some (Scalar (Num (float_of_nat i))))
  ∧ (nullish (get_prop md "chunkIndex") = false →
     metadata (BerkshireVectorStore.chunk i d) !! "chunkIndex"
       = md !! "chunkIndex")
  ∧ (∀ key, key ≠ "chunkIndex" →
     metadata (BerkshireVectorStore.chunk i d) !! key = md !! key).
Proof.
  intros md. unfold BerkshireVectorStore.chunk. fold md. simpl.
  unfold nullish_coalesce. repeat split.
  - intros ->. apply lookup_insert_eq.
  - intros Hn. rewrite Hn, lookup_insert_eq. unfold get_prop in *.
    destruct (md !! "chunkIndex"); [done|]. discriminate.
  - intros key Hk. by rewrite lookup_insert_ne.
Qed.

(** C7. The facade's [addDocuments] turns the document at position [i]
    into a chunk with the same text whose [chunkIndex] is [i] when the
    document brings none ([doc.metadata?.chunkIndex] is [undefined] or
    [null]) and is the document's own otherwise; every other metadata key is
    carried over as it is.  These chunks are what a successful call appends
    to the index, so three documents without [chunkIndex] give records with
    0, 1 and 2. *)
Theorem addDocuments_chunkIndex (embeddings : OpenAIEmbeddings)
    (documents : list BerkshireDocument) (s : state) :
  let chunks := imap BerkshireVectorStore.chunk documents in
  (∀ i d, documents !! i = Some d →
     let md := default ∅ (bd_metadata d) in
     ∃ c, chunks !! i = Some c
       ∧ pageContent c = content d
       ∧ (nullish (get_prop md "chunkIndex") = true →
          metadata c !! "chunkIndex" = Some (Scalar (Num (float_of_nat i))))
       ∧ (nullish (get_prop md "chunkIndex") = false →
          metadata c !! "chunkIndex" = md !! "chunkIndex")
       ∧ (∀ key, key ≠ "chunkIndex" → metadata c !! key = md !! key))
  ∧ (∀ s', BerkshireVectorStore.addDocuments embeddings documents s
             = (Returned tt, s') →
       ∃ recs, docs s' = docs s ++ recs ∧ map doc recs = chunks)
  ∧ (∀ a b c,
       map (λ r, metadata r !! "chunkIndex")
           (imap BerkshireVectorStore.chunk [plain a; plain b; plain c])
       = [Some (Scalar (Num 0)); Some (Scalar (Num 1)); Some (Scalar (Num 2))]).
Proof.
  intros chunks. repeat split.
  - intros i d Hd md. exists (BerkshireVectorStore.chunk i d).
    split; [unfold chunks; by rewrite list_lookup_imap, Hd|].
    apply chunk_lookup.
  - intros s' Hs'. unfold BerkshireVectorStore.addDocuments in Hs'. run_m.
    fold chunks in Hs'.
    destruct (addDocuments_appends embeddings chunks
                (log (LogAdding (length documents)) s))
      as (recs & Hd & _ & _ & Hm).
    destruct (SimpleMemoryVectorStore.addDocuments embeddings chunks _)
      as [[[]|e|] s1]; simpl in *; try discriminate.
    injection Hs' as <-. simpl. exists recs. split; [done|]. by apply Hm.
Qed.

Lemma addDocuments_chunkIndex_witness :
  let documents := [plain "a"; plain "b"; plain "c"] in
  let result := BerkshireVectorStore.addDocuments steady documents empty_state in
  result.1 = Returned tt
  ∧ map (λ r, metadata (doc r) !! "chunkIndex") (docs result.2)
    = [Some (Scalar (Num 0)); Some (Scalar (Num 1)); Some (Scalar (Num 2))].
Proof.
  intros documents result.
  assert (result = (Returned tt, result.2)) as E by (vm_compute; reflexivity).
  split; [by rewrite E|].
  destruct (addDocuments_chunkIndex steady documents empty_state) as (_ & H & H3).
  destruct (H _ E) as (recs & Hd & Hm).
  rewrite Hd, <- (H3 "a" "b" "c"). simpl app.
  rewrite <- (map_map doc (λ c, metadata c !! "chunkIndex")), Hm. reflexivity.
Defined.

(** ** Snapshots *)


















(** ** Cosine similarity *)

Section SumsOfSquares.
#[local] Open Scope Z_scope.

Lemma SFadd_weight (x y : spec_float) :
  valid_binary x = true → valid_binary y = true →
  SFnonneg x = true → SFnonneg y = true →
  SFis_nan x = false → SFis_nan y = false →
  SFis_nan (SFadd prec emax x y) = false
  ∧ (SFzero_or_nan x = false ∨ SFzero_or_nan y = false →
     SFzero_or_nan (SFadd prec emax x y) = false).
Proof.
  intros Vx Vy Hx Hy Nx Ny.
  destruct x as [[]|[]| |[] mx ex], y as [[]|[]| |[] my ey];
    try discriminate; try (split; [reflexivity|]; try reflexivity;
                           intros [?|?]; discriminate).
  simpl in Vx, Vy.
  destruct (bounded_inv _ _ Vx) as ([? ?] & _ & _).
  destruct (bounded_inv _ _ Vy) as ([? ?] & _ & _).
  unfold SFadd, cond_Zopp, binary_normalize.
  set (p := Zpos _ + Zpos _). assert (0 < p) as Hp by (unfold p; lia).
  destruct p as [|p|p]; try lia.
  by destruct (binary_round_sign false p (Z.min ex ey) ltac:(lia))
    as [(m' & e' & ->)| ->].
Qed.

Lemma SFmul_self_not_nan (x : spec_float) :
  SFis_nan x = false → SFis_nan (SFmul prec emax x x) = false.
Proof.
  destruct x as [[]|[]| |s m e]; try discriminate; try reflexivity.
  intros _. unfold SFmul.
  pose proof (binary_round_aux_nonneg (xorb s s) (Zpos (m * m)) (e + e) loc_Exact
                ltac:(lia)) as H.
  by destruct (binary_round_aux _ _ _ _ _ _).
Qed.

End SumsOfSquares.

Section Cosine.
#[local] Open Scope float_scope.

(** The loop computes the three sums of the formula. *)
Lemma cosine_sums_spec (a : list float) : ∀ (b : list float) (d na nb : float),
  length a = length b →
  cosine_sums a b (d, na, nb) =
    (foldl (λ acc xy, acc + xy.1 * xy.2) d (zip a b),
     foldl (λ acc x, acc + x * x) na a,
     foldl (λ acc x, acc + x * x) nb b).
Proof.
  induction a as [|x a IH]; intros [|y b] d na nb Hlen; try discriminate.
  - reflexivity.
  - simpl. apply IH. by injection Hlen.
Qed.

Lemma cosineSimilarity_formula (q e : list float) :
  length q = length e → cosineSimilarity q e = cosine_formula q e.
Proof.
  intros Hlen. unfold cosineSimilarity, cosine_formula, dot, norm, squared_norm.
  by rewrite cosine_sums_spec.
Qed.

Lemma cosineSimilarity_self (v : list float) :
  cosineSimilarity v v =
    squared_norm v / (sqrt (squared_norm v) * sqrt (squared_norm v)).
Proof.
  rewrite cosineSimilarity_formula by done.
  unfold cosine_formula, norm. f_equal.
  unfold dot, squared_norm. generalize 0.
  induction v as [|x v IH]; intros acc; simpl; [done|]. apply IH.
Qed.

(** When one of the vectors is all zeros, [dot] and that vector's squared
    norm stay among the zeros and [NaN]. *)
Lemma cosine_sums_zero_a (a : list float) : ∀ (b : list float) (d na nb : float),
  forallb is_zero a = true →
  zero_or_nan d = true → zero_or_nan na = true →
  zero_or_nan (cosine_sums a b (d, na, nb)).1.1 = true
  ∧ zero_or_nan (cosine_sums a b (d, na, nb)).1.2 = true.
Proof.
  induction a as [|x a IH]; intros b d na nb Ha Hd Hna; simpl; [done|].
  simpl in Ha. apply andb_true_iff in Ha as [Hx Ha].
  apply is_zero_zero_or_nan in Hx.
  apply IH; [done| |]; apply zero_or_nan_add; try done;
    by apply zero_or_nan_mul_l.
Qed.

Lemma cosine_sums_zero_b (a : list float) : ∀ (b : list float) (d na nb : float),
  forallb is_zero b = true →
  zero_or_nan d = true → zero_or_nan nb = true →
  zero_or_nan (cosine_sums a b (d, na, nb)).1.1 = true
  ∧ zero_or_nan (cosine_sums a b (d, na, nb)).2 = true.
Proof.
  induction a as [|x a IH]; intros b d na nb Hb Hd Hnb; simpl; [done|].
  assert (zero_or_nan (hd nan b) = true ∧ forallb is_zero (tl b) = true)
    as [Hy Hb'].
  { destruct b as [|y b]; simpl in *; [done|].
    apply andb_true_iff in Hb as [Hy Hb]. by apply is_zero_zero_or_nan in Hy. }
  apply IH; [done| |]; apply zero_or_nan_add; try done;
    by apply zero_or_nan_mul_r.
Qed.

Lemma cosine_sums_nonneg (a : list float) : ∀ (b : list float) (d na nb : float),
  nonneg na = true → nonneg nb = true →
  nonneg (cosine_sums a b (d, na, nb)).1.2 = true
  ∧ nonneg (cosine_sums a b (d, na, nb)).2 = true.
Proof.
  induction a as [|x a IH]; intros b d na nb Hna Hnb; simpl; [done|].
  apply IH; apply nonneg_add; auto using nonneg_mul_self.
Qed.

(** The divisor is a nonzero number exactly when both sums of squares are. *)
Lemma denominator_not_zero (a b : list float) :
  zero_or_nan (denominator a b) = false ↔
  zero_or_nan (cosine_sums a b (0, 0, 0)).1.2 = false
  ∧ zero_or_nan (cosine_sums a b (0, 0, 0)).2 = false.
Proof.
  unfold denominator.
  destruct (cosine_sums_nonneg a b 0 0 0 eq_refl eq_refl) as [Ha Hb].
  destruct (cosine_sums a b (0, 0, 0)) as [[d na] nb]. simpl in *. split.
  - intros H. split.
    + destruct (zero_or_nan na) eqn:E; [|done].
      by rewrite zero_or_nan_mul_l in H by by apply zero_or_nan_sqrt.
    + destruct (zero_or_nan nb) eqn:E; [|done].
      by rewrite zero_or_nan_mul_r in H by by apply zero_or_nan_sqrt.
  - intros [Hza Hzb]. by apply sqrt_mul_not_zero.
Qed.

Lemma zero_or_nan_cases (x : float) : zero_or_nan x = is_zero x || is_nan x.
Proof.
  rewrite is_zero_spec, is_nan_spec. unfold zero_or_nan.
  by destruct (Prim2SF x).
Qed.

Lemma mul_self_not_nan (x : float) : is_nan x = false → is_nan (x * x) = false.
Proof. rewrite !is_nan_spec, mul_spec. apply SFmul_self_not_nan. Qed.

Lemma add_weight (x y : float) :
  nonneg x = true → nonneg y = true → is_nan x = false → is_nan y = false →
  is_nan (x + y) = false
  ∧ (zero_or_nan x = false ∨ zero_or_nan y = false → zero_or_nan (x + y) = false).
Proof.
  unfold nonneg, zero_or_nan. rewrite !is_nan_spec, add_spec.
  apply SFadd_weight; apply Prim2SF_valid.
Qed.

(** Summing squares of numbers gives a number, and not zero once one of the
    squares is not zero. *)
Lemma sum_of_squares_weight (v : list float) : ∀ acc : float,
  nonneg acc = true → is_nan acc = false →
  forallb (λ x, negb (is_nan x)) v = true →
  let n := foldl (λ acc x, acc + x * x) acc v in
  is_nan n = false
  ∧ (zero_or_nan acc = false ∨ existsb (λ x, negb (is_zero (x * x))) v = true →
     zero_or_nan n = false).
Proof.
  induction v as [|x v IH]; intros acc Hacc Nacc Hv; simpl.
  - split; [done|]. by intros [?|?].
  - simpl in Hv. apply andb_true_iff in Hv as [Hx Hv].
    apply negb_true_iff in Hx.
    pose proof (mul_self_not_nan x Hx) as Nxx.
    destruct (add_weight acc (x * x) Hacc (nonneg_mul_self x) Nacc Nxx)
      as [Nsum Zsum].
    destruct (IH (acc + x * x) (nonneg_add _ _ Hacc (nonneg_mul_self x)) Nsum Hv)
      as [Nn Zn].
    split; [done|]. intros H. apply Zn.
    destruct H as [H|H]; [left; apply Zsum; by left|].
    apply orb_true_iff in H as [H|H]; [|by right].
    left. apply Zsum. right.
    rewrite zero_or_nan_cases, Nxx, orb_false_r. by apply negb_true_iff.
Qed.

Lemma squared_norm_weight (v : list float) :
  weighty v = true → zero_or_nan (squared_norm v) = false.
Proof.
  unfold weighty. intros [Hn He]%andb_true_iff.
  apply (sum_of_squares_weight v 0 eq_refl eq_refl Hn). by right.
Qed.

(** C10 (as amended). The division in [cosineSimilarity] has no guard.
    For vectors of the same length its divisor is a nonzero number exactly
    when the computed squared norms of both are nonzero numbers, so with
    such vectors the division by zero is out of reach: in particular with
    vectors of numbers that each have a component whose square is not zero.
    When the query embedding or the stored embedding is all zeros, the
    divisor is zero (or [NaN]) and the score is [NaN]; it is returned like
    any other score, nothing is thrown. *)
Theorem cosine_division (a b : list float) :
  (length a = length b →
   (zero_or_nan (denominator a b) = false ↔
    zero_or_nan (squared_norm a) = false ∧ zero_or_nan (squared_norm b) = false))
  ∧ (length a = length b → weighty a = true → weighty b = true →
     zero_or_nan (denominator a b) = false)
  ∧ (forallb is_zero a = true ∨ forallb is_zero b = true →
     zero_or_nan (denominator a b) = true
     ∧ cosineSimilarity a b = nan
     ∧ score_against a (Some b) = inr nan).
Proof.
  split.
  { intros Hlen. rewrite denominator_not_zero.
    by rewrite cosine_sums_spec. }
  split.
  { intros Hlen Ha Hb. rewrite denominator_not_zero.
    rewrite cosine_sums_spec by done. simpl.
    split; by apply squared_norm_weight. }
  intros H.
  assert (zero_or_nan (cosine_sums a b (0, 0, 0)).1.1 = true
          ∧ zero_or_nan (denominator a b) = true) as [Hdot Hden].
  { unfold denominator. destruct H as [Ha|Hb].
    - destruct (cosine_sums_zero_a a b 0 0 0 Ha eq_refl eq_refl) as [H1 H2].
      destruct (cosine_sums a b (0, 0, 0)) as [[d na] nb]. simpl in *.
      split; [done|]. by apply zero_or_nan_mul_l, zero_or_nan_sqrt.
    - destruct (cosine_sums_zero_b a b 0 0 0 Hb eq_refl eq_refl) as [H1 H2].
      destruct (cosine_sums a b (0, 0, 0)) as [[d na] nb]. simpl in *.
      split; [done|]. by apply zero_or_nan_mul_r, zero_or_nan_sqrt. }
  assert (cosineSimilarity a b = nan) as Hnan.
  { unfold cosineSimilarity, denominator in *.
    destruct (cosine_sums a b (0, 0, 0)) as [[d na] nb]. simpl in *.
    by apply zero_or_nan_div. }
  repeat split; try done. simpl. by rewrite Hnan.
Qed.

Lemma squared_norm_nonneg (v : list float) : nonneg (squared_norm v) = true.
Proof.
  unfold squared_norm. assert (nonneg 0 = true) as H by reflexivity.
  revert H. generalize 0. induction v as [|x v IH]; intros acc Hacc; simpl; [done|].
  apply IH, nonneg_add; auto using nonneg_mul_self.
Qed.

(** C9 (as amended). For vectors of the same length the score is
    [dot(q, e) / (‖q‖ · ‖e‖)], evaluated in binary64 with the norms as
    computed (nothing is taken to be 1).  A vector against itself scores
    [n / (√n · √n)] for its computed squared norm [n]: within [2^-50] of 1
    when [n] lies between [2^-1000] and [2^1000], and exactly 1 when [n] is
    a finite nonzero number with [√n · √n = n], as for a unit vector.  Two
    vectors whose computed dot product is zero score zero, provided their
    computed squared norms are nonzero numbers. *)
Theorem cosine_score (q e : list float) :
  (length q = length e → cosineSimilarity q e = cosine_formula q e)
  ∧ cosineSimilarity q q =
      squared_norm q / (sqrt (squared_norm q) * sqrt (squared_norm q))
  ∧ ((0x1p-1000 <=? squared_norm q) = true →
     (squared_norm q <=? 0x1p1000) = true →
     (1 - 0x1p-50 <=? cosineSimilarity q q) = true
     ∧ (cosineSimilarity q q <=? 1 + 0x1p-50) = true)
  ∧ (is_finite (squared_norm q) = true → is_zero (squared_norm q) = false →
     sqrt (squared_norm q) * sqrt (squared_norm q) = squared_norm q →
     cosineSimilarity q q = 1)
  ∧ (length q = length e → is_zero (dot q e) = true →
     zero_or_nan (squared_norm q) = false →
     zero_or_nan (squared_norm e) = false →
     is_zero (cosineSimilarity q e) = true).
Proof.
  repeat split.
  - apply cosineSimilarity_formula.
  - apply cosineSimilarity_self.
  - rewrite cosineSimilarity_self. by apply self_ratio_close.
  - rewrite cosineSimilarity_self. by apply self_ratio_close.
  - intros Hfin Hnz Hsq. rewrite cosineSimilarity_self, Hsq.
    by apply div_self.
  - intros Hlen Hdot Hq He. rewrite cosineSimilarity_formula by done.
    apply zero_div; [done|].
    apply sqrt_mul_not_zero; auto using squared_norm_nonneg.
Qed.

End Cosine.

Lemma cosine_score_witness :
  cosineSimilarity [0.5; 0.75]%float [0.75; -0.5]%float = cosine_formula [0.5; 0.75]%float [0.75; -0.5]%float
  ∧ ((1 - 0x1p-50 <=? cosineSimilarity [0.5; 0.75] [0.5; 0.75])%float = true
     ∧ (cosineSimilarity [0.5; 0.75] [0.5; 0.75] <=? 1 + 0x1p-50)%float = true)
  ∧ cosineSimilarity [0; 1]%float [0; 1]%float = 1%float
  ∧ is_zero (cosineSimilarity [1; 0]%float [0; 1]%float) = true.
Proof.
  split; [|split; [|split]].
  - apply (proj1 (cosine_score [0.5; 0.75]%float [0.75; -0.5]%float)). reflexivity.
  - apply (proj1 (proj2 (proj2 (cosine_score [0.5; 0.75]%float []))));
      reflexivity.
  - apply (proj1 (proj2 (proj2 (proj2 (cosine_score [0; 1]%float [])))));
      reflexivity.
  - apply (proj2 (proj2 (proj2 (proj2 (cosine_score [1; 0]%float [0; 1]%float)))));
      reflexivity.
Defined.

(** Two identical vectors whose squared norm overflows score [NaN], and a
    stored embedding longer than the query is only read up to the query's
    length. *)
Lemma cosine_of_large_vector_is_nan :
  let v := [0x1p600%float] in
  forallb is_zero v = false
  ∧ cosineSimilarity v v = nan
  ∧ cosineSimilarity [1%float] [1; 1]%float = 1%float
  ∧ cosine_formula [1%float] [1; 1]%float = 0x1.6a09e667f3bccp-1%float.
Proof. vm_compute. done. Qed.

Lemma cosine_division_witness :
  cosineSimilarity [0; 0]%float [0.5; 0.25]%float = nan
  ∧ zero_or_nan (denominator [3; 4]%float [0.5; 0.25]%float) = false
  ∧ zero_or_nan (denominator [0; 0x1p-500]%float [0.5; 0.25]%float) = false.
Proof.
  split; [|split].
  - refine (proj1 (proj2 (proj2 (proj2
              (cosine_division [0; 0]%float [0.5; 0.25]%float)) _))).
    left. reflexivity.
  - apply (proj1 (cosine_division [3; 4]%float [0.5; 0.25]%float) eq_refl).
    split; reflexivity.
  - apply (proj1 (proj2 (cosine_division [0; 0x1p-500]%float [0.5; 0.25]%float)));
      reflexivity.
Defined.

(** Squares of very small components underflow: neither vector is zero,
    the computed squared norm of the first is, and so is the divisor. *)
Lemma tiny_vector_divides_by_zero :
  let a := [0x1p-600%float] in
  let b := [1%float] in
  forallb is_zero a = false
  ∧ forallb is_zero b = false
  ∧ is_zero (squared_norm a) = true
  ∧ is_zero (denominator a b) = true
  ∧ cosineSimilarity a b = infinity.
Proof. vm_compute. done. Qed.

(** ** Ranking *)

Section Sorting.

Context {A : Type}.

Lemma sort_insert_perm (c : A → A → float) (x : A) (l : list A) :
  sort_insert c x l ≡ₚ x :: l.
Proof.
  induction l as [|y l IH]; simpl; [done|].
  destruct (0 <? c x y)%float; [|done].
  rewrite IH. apply Permutation_swap.
Qed.

Lemma Array_sort_perm (c : A → A → float) (l : list A) :
  Array_sort c l ≡ₚ l.
Proof.
  induction l as [|x l IH]; simpl; [done|].
  fold (Array_sort c l). by rewrite sort_insert_perm, IH.
Qed.

Lemma sort_insert_map {B} (f : A → B) (c : B → B → float) (x : A) (l : list A) :
  sort_insert c (f x) (map f l) =
  map f (sort_insert (λ a b, c (f a) (f b)) x l).
Proof.
  induction l as [|y l IH]; simpl; [done|].
  destruct (0 <? c (f x) (f y))%float; simpl; [by rewrite IH|done].
Qed.

(** Sorting commutes with a change of representation that the comparison
    does not see. *)
Lemma Array_sort_map {B} (f : A → B) (c : B → B → float) (l : list A) :
  Array_sort c (map f l) = map f (Array_sort (λ a b, c (f a) (f b)) l).
Proof.
  induction l as [|x l IH]; simpl; [done|].
  fold (Array_sort c (map f l)). rewrite IH. apply sort_insert_map.
Qed.

(** The order the sort establishes, for a comparison [key b - key a] on
    keys that are numbers: by decreasing key, and by increasing [tag] among
    equal keys. *)
Variable key : A → float.
Variable tag : A → nat.
Variable c : A → A → float.
Hypothesis c_key : ∀ a b, c a b = (key b - key a)%float.

Abbreviation before := (ordered_before key tag).

Lemma before_trans (x y z : A) : before x y → before y z → before x z.
Proof. unfold ordered_before. lia. Qed.

Lemma sort_insert_sorted (x : A) (l : list A) :
  is_nan (key x) = false →
  Forall (λ y, is_nan (key y) = false) l →
  Forall (λ y, tag x < tag y) l →
  StronglySorted before l →
  StronglySorted before (sort_insert c x l).
Proof.
  intros Hx Hnan Htag Hs.
  induction Hs as [|y l Hs IH Hy]; simpl.
  - repeat constructor.
  - inversion_clear Hnan as [|? ? Hny Hnl].
    inversion_clear Htag as [|? ? Hty Htl].
    rewrite c_key, sub_pos_rank by done.
    destruct (Z.ltb_spec (rank (key x)) (rank (key y))) as [Hlt|Hge].
    + constructor; [by apply IH|].
      rewrite sort_insert_perm. constructor; [by left|done].
    + assert (before x y) as Hxy by (unfold ordered_before; lia).
      constructor; [by constructor|].
      constructor; [done|].
      eapply Forall_impl; [exact Hy|]. intros z Hz.
      by apply (before_trans x y z).
Qed.

Lemma Array_sort_sorted (l : list A) :
  Forall (λ y, is_nan (key y) = false) l →
  StronglySorted (λ a b, tag a < tag b) l →
  StronglySorted before (Array_sort c l).
Proof.
  intros Hnan Htag. induction Htag as [|x l Htag IH Hx]; simpl.
  - constructor.
  - inversion_clear Hnan as [|? ? Hnx Hnl]. fold (Array_sort c l).
    apply sort_insert_sorted; try done.
    + by rewrite Array_sort_perm.
    + by rewrite Array_sort_perm.
    + by apply IH.
Qed.

End Sorting.

(** ** Positions *)

Lemma positions_from_ge {A} (l : list A) : ∀ n,
  Forall (λ p, n ≤ p.1) (positions_from n l).
Proof.
  induction l as [|x l IH]; intros n; simpl; constructor; [simpl; lia|].
  eapply Forall_impl; [apply (IH (S n))|]. simpl. intros; lia.
Qed.

Lemma positions_from_sorted {A} (l : list A) : ∀ n,
  StronglySorted (λ a b, a.1 < b.1) (positions_from n l).
Proof.
  induction l as [|x l IH]; intros n; simpl; constructor; [apply IH|].
  eapply Forall_impl; [apply (positions_from_ge l (S n))|]. simpl. intros; lia.
Qed.

Lemma positions_from_lookup {A} (l : list A) : ∀ n p,
  p ∈ positions_from n l ↔ n ≤ p.1 ∧ l !! (p.1 - n) = Some p.2.
Proof.
  induction l as [|x l IH]; intros n [i r]; simpl.
  - rewrite elem_of_nil. by split; [|intros [_ ?]].
  - rewrite elem_of_cons, IH. simpl. split.
    + intros [Heq|[Hle Hl]].
      * injection Heq as -> ->. by rewrite Nat.sub_diag.
      * split; [lia|]. replace (i - n) with (S (i - S n)) by lia. done.
    + intros [Hle Hl]. destruct (decide (i = n)) as [->|Hne].
      * rewrite Nat.sub_diag in Hl. left. by injection Hl as ->.
      * right. split; [lia|].
        replace (i - n) with (S (i - S n)) in Hl by lia. done.
Qed.

Lemma filter_positions {A} (p : A → bool) (l : list A) : ∀ n,
  List.filter p l = map snd (List.filter (λ q, p q.2) (positions_from n l)).
Proof.
  induction l as [|x l IH]; intros n; simpl; [done|].
  destruct (p x); simpl; by rewrite <- IH.
Qed.

Lemma Forall_list_filter {A} (P : A → Prop) (p : A → bool) (l : list A) :
  Forall P l → Forall P (List.filter p l).
Proof.
  induction 1 as [|x l Hx Hl IH]; simpl; [done|].
  destruct (p x); [by constructor|done].
Qed.

Lemma StronglySorted_list_filter {A} (R : A → A → Prop) (p : A → bool) (l : list A) :
  StronglySorted R l → StronglySorted R (List.filter p l).
Proof.
  induction 1 as [|x l Hs IH Hx]; simpl; [constructor|].
  destruct (p x); [|done]. constructor; [done|].
  by apply Forall_list_filter.
Qed.

Lemma elem_of_list_filter {A} (p : A → bool) (l : list A) (x : A) :
  x ∈ List.filter p l ↔ x ∈ l ∧ p x = true.
Proof. rewrite !list_elem_of_In. apply filter_In. Qed.

(** ** The search *)

Section Search.

Variable embeddings : OpenAIEmbeddings.

(** The search, once the provider has embedded the query. *)
Lemma similaritySearch_eval (q : string) (k : option Z)
    (filter : option (gmap string scalar)) (s : state) (qe : list float) :
  embedQuery embeddings (requests s) q = inr qe →
  similaritySearch embeddings q k filter s =
    (match map_throwing (score_item qe filter) (docs s) with
     | inr mapped =>
         Returned (map sdoc (slice_to (default 4%Z k)
                               (Array_sort comparator (omap (λ item, item) mapped))))
     | inl e => Thrown e
     end, sent (EmbedQuery q) s).
Proof.
  intros Hq. unfold similaritySearch, call_embedQuery. run_m.
  rewrite Hq. simpl.
  by destruct (map_throwing (score_item qe filter) (docs s)).
Qed.

(** The facade's [query] is the search with [topK], 5 by default, and the
    chunks are returned as content and metadata. *)
Lemma query_eval (q : string) (topK : option Z)
    (filter : option (gmap string scalar)) (s : state) (qe : list float) :
  embedQuery embeddings (requests s) q = inr qe →
  (BerkshireVectorStore.query embeddings q topK filter s).1 =
    match (similaritySearch embeddings q (Some (default 5%Z topK)) filter s).1 with
    | Returned results =>
        Returned (map (λ d, mkBerkshireDocument (pageContent d) (Some (metadata d)))
                      results)
    | Thrown e => Thrown e
    | IllTyped => IllTyped
    end.
Proof.
  intros Hq. unfold BerkshireVectorStore.query. run_m.
  rewrite !(similaritySearch_eval _ _ _ _ qe) by done. simpl.
  by destruct (map_throwing (score_item qe filter) (docs s)).
Qed.

Lemma map_throwing_total (qe : list float) (filter : option (gmap string scalar))
    (items : list vrecord) :
  forallb (λ r, implb (passes filter r) (has_score qe r)) items = true →
  ∃ mapped, map_throwing (score_item qe filter) items = inr mapped.
Proof.
  induction items as [|r items IH]; simpl; [eauto|].
  rewrite andb_true_iff. intros [Hr Hi].
  destruct (IH Hi) as [mapped ->]. rewrite score_item_cases.
  unfold has_score in Hr.
  destruct (passes filter r); simpl in Hr; [|eauto].
  destruct (score_against qe (embedding r)); [done|eauto].
Qed.

Lemma has_score_not_nan (qe : list float) (r : vrecord) :
  has_score qe r = true → is_nan (similarity qe r) = false.
Proof.
  unfold has_score, similarity.
  destruct (score_against qe (embedding r)); [done|]. by rewrite negb_true_iff.
Qed.

Lemma ordered_before_ranks (qe : list float) (a b : nat * vrecord) :
  is_nan (similarity qe a.2) = false → is_nan (similarity qe b.2) = false →
  ordered_before (λ p, similarity qe p.2) fst a b → ranks_before qe a b.
Proof.
  intros Ha Hb. unfold ordered_before, ranks_before.
  rewrite ltb_rank, eqb_rank by done.
  intros [H|[H1 H2]]; [left; by apply Z.ltb_lt|right].
  split; [by apply Z.eqb_eq|done].
Qed.

(** C1 (as amended). Take a query that the provider embeds, a [k] that is
    not negative, and an index in which every record that passes the filter
    has a score that is a number.  Then the search returns the documents
    (content and metadata, no embedding) of records of the index that pass
    the filter, each at most once; there are [min(k, survivors)] of them, so
    at most [k]; they come by descending score, records of equal score in
    the order of their positions in the index; and every survivor left out
    ranks after every one returned.  The facade's [query] returns the same
    chunks for the same [k]. *)
Theorem similaritySearch_ranked (q : string) (k : option Z)
    (filter : option (gmap string scalar)) (s : state) (qe : list float) :
  embedQuery embeddings (requests s) q = inr qe →
  (0 ≤ default 4%Z k)%Z →
  forallb (λ r, implb (passes filter r) (has_score qe r)) (docs s) = true →
  ∃ ranked : list (nat * vrecord),
    (similaritySearch embeddings q k filter s).1
      = Returned (map (λ p, doc p.2) ranked)
    ∧ (Z.of_nat (length ranked) ≤ default 4%Z k)%Z
    ∧ length ranked
      = Nat.min (Z.to_nat (default 4%Z k))
                (length (List.filter (passes filter) (docs s)))
    ∧ (∀ p, p ∈ ranked → docs s !! p.1 = Some p.2 ∧ passes filter p.2 = true)
    ∧ StronglySorted (ranks_before qe) ranked
    ∧ (∀ p p', p ∈ ranked → p' ∉ ranked →
               docs s !! p'.1 = Some p'.2 → passes filter p'.2 = true →
               ranks_before qe p p')
    ∧ (∀ topK, default 5%Z topK = default 4%Z k →
         (BerkshireVectorStore.query embeddings q topK filter s).1
           = Returned (map (λ p, mkBerkshireDocument (pageContent (doc p.2))
                                   (Some (metadata (doc p.2)))) ranked)).
Proof.
  intros Hq Hk Hscore.
  set (K := default 4%Z k) in *.
  set (key := λ p : nat * vrecord, similarity qe p.2).
  set (f := λ p : nat * vrecord, mkScored (doc p.2) (key p)).
  set (tagged := List.filter (λ p, passes filter p.2) (positions_from 0 (docs s))).
  set (sorted := Array_sort (λ a b, comparator (f a) (f b)) tagged).
  set (n := Z.to_nat (Z.min K (Z.of_nat (length sorted)))).
  (* what the search computes *)
  assert (∀ k', default 4%Z k' = K →
            (similaritySearch embeddings q k' filter s).1
              = Returned (map (λ p, doc p.2) (take n sorted))) as Hrun.
  { intros k' Hk'. rewrite (similaritySearch_eval _ _ _ _ qe) by done. simpl.
    destruct (map_throwing_total qe filter (docs s) Hscore) as [mapped Hm].
    rewrite Hm, (survivors_of_map _ _ _ _ Hm), Hk'.
    rewrite (filter_positions (passes filter) (docs s) 0), map_map.
    change (map (λ x, mkScored (doc x.2) (similarity qe x.2)) ?l) with (map f l).
    fold tagged. rewrite Array_sort_map. fold sorted.
    unfold slice_to. rewrite length_map.
    destruct (Z.ltb_spec K 0) as [?|_]; [lia|]. fold n.
    rewrite <- (fmap_take f), map_map. done. }
  (* the tagged survivors *)
  assert (∀ p, p ∈ tagged ↔ docs s !! p.1 = Some p.2 ∧ passes filter p.2 = true)
    as Htagged.
  { intros p. unfold tagged. rewrite elem_of_list_filter, positions_from_lookup.
    rewrite Nat.sub_0_r. split; [by intros [[_ ?] ?]|]. intros [? ?].
    split; [split; [lia|done]|done]. }
  assert (Forall (λ p, is_nan (key p) = false) tagged) as Hnan.
  { apply Forall_forall. intros p Hp. apply Htagged in Hp as [Hp1 Hp2].
    apply has_score_not_nan.
    rewrite forallb_forall in Hscore.
    specialize (Hscore p.2). rewrite Hp2 in Hscore. apply Hscore.
    apply list_elem_of_In, list_elem_of_lookup. eauto. }
  assert (sorted ≡ₚ tagged) as Hperm by apply Array_sort_perm.
  assert (StronglySorted (ordered_before key fst) sorted) as Hsorted.
  { apply Array_sort_sorted; [done|done|].
    apply StronglySorted_list_filter, positions_from_sorted. }
  assert (StronglySorted (ranks_before qe) sorted) as Hranked.
  { assert (Forall (λ p, is_nan (key p) = false) sorted) as Hnan'
      by by rewrite Hperm.
    clear -Hsorted Hnan'.
    induction Hsorted as [|p l Hs IH Hp]; [constructor|].
    inversion_clear Hnan' as [|? ? Hnp Hnl].
    constructor; [by apply IH|].
    rewrite Forall_forall in *. intros p' Hp'.
    exact (ordered_before_ranks qe p p' Hnp (Hnl p' Hp') (Hp p' Hp')). }
  exists (take n sorted).
  assert (length sorted = length (List.filter (passes filter) (docs s))) as Hlen.
  { rewrite Hperm. unfold tagged.
    by rewrite (filter_positions (passes filter) (docs s) 0), length_map. }
  split; [by apply Hrun|].
  split; [rewrite length_take; lia|].
  split; [rewrite length_take; lia|].
  split.
  { intros p Hp. apply Htagged. rewrite <- Hperm.
    by apply (subseteq_take n). }
  split.
  { rewrite <- (take_drop n sorted) in Hranked.
    by apply StronglySorted_app_1_l in Hranked. }
  split.
  { intros p p' Hp Hp' Hd' Hpass'.
    assert (p' ∈ sorted) as Hin by (rewrite Hperm; by apply Htagged).
    rewrite <- (take_drop n sorted) in Hin, Hranked.
    apply elem_of_app in Hin as [Hin|Hin]; [done|].
    by apply (StronglySorted_app_1_elem_of _ _ _ _ _ Hranked). }
  intros topK HtopK. rewrite (query_eval _ _ _ _ qe) by done.
  rewrite (Hrun (Some (default 5%Z topK))) by done.
  by rewrite map_map.
Qed.

End Search.

Lemma similaritySearch_ranked_witness :
  let r1 := mkRecord (mkDocument "insurance float" ∅) (Some [1; 0]%float) in
  let r2 := mkRecord (mkDocument "share repurchases" ∅) (Some [0.5; 0.5]%float) in
  let r3 := mkRecord (mkDocument "textile mills" ∅) (Some [0; 1]%float) in
  let s := mkState [r1; r2; r3] ∅ [] [] in
  ∃ ranked,
    (similaritySearch steady "xy" (Some 2%Z) None s).1
      = Returned (map (λ p, doc p.2) ranked)
    ∧ length ranked = 2
    ∧ StronglySorted (ranks_before [2; 1]%float) ranked.
Proof.
  intros r1 r2 r3 s.
  destruct (similaritySearch_ranked steady "xy" (Some 2%Z) None s [2; 1]%float)
    as (ranked & H1 & _ & H3 & _ & H5 & _).
  - reflexivity.
  - simpl. lia.
  - vm_compute. reflexivity.
  - exists ranked. split; [exact H1|]. split; [|exact H5].
    rewrite H3. reflexivity.
Defined.

(** A record whose embedding is all zeros scores [NaN]; the sort then
    leaves a lower score in front of a higher one.  And [slice(0, k)] with a
    negative [k] keeps all but the last [-k] results. *)
Lemma nan_score_breaks_ranking :
  let r1 := mkRecord (mkDocument "insurance float" ∅) (Some [1; 0]%float) in
  let r2 := mkRecord (mkDocument "blank page" ∅) (Some [0; 0]%float) in
  let r3 := mkRecord (mkDocument "share repurchases" ∅) (Some [1; 1]%float) in
  let s := mkState [r1; r2; r3] ∅ [] [] in
  embedQuery steady (requests s) "a" = inr [1; 1]%float
  ∧ (similaritySearch steady "a" (Some 3%Z) None s).1
    = Returned [doc r1; doc r2; doc r3]
  ∧ is_nan (similarity [1; 1]%float r2) = true
  ∧ (similarity [1; 1]%float r1 <? similarity [1; 1]%float r3)%float = true
  ∧ (similaritySearch steady "a" (Some (-1)%Z) None s).1
    = Returned [doc r1; doc r2].
Proof. vm_compute. done. Qed.

(** The facade on the two-letter index of the specification: the filter
    [{ year: 2020 }] returns the 2020 letter only. *)
Example queryByYear_2020 :
  let y2020 := mkDocument "1" {[ "year" := Scalar (Num 2020) ]} in
  let y2021 := mkDocument "22" {[ "year" := Scalar (Num 2021) ]} in
  let s := mkState [mkRecord y2020 (Some [1; 1]%float);
                    mkRecord y2021 (Some [2; 1]%float)] ∅ [] [] in
  (BerkshireVectorStore.queryByYear steady "22" 2020 None s).1
    = Returned [mkBerkshireDocument "1" (Some {[ "year" := Scalar (Num 2020) ]})].
Proof. vm_compute. reflexivity. Qed.

(** ** A run that the provider interrupts *)

Section FailedRun.

Variable embeddings : OpenAIEmbeddings.

Lemma slice_to_all {A} (k : Z) (l : list A) :
  (Z.of_nat (length l) ≤ k)%Z → slice_to k l = l.
Proof.
  intros Hk. unfold slice_to.
  destruct (Z.ltb_spec k 0) as [?|_]; [lia|].
  rewrite Z.min_r by done. rewrite Nat2Z.id. by apply take_ge.
Qed.

Lemma length_list_filter {A} (p : A → bool) (l : list A) :
  length (List.filter p l) ≤ length l.
Proof. induction l as [|x l IH]; simpl; [done|]. destruct (p x); simpl; lia. Qed.

(** Records that all carry an embedding can all be scored. *)
Lemma map_throwing_embedded (qe : list float)
    (filter : option (gmap string scalar)) (items : list vrecord) :
  Forall (λ r, is_Some (embedding r)) items →
  ∃ mapped, map_throwing (score_item qe filter) items = inr mapped.
Proof.
  induction 1 as [|r items [e He] _ [mapped IH]]; simpl; [eauto|].
  rewrite score_item_cases, IH, He.
  destruct (passes filter r); simpl; eauto.
Qed.

(** When every record has an embedding, a query whose text the provider
    embeds returns: as many results as [topK] allows, and every record that
    passes the filter when [topK] is at least the size of the index. *)
Lemma query_all_embedded (q : string) (k : Z)
    (filter : option (gmap string scalar)) (s : state) (qe : list float) :
  embedQuery embeddings (requests s) q = inr qe →
  Forall (λ r, is_Some (embedding r)) (docs s) →
  (0 ≤ k)%Z →
  ∃ results,
    (BerkshireVectorStore.query embeddings q (Some k) filter s).1 = Returned results
    ∧ length results
      = Nat.min (Z.to_nat k) (length (List.filter (passes filter) (docs s)))
    ∧ ((Z.of_nat (length (docs s)) ≤ k)%Z →
       ∀ r, r ∈ docs s → passes filter r = true →
         mkBerkshireDocument (pageContent (doc r)) (Some (metadata (doc r)))
           ∈ results).
Proof.
  intros Hq Hemb Hk.
  rewrite (query_eval embeddings q (Some k) filter s qe Hq).
  rewrite (similaritySearch_eval embeddings q _ filter s qe Hq).
  destruct (map_throwing_embedded qe filter (docs s) Hemb) as [mapped Hm].
  rewrite Hm. cbn [fst].
  change (default 4%Z (Some (default 5%Z (Some k)))) with k.
  rewrite (survivors_of_map _ _ _ _ Hm).
  set (survivors := map (λ r, mkScored (doc r) (similarity qe r))
                        (List.filter (passes filter) (docs s))).
  assert (length survivors = length (List.filter (passes filter) (docs s)))
    as Hlen by (unfold survivors; by rewrite length_map).
  pose proof (length_list_filter (passes filter) (docs s)) as Hle.
  pose proof (Array_sort_perm comparator survivors) as Hperm.
  pose proof (Permutation_length Hperm) as Hsorted.
  eexists. split; [reflexivity|]. split.
  - rewrite !length_map. unfold slice_to.
    destruct (Z.ltb_spec k 0) as [?|_]; [lia|].
    rewrite length_take, Hsorted, Hlen. lia.
  - intros Hall r Hr Hp.
    rewrite slice_to_all by lia.
    apply (list_elem_of_fmap_2
             (λ d, mkBerkshireDocument (pageContent d) (Some (metadata d)))
             _ (doc r)).
    apply (list_elem_of_fmap_2 sdoc _ (mkScored (doc r) (similarity qe r))).
    rewrite Hperm. unfold survivors.
    apply (list_elem_of_fmap_2 (λ r, mkScored (doc r) (similarity qe r))).
    apply list_elem_of_In, filter_In. split; [by apply list_elem_of_In|done].
Qed.

Lemma length_batch_texts (documents : list Document) (i m : nat) :
  i < m → m * BATCH_SIZE < length documents →
  length (batch_texts documents i) = BATCH_SIZE.
Proof.
  intros Hi Hm. unfold batch_texts, slice.
  rewrite length_map, length_take, length_drop.
  assert (S i * BATCH_SIZE ≤ m * BATCH_SIZE) by (apply Nat.mul_le_mono_r; lia).
  unfold BATCH_SIZE in *. lia.
Qed.

(** C4. When batch number [m] is the first whose embedding call the
    provider rejects, the facade's [addDocuments] throws that very error,
    no file has changed (nothing was saved), and the records of the [m]
    batches embedded before it are in the index, after the ones that were
    there: one record per document, in order, record [t] with vector
    [t mod 50] of the provider's answer to batch [t / 50] as its embedding.
    They can be queried afterwards.  When the provider answered each of
    those batches with one vector per text, as its contract says, and the
    records from before have embeddings too, every query whose text the
    provider embeds returns, with as many results as [topK] allows, and with
    every record that passes its filter, the retained ones included, when
    [topK] is at least the size of the index. *)
Theorem addDocuments_failed_batch (documents : list BerkshireDocument)
    (s : state) (m : nat) (err : exn) :
  let chunks := imap BerkshireVectorStore.chunk documents in
  m * BATCH_SIZE < length documents →
  (∀ i, i < m →
        ∃ answer,
          embedDocuments embeddings (history_at s chunks i)
                         (batch_texts chunks i) = inr answer) →
  embedDocuments embeddings (history_at s chunks m) (batch_texts chunks m)
    = inl err →
  ∃ s' recs,
    BerkshireVectorStore.addDocuments embeddings documents s = (Thrown err, s')
    ∧ files s' = files s
    ∧ docs s' = docs s ++ recs
    ∧ map doc recs = take (m * BATCH_SIZE) chunks
    ∧ length recs = m * BATCH_SIZE
    ∧ (∀ t r, recs !! t = Some r →
         ∃ answer,
           embedDocuments embeddings (history_at s chunks (t / BATCH_SIZE))
                          (batch_texts chunks (t / BATCH_SIZE)) = inr answer
           ∧ embedding r = answer !! (t mod BATCH_SIZE))
    ∧ ((∀ i answer, i < m →
          embedDocuments embeddings (history_at s chunks i)
                         (batch_texts chunks i) = inr answer →
          length answer = length (batch_texts chunks i)) →
       Forall (λ r, is_Some (embedding r)) (docs s) →
       ∀ q qe k filter,
         embedQuery embeddings (requests s') q = inr qe → (0 ≤ k)%Z →
         ∃ results,
           (BerkshireVectorStore.query embeddings q (Some k) filter s').1
             = Returned results
           ∧ length results
             = Nat.min (Z.to_nat k)
                       (length (List.filter (passes filter) (docs s')))
           ∧ ((Z.of_nat (length (docs s')) ≤ k)%Z →
              ∀ r, r ∈ recs → passes filter r = true →
                mkBerkshireDocument (pageContent (doc r))
                                    (Some (metadata (doc r))) ∈ results)).
Proof.
  intros chunks Hm Hans Herr.
  assert (m * BATCH_SIZE < length chunks) as Hm'.
  { unfold chunks. by rewrite length_imap. }
  destruct (addDocuments_fail embeddings chunks
              (log (LogAdding (length documents)) s) m err)
    as (s' & recs & E & Hf & Hd & Hmap & Hr); try done.
  pose proof (addDocuments_fail_records embeddings chunks
                (log (LogAdding (length documents)) s) s' recs m err
                Hm' Hans Herr E Hd) as Hrecs.
  assert (length recs = m * BATCH_SIZE) as Hlen.
  { rewrite <- (length_map doc), Hmap, length_take. lia. }
  exists (log (ErrAdding err) s'), recs.
  split; [|split; [exact Hf|split; [exact Hd|split; [exact Hmap|
          split; [exact Hlen|split; [exact Hrecs|]]]]]].
  { unfold BerkshireVectorStore.addDocuments. run_m. fold chunks.
    rewrite E. reflexivity. }
  intros Hfull Hold q qe k filter Hq Hk.
  assert (Forall (λ r, is_Some (embedding r)) (docs (log (ErrAdding err) s')))
    as Hall.
  { change (docs (log (ErrAdding err) s')) with (docs s'). rewrite Hd.
    apply Forall_app. split; [exact Hold|].
    apply Forall_lookup. intros t r Ht.
    destruct (Hrecs t r Ht) as (answer & Ha & ->).
    assert (t / BATCH_SIZE < m) as Hbatch.
    { apply Nat.Div0.div_lt_upper_bound.
      apply lookup_lt_Some in Ht. rewrite Hlen in Ht. lia. }
    apply lookup_lt_is_Some.
    rewrite (Hfull _ answer Hbatch Ha), (length_batch_texts chunks _ m) by done.
    apply Nat.mod_upper_bound. done. }
  destruct (query_all_embedded q k filter (log (ErrAdding err) s') qe Hq Hall Hk)
    as (results & Hres & Hcount & Hin).
  exists results. split; [exact Hres|]. split; [exact Hcount|].
  intros Hbig r Hr' Hp. apply (Hin Hbig); [|exact Hp].
  change (docs (log (ErrAdding err) s')) with (docs s'). rewrite Hd.
  apply elem_of_app. by right.
Qed.

End FailedRun.

Lemma addDocuments_failed_batch_witness :
  let documents := map plain (replicate 120 "letter") in
  ∃ s' recs results,
    BerkshireVectorStore.addDocuments (fails_after 2) documents empty_state
      = (Thrown (ProviderError "429 rate limit"), s')
    ∧ files s' = ∅
    ∧ docs s' = recs
    ∧ length recs = 100
    ∧ (BerkshireVectorStore.query (fails_after 2) "letters" (Some 100%Z) None s').1
      = Returned results
    ∧ length results = 100
    ∧ ∀ r, r ∈ recs →
        mkBerkshireDocument (pageContent (doc r)) (Some (metadata (doc r)))
          ∈ results.
Proof.
  intros documents.
  destruct (addDocuments_failed_batch (fails_after 2) documents empty_state 2
              (ProviderError "429 rate limit"))
    as (s' & recs & E & Hf & Hd & _ & Hl & _ & Hquery).
  - vm_compute. lia.
  - intros i Hi. eexists.
    destruct i as [|[|i]]; [vm_compute; reflexivity ..|lia].
  - vm_compute. reflexivity.
  - destruct (Hquery) with (q := "letters") (qe := length_embedding "letters")
      (k := 100%Z) (filter := @None (gmap string scalar))
      as (results & Hres & Hcount & Hin).
    + intros i answer Hi Ha.
      destruct i as [|[|i]]; [| |lia];
        vm_compute in Ha; injection Ha as <-; vm_compute; reflexivity.
    + constructor.
    + reflexivity.
    + lia.
    + exists s', recs, results.
      split; [exact E|]. split; [exact Hf|]. split; [exact Hd|].
      split; [exact Hl|]. split; [exact Hres|]. split.
      * rewrite Hcount, Hd. simpl.
        assert (length (List.filter (passes None) recs) = length recs) as ->.
        { clear. induction recs as [|r recs IH]; simpl; [done|]. by rewrite IH. }
        rewrite Hl. reflexivity.
      * intros r Hr. apply Hin; [|exact Hr|reflexivity].
        rewrite Hd, length_app, Hl. simpl. lia.
Defined.
(** * More of the vector store *)

(** ** Scores *)

Section Symmetry.
#[local] Open Scope Z_scope.

Lemma SFmul_comm (x y : spec_float) : SFmul prec emax x y = SFmul prec emax y x.
Proof.
  destruct x as [sx|sx| |sx mx ex], y as [sy|sy| |sy my ey]; simpl;
    rewrite ?(xorb_comm sx sy); try reflexivity.
  by rewrite (Pos.mul_comm mx my), (Z.add_comm ex ey).
Qed.

End Symmetry.

Section Scores.
#[local] Open Scope float_scope.

Lemma mul_comm (x y : float) : x * y = y * x.
Proof. apply Prim2SF_inj. rewrite !mul_spec. apply SFmul_comm. Qed.

Lemma mul_nan_r (x : float) : x * nan = nan.
Proof.
  apply Prim2SF_inj. rewrite mul_spec.
  change (Prim2SF nan) with S754_nan. by destruct (Prim2SF x).
Qed.

Lemma add_nan_l (x : float) : nan + x = nan.
Proof. apply Prim2SF_inj. by rewrite add_spec. Qed.

Lemma add_nan_r (x : float) : x + nan = nan.
Proof.
  apply Prim2SF_inj. rewrite add_spec.
  change (Prim2SF nan) with S754_nan. by destruct (Prim2SF x).
Qed.

Lemma div_nan_l (x : float) : nan / x = nan.
Proof. apply Prim2SF_inj. by rewrite div_spec. Qed.

Lemma dot_comm (a : list float) : ∀ (b : list float) (acc : float),
  foldl (λ acc xy, acc + xy.1 * xy.2) acc (zip a b)
  = foldl (λ acc xy, acc + xy.1 * xy.2) acc (zip b a).
Proof.
  induction a as [|x a IH]; intros [|y b] acc; simpl; try done.
  rewrite (mul_comm x y). apply IH.
Qed.

(** X1. The score does not depend on which of two vectors of the same
    length is the query: [cosineSimilarity a b = cosineSimilarity b a], bit
    for bit. *)
Theorem cosineSimilarity_sym (a b : list float) :
  length a = length b → cosineSimilarity a b = cosineSimilarity b a.
Proof.
  intros Hlen. unfold cosineSimilarity.
  rewrite (cosine_sums_spec a b) by done.
  rewrite (cosine_sums_spec b a) by done.
  rewrite dot_comm. f_equal. apply mul_comm.
Qed.

(** Once the running dot product is [NaN] it stays [NaN]. *)
Lemma cosine_sums_nan (a : list float) : ∀ (b : list float) (na nb : float),
  (cosine_sums a b (nan, na, nb)).1.1 = nan.
Proof.
  induction a as [|x a IH]; intros b na nb; simpl; [done|].
  rewrite add_nan_l. apply IH.
Qed.

Lemma cosine_sums_short (a : list float) : ∀ (b : list float) (d na nb : float),
  length b < length a →
  (cosine_sums a b (d, na, nb)).1.1 = nan.
Proof.
  induction a as [|x a IH]; intros b d na nb Hlen; simpl in *; [lia|].
  destruct b as [|y b]; simpl.
  - rewrite mul_nan_r, add_nan_r. apply cosine_sums_nan.
  - apply IH. simpl in Hlen. lia.
Qed.

Lemma cosine_sums_take (a : list float) : ∀ (b : list float) (acc : float * float * float),
  cosine_sums a b acc = cosine_sums a (take (length a) b) acc.
Proof.
  induction a as [|x a IH]; intros b [[d na] nb]; simpl; [done|].
  destruct b as [|y b]; simpl; [done|]. apply IH.
Qed.

(** X2. A difference in dimension is never reported.  A stored embedding
    shorter than the query embedding scores [NaN]; of a longer one only the
    first [a.length] components are read. *)
Theorem cosineSimilarity_dimensions (a b : list float) :
  (length b < length a → cosineSimilarity a b = nan)
  ∧ cosineSimilarity a b = cosineSimilarity a (take (length a) b).
Proof.
  split.
  - intros Hlen. unfold cosineSimilarity.
    pose proof (cosine_sums_short a b 0 0 0 Hlen) as H.
    destruct (cosine_sums a b (0, 0, 0)) as [[d na] nb]. simpl in H.
    rewrite H. apply div_nan_l.
  - unfold cosineSimilarity. by rewrite <- cosine_sums_take.
Qed.

End Scores.

Lemma cosineSimilarity_sym_witness :
  cosineSimilarity [0.5; 0.75]%float [3; -4]%float
  = cosineSimilarity [3; -4]%float [0.5; 0.75]%float.
Proof. apply cosineSimilarity_sym. reflexivity. Defined.

Lemma cosineSimilarity_dimensions_witness :
  cosineSimilarity [1; 2; 3]%float [1; 2]%float = nan.
Proof.
  apply (proj1 (cosineSimilarity_dimensions [1; 2; 3]%float [1; 2]%float)).
  simpl. lia.
Defined.

(** ** Records without an embedding *)

Section MissingEmbedding.

Variable embeddings : OpenAIEmbeddings.

Lemma score_item_throws (qe : list float) (filter : option (gmap string scalar))
    (r : vrecord) (e : exn) :
  score_item qe filter r = inl e →
  e = TypeError "Cannot read properties of undefined (reading '0')".
Proof.
  rewrite score_item_cases. destruct (passes filter r); [|done].
  unfold score_against. destruct (embedding r), qe; try done.
  by intros [= <-].
Qed.

Lemma map_throwing_throws (qe : list float) (filter : option (gmap string scalar))
    (items : list vrecord) (r : vrecord) :
  qe ≠ [] → r ∈ items → embedding r = None → passes filter r = true →
  map_throwing (score_item qe filter) items
  = inl (TypeError "Cannot read properties of undefined (reading '0')").
Proof.
  intros Hqe Hin Hnone Hpass.
  induction items as [|x items IH]; [by apply elem_of_nil in Hin|].
  simpl. destruct (score_item qe filter x) as [e|y] eqn:Ex.
  - by rewrite (score_item_throws _ _ _ _ Ex).
  - apply elem_of_cons in Hin as [->|Hin].
    + rewrite score_item_cases, Hpass in Ex. unfold score_against in Ex.
      rewrite Hnone in Ex. by destruct qe.
    + by rewrite (IH Hin).
Qed.

(** X3. The store does not check that the provider answered with one vector
    per text.  When a batch is answered with fewer, [addDocuments] returns
    normally, and the documents past the end of the answer are stored
    without an embedding. *)
Theorem addDocuments_short_answer (documents : list Document)
    (answer : list (list float)) (s : state) :
  0 < length documents ≤ BATCH_SIZE →
  embedDocuments embeddings (requests s) (map pageContent documents) = inr answer →
  ∃ s', SimpleMemoryVectorStore.addDocuments embeddings documents s = (Returned tt, s')
      ∧ docs s' = docs s ++ embedded documents answer
      ∧ length (embedded documents answer) = length documents
      ∧ ∀ j d, documents !! j = Some d →
               embedded documents answer !! j = Some (mkRecord d (answer !! j))
               ∧ (length answer ≤ j → answer !! j = None).
Proof.
  intros [Hpos Hle] Hanswer.
  unfold SimpleMemoryVectorStore.addDocuments.
  destruct (decide (length documents = 0)) as [?|_]; [lia|].
  pose proof (loop_step embeddings documents (length documents - 1) 0 s
                ltac:(lia)) as Hstep.
  cbv zeta in Hstep.
  assert (slice 0 (0 + BATCH_SIZE) documents = documents) as Hslice.
  { unfold slice. rewrite drop_0, Nat.sub_0_r. apply take_ge. lia. }
  rewrite Hslice, Hanswer in Hstep.
  replace (S (length documents - 1)) with (length documents) in Hstep by lia.
  rewrite Hstep.
  rewrite loop_done by lia.
  eexists. split; [reflexivity|]. split; [reflexivity|].
  split; [by rewrite length_embedded|].
  intros j d Hj. split.
  - unfold embedded. by rewrite list_lookup_imap, Hj.
  - apply lookup_ge_None_2.
Qed.

(** X4. A stored record without an embedding makes every search that gets
    to score it throw a [TypeError], through the facade as well: any search
    whose filter the record passes, unless the query embedding is empty. *)
Theorem search_without_embedding (q : string) (k : option Z)
    (filter : option (gmap string scalar)) (s : state) (qe : list float)
    (r : vrecord) :
  embedQuery embeddings (requests s) q = inr qe → qe ≠ [] →
  r ∈ docs s → embedding r = None → passes filter r = true →
  (similaritySearch embeddings q k filter s).1
    = Thrown (TypeError "Cannot read properties of undefined (reading '0')")
  ∧ (BerkshireVectorStore.query embeddings q k filter s).1
    = Thrown (TypeError "Cannot read properties of undefined (reading '0')").
Proof.
  intros Hq Hqe Hin Hnone Hpass. split.
  - rewrite (similaritySearch_eval embeddings q k filter s qe Hq).
    by rewrite (map_throwing_throws qe filter (docs s) r).
  - rewrite (query_eval embeddings q k filter s qe Hq).
    rewrite (similaritySearch_eval embeddings q _ filter s qe Hq).
    by rewrite (map_throwing_throws qe filter (docs s) r).
Qed.

End MissingEmbedding.

Lemma addDocuments_short_answer_witness :
  let short := mkEmbeddings (λ _ texts, inr (map length_embedding (take 1 texts)))
                            (λ _ t, inr (length_embedding t)) in
  let documents := [mkDocument "a" ∅; mkDocument "b" ∅] in
  ∃ s', SimpleMemoryVectorStore.addDocuments short documents empty_state
          = (Returned tt, s')
      ∧ map embedding (docs s') = [Some (length_embedding "a"); None].
Proof.
  intros short documents.
  destruct (addDocuments_short_answer short documents
              [length_embedding "a"] empty_state) as (s' & H1 & H2 & _).
  { unfold BATCH_SIZE. simpl. lia. }
  { reflexivity. }
  exists s'. split; [exact H1|]. rewrite H2. reflexivity.
Defined.

Lemma search_without_embedding_witness :
  let r := mkRecord (mkDocument "b" ∅) None in
  let s := mkState [mkRecord (mkDocument "a" ∅) (Some [1; 1]%float); r] ∅ [] [] in
  (BerkshireVectorStore.query steady "q" None None s).1
    = Thrown (TypeError "Cannot read properties of undefined (reading '0')").
Proof.
  intros r s.
  refine (proj2 (search_without_embedding steady "q" None None s
                   (length_embedding "q") r eq_refl _ _ eq_refl eq_refl)).
  - discriminate.
  - apply list_elem_of_further, list_elem_of_here.
Defined.

(** ** What a query leaves alone *)

Section ReadOnly.

Variable embeddings : OpenAIEmbeddings.

(** What a query does to the state, and how it ends. *)
Lemma query_effects (q : string) (topK : option Z)
    (filter : option (gmap string scalar)) (s : state) :
  let result := BerkshireVectorStore.query embeddings q topK filter s in
  docs result.2 = docs s
  ∧ files result.2 = files s
  ∧ requests result.2 = requests s ++ [EmbedQuery q]
  ∧ result.1 ≠ IllTyped
  ∧ (∀ e, embedQuery embeddings (requests s) q = inl e →
          result.1 = Thrown e
          ∧ console result.2 = console s ++ [LogQuerying q; ErrQuerying e]).
Proof.
  unfold BerkshireVectorStore.query, similaritySearch, call_embedQuery.
  run_m.
  destruct (embedQuery embeddings (requests s) q) as [e|qe]; simpl.
  - split_and!; try done. intros e' [= <-]. split; [done|].
    by rewrite <- app_assoc.
  - destruct (map_throwing (score_item qe filter) (docs s)) as [e|mapped];
      simpl; split_and!; done.
Qed.

(** X5. A query only reads the index.  Whatever the provider answers and
    whether the query returns or throws, the records and the files are as
    before and exactly one request, the query text, has gone to the provider;
    a failure of the provider is written to the console and thrown on
    unchanged. *)
Theorem query_reads_only (q : string) (topK : option Z)
    (filter : option (gmap string scalar)) (s : state) :
  let result := BerkshireVectorStore.query embeddings q topK filter s in
  docs result.2 = docs s
  ∧ files result.2 = files s
  ∧ requests result.2 = requests s ++ [EmbedQuery q]
  ∧ result.1 ≠ IllTyped
  ∧ (∀ e, embedQuery embeddings (requests s) q = inl e →
          result.1 = Thrown e
          ∧ console result.2 = console s ++ [LogQuerying q; ErrQuerying e]).
Proof. apply query_effects. Qed.

(** A query returns at most [topK] documents. *)
Lemma query_length (q : string) (topK : Z)
    (filter : option (gmap string scalar)) (s : state)
    (results : list BerkshireDocument) :
  (BerkshireVectorStore.query embeddings q (Some topK) filter s).1
    = Returned results →
  (0 ≤ topK)%Z → (Z.of_nat (length results) ≤ topK)%Z.
Proof.
  destruct (embedQuery embeddings (requests s) q) as [e|qe] eqn:Hq.
  { destruct (query_effects q (Some topK) filter s) as (_ & _ & _ & _ & H).
    destruct (H e Hq) as [-> _]. done. }
  rewrite (query_eval embeddings q (Some topK) filter s qe Hq).
  rewrite (similaritySearch_eval embeddings q _ filter s qe Hq). simpl.
  destruct (map_throwing (score_item qe filter) (docs s)) as [e|mapped] eqn:Hm;
    [done|].
  intros [= <-] Hk. rewrite !length_map. unfold slice_to.
  destruct (Z.ltb_spec topK 0) as [?|_]; [lia|].
  rewrite length_take. lia.
Qed.

End ReadOnly.

Lemma query_reads_only_witness :
  let down := mkEmbeddings (λ _ texts, inr (map length_embedding texts))
                           (λ _ _, inl (ProviderError "503 unavailable")) in
  let s := mkState [mkRecord (mkDocument "a" ∅) (Some [1; 1]%float)] ∅ [] [] in
  (BerkshireVectorStore.query down "q" None None s).1
    = Thrown (ProviderError "503 unavailable")
  ∧ docs (BerkshireVectorStore.query down "q" None None s).2 = docs s.
Proof.
  intros down s.
  destruct (query_reads_only down "q" None None s) as (Hd & _ & _ & _ & H).
  split; [exact (proj1 (H _ eq_refl))|exact Hd].
Defined.

(** ** The snapshot and a restart *)

Section Restart.

Variable embeddings : OpenAIEmbeddings.

(** The constructor reads the files and nothing else of the state. *)
Lemma constructor_files (a b : state) :
  files a = files b →
  (BerkshireVectorStore.constructor a).1 = (BerkshireVectorStore.constructor b).1
  ∧ docs (BerkshireVectorStore.constructor a).2
    = docs (BerkshireVectorStore.constructor b).2.
Proof.
  intros Hf. unfold BerkshireVectorStore.constructor, loadFromFile, new.
  run_m. rewrite Hf.
  destruct (files b !! VECTORS_FILE) as [[t|j]|]; simpl; try done.
  by destruct (docs_of_json j).
Qed.




Lemma facade_addDocuments_cases (documents : list BerkshireDocument) (s : state) :
  let chunks := imap BerkshireVectorStore.chunk documents in
  let inner := SimpleMemoryVectorStore.addDocuments embeddings chunks
                 (log (LogAdding (length documents)) s) in
  BerkshireVectorStore.addDocuments embeddings documents s =
    match inner.1 with
    | Returned _ =>
        (Returned tt,
         log (LogSaved (length (docs inner.2)) VECTORS_FILE)
           (set_files (<[VECTORS_FILE := Json (json_of_docs (docs inner.2))]>
                         (files inner.2))
              (log (LogAdded (length chunks) (length documents)) inner.2)))
    | Thrown e => (Thrown e, log (ErrAdding e) inner.2)
    | IllTyped => (IllTyped, inner.2)
    end.
Proof.
  intros chunks inner. unfold BerkshireVectorStore.addDocuments, saveToFile.
  run_m. fold chunks. unfold inner.
  by destruct (SimpleMemoryVectorStore.addDocuments embeddings chunks _)
    as [[[]|e|] s1].
Qed.

Lemma facade_addDocuments_returned (documents : list BerkshireDocument)
    (s s' : state) :
  BerkshireVectorStore.addDocuments embeddings documents s = (Returned tt, s') →
  ∃ recs, docs s' = docs s ++ recs
          ∧ map doc recs = imap BerkshireVectorStore.chunk documents.
Proof.
  rewrite facade_addDocuments_cases. cbv zeta.
  destruct (addDocuments_appends embeddings
              (imap BerkshireVectorStore.chunk documents)
              (log (LogAdding (length documents)) s)) as (recs & Hd & _ & _ & Hm).
  destruct (SimpleMemoryVectorStore.addDocuments embeddings _ _) as [[[]|e|] s1];
    simpl in *; intros [= <-]; simpl.
  exists recs. split; [done|]. by apply Hm.
Qed.


(** X7. When the inner store's [addDocuments] throws, as it does when the
    provider rejects a batch, the facade throws the same error without
    reaching [saveToFile]: the snapshot file is as it was, so the records of
    the batches that were embedded before the failure are in memory only, and
    a store constructed afterwards starts exactly as one constructed before
    the call would have. *)
Theorem addDocuments_failure_not_saved (documents : list BerkshireDocument)
    (s : state) (e : exn) :
  let chunks := imap BerkshireVectorStore.chunk documents in
  (SimpleMemoryVectorStore.addDocuments embeddings chunks
     (log (LogAdding (length documents)) s)).1 = Thrown e →
  ∃ s',
    BerkshireVectorStore.addDocuments embeddings documents s = (Thrown e, s')
    ∧ files s' = files s
    ∧ (BerkshireVectorStore.constructor s').1
      = (BerkshireVectorStore.constructor s).1
    ∧ docs (BerkshireVectorStore.constructor s').2
      = docs (BerkshireVectorStore.constructor s).2.
Proof.
  intros chunks Hinner. rewrite facade_addDocuments_cases. cbv zeta.
  fold chunks.
  destruct (addDocuments_appends embeddings chunks
              (log (LogAdding (length documents)) s)) as (recs & Hd & Hf & _ & _).
  destruct (SimpleMemoryVectorStore.addDocuments embeddings chunks _)
    as [[[]|e'|] s1]; simpl in *; try discriminate Hinner.
  injection Hinner as ->.
  eexists. split; [reflexivity|]. simpl.
  split; [exact Hf|]. by apply constructor_files.
Qed.

(** X8. Adding an empty list of documents sends nothing to the provider and
    changes no record, and still writes the snapshot file anew from the
    records in memory. *)
Theorem addDocuments_nothing (s : state) :
  ∃ s', BerkshireVectorStore.addDocuments embeddings [] s = (Returned tt, s')
      ∧ docs s' = docs s
      ∧ requests s' = requests s
      ∧ files s' = <[VECTORS_FILE := Json (json_of_docs (docs s))]> (files s).
Proof. eexists. split; [reflexivity|]. done. Qed.

End Restart.


Lemma addDocuments_failure_not_saved_witness :
  let documents := map plain (replicate 60 "letter") in
  ∃ s',
    BerkshireVectorStore.addDocuments (fails_after 1) documents empty_state
      = (Thrown (ProviderError "429 rate limit"), s')
    ∧ length (docs s') = 50
    ∧ docs (BerkshireVectorStore.constructor s').2 = [].
Proof.
  intros documents.
  destruct (addDocuments_failure_not_saved (fails_after 1) documents empty_state
              (ProviderError "429 rate limit") eq_refl)
    as (s' & E & _ & _ & Hc).
  exists s'. split; [exact E|]. split.
  - assert (s' = (BerkshireVectorStore.addDocuments (fails_after 1) documents
                    empty_state).2) as -> by (by rewrite E).
    reflexivity.
  - rewrite Hc. reflexivity.
Defined.

(** ** Queries by year *)

Section ByYear.
#[local] Open Scope float_scope.

Variable embeddings : OpenAIEmbeddings.

Lemma eqb_nan_r (x : float) : (x =? nan) = false.
Proof.
  rewrite FloatAxioms.eqb_spec. change (Prim2SF nan) with S754_nan.
  unfold SFeqb. by destruct (Prim2SF x) as [[]|[]| |[] ? ?].
Qed.

(** What the facade returns is read off records of the index that pass the
    filter. *)
Lemma query_results_pass (q : string) (topK : option Z)
    (filter : option (gmap string scalar)) (s : state)
    (results : list BerkshireDocument) :
  (BerkshireVectorStore.query embeddings q topK filter s).1 = Returned results →
  Forall (λ d, ∃ r, r ∈ docs s ∧ passes filter r = true
                    ∧ content d = pageContent (doc r)
                    ∧ bd_metadata d = Some (metadata (doc r))) results.
Proof.
  destruct (embedQuery embeddings (requests s) q) as [e|qe] eqn:Hq.
  { destruct (query_effects embeddings q topK filter s) as (_ & _ & _ & _ & H).
    destruct (H e Hq) as [-> _]. done. }
  rewrite (query_eval embeddings q topK filter s qe Hq).
  rewrite (similaritySearch_eval embeddings q _ filter s qe Hq). simpl.
  destruct (map_throwing (score_item qe filter) (docs s)) as [e|mapped] eqn:Hm;
    [done|].
  intros [= <-]. rewrite (survivors_of_map qe filter (docs s) mapped Hm).
  apply Forall_forall. intros d Hd.
  apply list_elem_of_fmap in Hd as (d' & -> & Hd).
  apply list_elem_of_fmap in Hd as (sc & -> & Hd).
  assert (sc ∈ Array_sort comparator
                 (map (λ r, mkScored (doc r) (similarity qe r))
                      (List.filter (passes filter) (docs s)))) as Hsc.
  { unfold slice_to in Hd. by apply elem_of_take in Hd as (i & Hd%list_elem_of_lookup_2 & _). }
  rewrite Array_sort_perm in Hsc.
  apply list_elem_of_fmap in Hsc as (r & -> & Hr).
  apply elem_of_list_filter in Hr as [Hr Hp].
  by exists r.
Qed.

(** X9. [queryByYear] returns only documents whose [year] metadata is a
    number equal to the year asked for; a [year] that is [NaN] returns
    nothing, since [NaN === NaN] is false. *)
Theorem queryByYear_only_that_year (q : string) (year : float) (topK : option Z)
    (s : state) (results : list BerkshireDocument) :
  (BerkshireVectorStore.queryByYear embeddings q year topK s).1 = Returned results →
  Forall (λ d, ∃ md y, bd_metadata d = Some md
                       ∧ md !! "year" = Some (Scalar (Num y))
                       ∧ (y =? year) = true) results
  ∧ (is_nan year = true → results = []).
Proof.
  unfold BerkshireVectorStore.queryByYear. intros Hres.
  pose proof (query_results_pass _ _ _ _ _ Hres) as Hall.
  assert (Forall (λ d, ∃ md y, bd_metadata d = Some md
                       ∧ md !! "year" = Some (Scalar (Num y))
                       ∧ (y =? year) = true) results) as Hyears.
  { eapply Forall_impl; [exact Hall|]. simpl.
    intros d (r & _ & Hp & _ & Hmd). simpl in Hp.
    rewrite matches_spec in Hp.
    specialize (Hp "year" (Num year) (lookup_singleton_eq _ _)).
    rewrite get_member_plain in Hp by (by vm_compute).
    unfold get_prop in Hp.
    destruct (metadata (doc r) !! "year") as [[[| |b|y|t]|l|m]|] eqn:Hy;
      try discriminate.
    by exists (metadata (doc r)), y. }
  split; [done|].
  intros Hnan. apply is_nan_eq in Hnan as ->.
  destruct results as [|d results]; [done|].
  apply Forall_cons in Hyears as [(md & y & _ & _ & Hy) _].
  by rewrite eqb_nan_r in Hy.
Qed.

End ByYear.

Lemma queryByYear_only_that_year_witness :
  let y2020 := mkDocument "1" {[ "year" := Scalar (Num 2020) ]} in
  let y2021 := mkDocument "22" {[ "year" := Scalar (Num 2021) ]} in
  let s := mkState [mkRecord y2020 (Some [1; 1]%float);
                    mkRecord y2021 (Some [2; 1]%float)] ∅ [] [] in
  Forall (λ d, ∃ md y, bd_metadata d = Some md
                       ∧ md !! "year" = Some (Scalar (Num y))
                       ∧ (y =? 2021)%float = true)
         [mkBerkshireDocument "22" (Some {[ "year" := Scalar (Num 2021) ]})].
Proof.
  intros y2020 y2021 s.
  apply (proj1 (queryByYear_only_that_year steady "1" 2021 None s _ eq_refl)).
Defined.
(** * Splitting text into chunks *)

Section Strings.

Lemma length_units (s : string) : length (units s) = String.length s.
Proof. induction s as [|c s IH]; simpl; [done|]. by rewrite IH. Qed.

Lemma units_inj (s t : string) : units s = units t → s = t.
Proof.
  intros H. rewrite <- (String.string_of_list_ascii_of_string s),
    <- (String.string_of_list_ascii_of_string t). unfold units in H. by rewrite H.
Qed.

Lemma units_substring (s : string) : ∀ n m,
  units (String.substring n m s) = take m (drop n (units s)).
Proof.
  induction s as [|c s IH]; intros [|n] [|m]; simpl; try done;
    rewrite IH; by rewrite ?drop_0.
Qed.

Lemma units_rev_app (s : string) : ∀ t,
  units (String.rev_app s t) = reverse (units s) ++ units t.
Proof.
  induction s as [|c s IH]; intros t; simpl; [done|].
  rewrite IH, reverse_cons. simpl. by rewrite <- app_assoc.
Qed.

Lemma units_rev (s : string) : units (String.rev s) = reverse (units s).
Proof. unfold String.rev. rewrite units_rev_app. simpl. by rewrite app_nil_r. Qed.

Lemma blank_rev (s : string) : blank (String.rev s) = blank s.
Proof.
  unfold blank. rewrite units_rev.
  apply eq_true_iff_eq. rewrite !forallb_forall.
  split; intros H c Hc; apply H; apply list_elem_of_In;
    apply list_elem_of_In in Hc; by apply elem_of_reverse.
Qed.

Lemma trimStart_empty (s : string) : trimStart s = EmptyString ↔ blank s = true.
Proof.
  unfold blank. induction s as [|c s IH]; simpl; [done|].
  destruct (is_white_space c); simpl; [done|]. split; discriminate.
Qed.

Lemma blank_trimStart (s : string) : blank (trimStart s) = blank s.
Proof.
  unfold blank. induction s as [|c s IH]; simpl; [done|].
  destruct (is_white_space c) eqn:E; simpl; [done|]. by rewrite E.
Qed.

Lemma rev_empty (s : string) : String.rev s = EmptyString ↔ s = EmptyString.
Proof.
  split; [|by intros ->].
  intros H. apply units_inj. apply (f_equal units) in H.
  rewrite units_rev in H.
  apply (f_equal reverse) in H. rewrite reverse_involutive in H.
  by rewrite H.
Qed.

(** [c.trim().length > 0] says that [c] holds a character that is not white
    space. *)
Lemma trim_length (s : string) : (0 <? String.length (trim s)) = negb (blank s).
Proof.
  assert (trim s = EmptyString ↔ blank s = true) as H.
  { unfold trim, trimEnd. rewrite rev_empty, trimStart_empty, blank_rev.
    by rewrite blank_trimStart. }
  destruct (blank s).
  - by rewrite (proj2 H eq_refl).
  - destruct (trim s) as [|c t]; [|done]. by pose proof (proj1 H eq_refl).
Qed.

Lemma blank_units (s : string) :
  blank s = false ↔ ∃ i c, units s !! i = Some c ∧ is_white_space c = false.
Proof.
  unfold blank. split.
  - intros H. induction (units s) as [|c l IH]; simpl in *; [done|].
    destruct (is_white_space c) eqn:E.
    + destruct (IH H) as (i & c' & Hi & Hc). by exists (S i), c'.
    + by exists 0, c.
  - intros (i & c & Hi & Hc).
    destruct (forallb is_white_space (units s)) eqn:E; [|done].
    rewrite forallb_forall in E.
    rewrite (E c) in Hc; [done|]. apply list_elem_of_In.
    by eapply list_elem_of_lookup_2.
Qed.

End Strings.

Import ChunkingVectorStore.

Section Windows.

Lemma ceil_div_lt (len step k : nat) :
  0 < step → (k < (len + (step - 1)) / step ↔ k * step < len).
Proof.
  intros Hs. split.
  - intros Hk.
    destruct (Nat.lt_ge_cases (k * step) len) as [|Hge]; [done|].
    assert ((len + (step - 1)) / step < k + 1); [|lia].
    apply Nat.Div0.div_lt_upper_bound; lia.
  - intros Hk. assert (k + 1 <= (len + (step - 1)) / step); [|lia].
    apply Nat.div_le_lower_bound; lia.
Qed.

Lemma ceil_div_zero (len step : nat) :
  0 < step → ((len + (step - 1)) / step = 0 ↔ len = 0).
Proof.
  intros Hs. pose proof (ceil_div_lt len step 0 Hs) as H. simpl in H. lia.
Qed.

(** The number of windows that start at or after [a]. *)
Lemma windows_left_succ (len step a : nat) :
  0 < step → a < len →
  (len - a + (step - 1)) / step = S ((len - (a + step) + (step - 1)) / step).
Proof.
  intros Hs Ha.
  destruct (Nat.le_gt_cases (a + step) len) as [Hle|Hgt].
  - replace (len - a + (step - 1)) with (len - (a + step) + (step - 1) + 1 * step)
      by lia.
    rewrite Nat.div_add by lia. lia.
  - replace (len - (a + step)) with 0 by lia. simpl.
    rewrite (Nat.div_small (step - 1) step) by lia.
    symmetry. apply (Nat.div_unique _ _ _ (len - a - 1)); lia.
Qed.

Lemma windows_left_zero (len step a : nat) :
  0 < step → len ≤ a → (len - a + (step - 1)) / step = 0.
Proof.
  intros Hs Ha. replace (len - a) with 0 by lia. apply Nat.div_small. lia.
Qed.

End Windows.

Section Chunking.

Variable text : string.
Variables chunkSize overlap : Z.
Hypothesis sizes : (0 ≤ overlap < chunkSize)%Z.

Let size := Z.to_nat chunkSize.
Let step := Z.to_nat (chunkSize - overlap).
Let len := String.length text.

Lemma step_pos : 0 < step ≤ size.
Proof. unfold step, size. lia. Qed.

(** A chunk cut at a position inside the text is the window of [size] units
    that starts there. *)
Lemma slice_window (a : nat) :
  a < len →
  String_slice text (Z.of_nat a)
    (Z.min (Z.of_nat a + chunkSize) (Z.of_nat (String.length text)))
  = String.substring a size text.
Proof.
  intros Ha. fold len. unfold String_slice, relative_index. fold len.
  destruct (Z.ltb_spec (Z.of_nat a) 0) as [?|_]; [lia|].
  destruct (Z.ltb_spec (Z.min (Z.of_nat a + chunkSize) (Z.of_nat len)) 0)
    as [?|_]; [lia|].
  rewrite (Z.min_l (Z.of_nat a)) by lia.
  rewrite (Z.min_l _ (Z.of_nat len)) by lia.
  rewrite Nat2Z.id. apply units_inj. rewrite !units_substring.
  pose proof (length_units text) as Hl. fold len in Hl.
  destruct (Z.le_ge_cases (Z.of_nat a + chunkSize) (Z.of_nat len)) as [Hle|Hge].
  - rewrite Z.min_l by done. f_equal. unfold size. lia.
  - rewrite Z.min_r by lia.
    rewrite !take_ge; [done| |]; rewrite length_drop; unfold size; lia.
Qed.

Lemma chunkText_loop_windows (fuel : nat) : ∀ (a : nat) (chunks : list string),
  (len - a + (step - 1)) / step < fuel →
  chunkText_loop fuel text chunkSize overlap (Z.of_nat a) chunks
  = Some (chunks ++ map (λ k, String.substring (a + k * step) size text)
                        (seq 0 ((len - a + (step - 1)) / step))).
Proof.
  pose proof step_pos as [Hs _].
  induction fuel as [|fuel IH]; intros a chunks Hfuel; [lia|].
  simpl. fold len.
  destruct (Z.ltb_spec (Z.of_nat a) (Z.of_nat len)) as [Ha|Ha].
  - rewrite slice_window by lia.
    replace (Z.of_nat a + (chunkSize - overlap))%Z with (Z.of_nat (a + step))
      by (unfold step; lia).
    rewrite (windows_left_succ len step a) in * by lia.
    rewrite IH by lia. f_equal. rewrite <- app_assoc. f_equal. simpl.
    rewrite Nat.add_0_r. f_equal.
    rewrite <- fmap_S_seq, <- list_fmap_compose.
    apply list_fmap_ext. intros _ k _. simpl. f_equal. lia.
  - rewrite windows_left_zero by lia. simpl. by rewrite app_nil_r.
Qed.

Lemma chunkText_loop_raw (fuel : nat) :
  len < fuel →
  chunkText_loop fuel text chunkSize overlap 0 [] = Some (windows text size step).
Proof.
  intros Hfuel. pose proof step_pos as [Hs Hss].
  change 0%Z with (Z.of_nat 0).
  rewrite chunkText_loop_windows.
  - simpl. rewrite Nat.sub_0_r. reflexivity.
  - rewrite Nat.sub_0_r.
    destruct (Nat.lt_ge_cases ((len + (step - 1)) / step) fuel); [done|].
    assert (len < (len + (step - 1)) / step) as Hk by lia.
    apply ceil_div_lt in Hk; [nia|done].
Qed.

Lemma chunkText_eval (fuel : nat) :
  len < fuel →
  chunkText fuel text chunkSize overlap
  = Some (List.filter (λ c, negb (blank c)) (windows text size step)).
Proof.
  intros Hfuel. unfold chunkText. rewrite chunkText_loop_raw by done.
  simpl. f_equal. apply filter_ext. intros c. apply trim_length.
Qed.

(** Where a window is followed by another, what it holds past the first
    [step] units is what the next one begins with. *)
Lemma windows_overlap (k : nat) :
  let w := λ j, units (String.substring (j * step) size text) in
  S k * step < len →
  drop step (w k) = take (length (w k) - step) (w (S k))
  ∧ (k * step + size ≤ len → length (w k) - step = Z.to_nat overlap)
  ∧ (len ≤ k * step + size → w (S k) = drop step (w k)).
Proof.
  intros w Hk. pose proof step_pos as [Hs Hss]. unfold w.
  rewrite !units_substring.
  pose proof (length_units text) as Hl. fold len in Hl.
  assert (length (take size (drop (k * step) (units text)))
          = Nat.min size (len - k * step)) as Hlen.
  { rewrite length_take, length_drop. lia. }
  rewrite Hlen. split; [|split].
  - rewrite skipn_firstn_comm, drop_drop, take_take.
    replace (k * step + step) with (S k * step) by lia.
    destruct (Nat.le_gt_cases (k * step + size) len) as [Hfull|Hshort].
    + f_equal. lia.
    + rewrite !take_ge; [done| |]; rewrite length_drop; lia.
  - intros Hfull. unfold size, step in *. lia.
  - intros Hend. rewrite skipn_firstn_comm, drop_drop.
    replace (k * step + step) with (S k * step) by lia.
    rewrite !take_ge; [done| |]; rewrite length_drop; lia.
Qed.

(** X10. With an overlap smaller than the chunk size, [chunkText] returns
    after at most [text.length + 1] tests of its loop condition, with the
    windows of [chunkSize] code units that start every [chunkSize - overlap]
    units, in order and without the blank ones.  So every chunk it returns
    holds a character that is not white space and at most [chunkSize] code
    units, and the empty text gives no chunk. *)
Theorem chunkText_windows (fuel : nat) :
  len < fuel →
  chunkText fuel text chunkSize overlap
  = Some (List.filter (λ c, negb (blank c)) (windows text size step))
  ∧ (∀ c, c ∈ List.filter (λ c, negb (blank c)) (windows text size step) →
          blank c = false ∧ 0 < String.length c ≤ size)
  ∧ (len = 0 → chunkText fuel text chunkSize overlap = Some []).
Proof.
  intros Hfuel. pose proof step_pos as [Hs Hss].
  pose proof (chunkText_eval fuel Hfuel) as Heq.
  split; [done|]. split.
  - intros c Hc. apply elem_of_list_filter in Hc as [Hc Hb].
    apply negb_true_iff in Hb. split; [done|].
    apply list_elem_of_fmap in Hc as (k & -> & _).
    rewrite <- length_units. split.
    + apply blank_units in Hb as (i & ch & Hi & _).
      apply lookup_lt_Some in Hi. lia.
    + rewrite units_substring, length_take. lia.
  - intros H0. rewrite Heq. unfold windows. fold len.
    by rewrite (proj2 (ceil_div_zero len step Hs) H0).
Qed.

(** X11. No text is lost: every character of the text that is not white
    space lies in a chunk that [chunkText] returns, at the position the
    window's start gives. *)
Theorem chunkText_covers (fuel p : nat) (c : Ascii.ascii) :
  len < fuel → units text !! p = Some c → is_white_space c = false →
  ∃ chunks k chunk,
    chunkText fuel text chunkSize overlap = Some chunks
    ∧ chunk ∈ chunks
    ∧ chunk = String.substring (k * step) size text
    ∧ k * step ≤ p < k * step + size
    ∧ units chunk !! (p - k * step) = Some c.
Proof.
  intros Hfuel Hp Hc. pose proof step_pos as [Hs Hss].
  pose proof (chunkText_eval fuel Hfuel) as Heq.
  pose proof (lookup_lt_Some _ _ _ Hp) as Hlt. rewrite length_units in Hlt.
  fold len in Hlt.
  pose proof (Nat.div_mod_eq p step) as Hdiv.
  pose proof (Nat.mod_upper_bound p step ltac:(lia)) as Hmod.
  set (k := p / step) in *.
  assert (k * step ≤ p < k * step + step) as Hk by lia.
  assert (units (String.substring (k * step) size text) !! (p - k * step) = Some c)
    as Hin.
  { rewrite units_substring, lookup_take_lt by lia.
    rewrite lookup_drop. rewrite <- Hp. f_equal. lia. }
  eexists _, k, _. split; [exact Heq|]. split; [|split; [reflexivity|]].
  - apply elem_of_list_filter. split.
    + unfold windows. apply list_elem_of_fmap. exists k. split; [done|].
      apply elem_of_seq. split; [lia|]. simpl. fold len.
      apply ceil_div_lt; lia.
    + apply negb_true_iff, blank_units. by eexists _, c.
  - split; [lia|done].
Qed.

(** X12. Consecutive chunks overlap.  Of two chunks that the loop of
    [chunkText] cuts one after the other, the first holds past its first
    [chunkSize - overlap] units what the second begins with; that is
    [overlap] units when the first chunk is a full one.  When the text ends
    within the overlap, the last chunk repeats the end of the one before it
    and adds nothing. *)
Theorem chunkText_overlap (fuel : nat) :
  len < fuel →
  ∃ chunks,
    chunkText_loop fuel text chunkSize overlap 0 [] = Some chunks
    ∧ ∀ k a b, chunks !! k = Some a → chunks !! S k = Some b →
        drop step (units a) = take (length (units a) - step) (units b)
        ∧ (k * step + size ≤ len → length (units a) - step = Z.to_nat overlap)
        ∧ (len ≤ k * step + size → units b = drop step (units a)).
Proof.
  intros Hfuel. pose proof step_pos as [Hs Hss].
  exists (windows text size step). split; [by apply chunkText_loop_raw|].
  intros k a b Ha Hb. unfold windows in Ha, Hb.
  rewrite list_lookup_fmap in Ha, Hb.
  destruct (seq 0 ((String.length text + (step - 1)) / step) !! k)
    as [k0|] eqn:Hk0; [|done].
  destruct (seq 0 ((String.length text + (step - 1)) / step) !! S k)
    as [k1|] eqn:Hk1; [|done].
  apply lookup_seq in Hk0 as [-> _]. apply lookup_seq in Hk1 as [-> Hlt].
  injection Ha as <-. injection Hb as <-. simpl.
  apply (windows_overlap k). apply ceil_div_lt in Hlt; [|done].
  exact Hlt.
Qed.

End Chunking.

Section Diverging.

(** X13. With an overlap that is not smaller than the chunk size the loop of
    [chunkText] never ends on a text that is not empty: the start of the next
    chunk does not move forward.  Whatever the number of tests allowed, the
    function has not returned. *)
Theorem chunkText_diverges (text : string) (chunkSize overlap : Z) (fuel : nat) :
  (chunkSize ≤ overlap)%Z → 0 < String.length text →
  chunkText fuel text chunkSize overlap = None.
Proof.
  intros Hs Hlen. unfold chunkText.
  assert (∀ fuel start chunks, (start ≤ 0)%Z →
            chunkText_loop fuel text chunkSize overlap start chunks = None)
    as Hloop.
  { clear fuel. induction fuel as [|fuel IH]; intros start chunks Hstart;
      simpl; [done|].
    destruct (Z.ltb_spec start (Z.of_nat (String.length text))) as [_|?]; [|lia].
    apply IH. lia. }
  by rewrite Hloop.
Qed.

End Diverging.

Lemma chunkText_windows_witness :
  chunkText 12 "Berkshire  " 4 1
  = Some ["Berk"; "kshi"; "ire "].
Proof.
  destruct (chunkText_windows "Berkshire  " 4 1 ltac:(lia) 12 ltac:(simpl; lia))
    as [H _].
  rewrite H. reflexivity.
Defined.

Lemma chunkText_covers_witness :
  ∃ chunks k chunk,
    chunkText 12 "Berkshire  " 4 1 = Some chunks
    ∧ chunk ∈ chunks
    ∧ chunk = String.substring (k * 3) 4 "Berkshire  "
    ∧ k * 3 ≤ 5 < k * 3 + 4
    ∧ units chunk !! (5 - k * 3) = units "Berkshire  " !! 5.
Proof.
  exact (chunkText_covers "Berkshire  " 4 1 ltac:(lia) 12 5 _
           ltac:(simpl; lia) eq_refl eq_refl).
Defined.

Lemma chunkText_overlap_witness :
  ∃ chunks,
    chunkText_loop 12 "Berkshire  " 4 1 0 [] = Some chunks
    ∧ ∀ k a b, chunks !! k = Some a → chunks !! S k = Some b →
        drop 3 (units a) = take (length (units a) - 3) (units b)
        ∧ (k * 3 + 4 ≤ 11 → length (units a) - 3 = 1)
        ∧ (11 ≤ k * 3 + 4 → units b = drop 3 (units a)).
Proof.
  exact (chunkText_overlap "Berkshire  " 4 1 ltac:(lia) 12 ltac:(simpl; lia)).
Defined.

Lemma chunkText_diverges_witness :
  chunkText 1000 "To the shareholders" 200 200 = None.
Proof. apply chunkText_diverges; simpl; lia. Defined.

(** ** The chunks of a document *)

Section ChunksOf.

Lemma blank_substring (s : string) (n m : nat) :
  blank s = true → blank (String.substring n m s) = true.
Proof.
  unfold blank. rewrite units_substring, !forallb_forall.
  intros H c Hc. apply H. apply list_elem_of_In. apply list_elem_of_In in Hc.
  apply elem_of_take in Hc as (i & Hi & _).
  rewrite lookup_drop in Hi. by eapply list_elem_of_lookup_2.
Qed.

Lemma filter_all_blank (l : list string) :
  Forall (λ c, blank c = true) l → List.filter (λ c, negb (blank c)) l = [].
Proof.
  induction 1 as [|c l Hc _ IH]; simpl; [done|]. by rewrite Hc.
Qed.

Lemma map_pageContent_imap (l : list string) : ∀ f : nat → string → Document,
  (∀ j c, pageContent (f j c) = c) → map pageContent (imap f l) = l.
Proof.
  induction l as [|c l IH]; intros f Hf; simpl; [done|].
  rewrite Hf. f_equal. apply IH. intros j c'. apply Hf.
Qed.

(** X14. The first store numbers the chunks of each document on its own:
    a chunk carries its position among the chunks kept of its document as
    [chunkIndex] and their number as [totalChunks], whatever the document's
    metadata said under those keys, and the rest of the document's metadata
    unchanged.  The chunks are the windows of 1000 code units every 800 that
    are not blank, so a document that is empty or all white space contributes
    no chunk at all. *)
Theorem chunks_of_metadata (d : BerkshireDocument) :
  let texts := List.filter (λ c, negb (blank c)) (windows (content d) 1000 800) in
  map pageContent (chunks_of d) = texts
  ∧ (∀ idx c, chunks_of d !! idx = Some c →
       metadata c !! "chunkIndex" = Some (Scalar (Num (float_of_nat idx)))
       ∧ metadata c !! "totalChunks"
         = Some (Scalar (Num (float_of_nat (length texts))))
       ∧ ∀ key, key ≠ "chunkIndex" → key ≠ "totalChunks" →
                metadata c !! key = default ∅ (bd_metadata d) !! key)
  ∧ (blank (content d) = true → chunks_of d = [] ∧ allChunks [d] = []).
Proof.
  intros texts. unfold chunks_of.
  pose proof (chunkText_eval (content d) chunkSize chunkOverlap
                ltac:(unfold chunkSize, chunkOverlap; lia)
                (S (String.length (content d))) ltac:(lia)) as Heq.
  change (Z.to_nat chunkSize) with 1000 in Heq.
  change (Z.to_nat (chunkSize - chunkOverlap)) with 800 in Heq.
  rewrite Heq. simpl default at 1 2. fold texts.
  assert (blank (content d) = true → texts = []) as Hblank.
  { intros Hb. apply filter_all_blank, Forall_forall.
    intros c (k & -> & _)%list_elem_of_fmap. by apply blank_substring. }
  split; [|split].
  - by apply map_pageContent_imap.
  - intros idx c Hc. rewrite list_lookup_imap in Hc.
    change (default [] (Some texts)) with texts in Hc.
    destruct (texts !! idx) as [t|]; simpl in Hc; [|done].
    injection Hc as <-. simpl.
    split; [|split].
    + by rewrite lookup_insert_ne, lookup_insert_eq.
    + by rewrite lookup_insert_eq.
    + intros key H1 H2. by rewrite !lookup_insert_ne.
  - intros Hb. unfold allChunks, chunks_of. simpl. rewrite Heq. simpl default.
    fold texts. by rewrite (Hblank Hb).
Qed.

End ChunksOf.

Lemma chunks_of_metadata_witness :
  chunks_of (mkBerkshireDocument "   " (Some {[ "chunkIndex" := Scalar (Num 7) ]}))
  = [].
Proof.
  apply (proj2 (proj2 (chunks_of_metadata
                  (mkBerkshireDocument "   "
                     (Some {[ "chunkIndex" := Scalar (Num 7) ]}))))).
  reflexivity.
Defined.
(** * The ingestion pipeline *)

Ltac run_app :=
  unfold mbind, App_bind, mret, App_ret, app_try, app_lift, app_throw, say,
    in_store in *;
  simpl in *.

Import PdfIngestion.

Section Pdfs.

Variable fs : FileSystem.
Variable path : Path.

Lemma processPDF_eval (filePath : string) (metadata : gmap string jsval)
    (w : world) :
  ∃ w', store w' = store w ∧
    processPDF fs path filePath metadata w =
      (match pdfParse_text fs filePath with
       | inr text =>
           Returned
             [mkBerkshireDocument text
                (Some (metadata ∪
                         {[ "source" := Scalar (Str filePath);
                            "fileName" :=
                              Scalar (Str (path_basename path filePath ".pdf"));
                            "type" := Scalar (Str "pdf") ]}))]
       | inl e => Thrown e
       end, w').
Proof.
  unfold processPDF, parsePDF. run_app.
  destruct (pdfParse_text fs filePath) as [e|text]; simpl;
    eexists; (split; [|reflexivity]); done.
Qed.

Lemma merged_metadata (directoryPath pdfFile text : string)
    (metadata : gmap string jsval) :
  let filePath := path_join path directoryPath pdfFile in
  document_of_pdf path directoryPath metadata (pdfFile, text)
    (mkBerkshireDocument text
       (Some (metadata ∪
                {[ "source" := Scalar (Str filePath);
                   "fileName" := Scalar (Str (path_basename path filePath ".pdf"));
                   "type" := Scalar (Str "pdf") ]}))).
Proof.
  intros filePath. split; [done|]. eexists. split; [reflexivity|]. split.
  - intros key v Hv. by apply lookup_union_Some_l.
  - intros key Hnone. rewrite lookup_union_r by done.
    repeat case_bool_decide; by simplify_map_eq.
Qed.

(** X15. [processPDF] returns one document holding the text of the file;
    in its metadata the properties the caller passes take precedence over
    the [source], [fileName] and [type] that [processPDF] sets itself.  When
    the text cannot be extracted the error is thrown on.  The store is not
    touched either way. *)
Theorem processPDF_metadata (directoryPath pdfFile : string)
    (metadata : gmap string jsval) (w : world) :
  let filePath := path_join path directoryPath pdfFile in
  let result := processPDF fs path filePath metadata w in
  store result.2 = store w
  ∧ (∀ text, pdfParse_text fs filePath = inr text →
       ∃ d, result.1 = Returned [d]
            ∧ document_of_pdf path directoryPath metadata (pdfFile, text) d)
  ∧ (∀ e, pdfParse_text fs filePath = inl e → result.1 = Thrown e).
Proof.
  intros filePath result. unfold result.
  destruct (processPDF_eval filePath metadata w) as (w' & Hs & ->). simpl.
  split; [done|]. split.
  - intros text ->. eexists. split; [reflexivity|]. apply merged_metadata.
  - by intros e ->.
Qed.

Lemma processAllPDFs_loop_spec (directoryPath : string)
    (metadata : gmap string jsval) (pdfFiles : list string) :
  ∀ (allDocuments : list BerkshireDocument) (w : world),
  ∃ docs w',
    processAllPDFs_loop fs path directoryPath metadata pdfFiles allDocuments w
      = (Returned (allDocuments ++ docs), w')
    ∧ store w' = store w
    ∧ Forall2 (document_of_pdf path directoryPath metadata)
        (omap (λ pdfFile,
                 match pdfParse_text fs (path_join path directoryPath pdfFile) with
                 | inr text => Some (pdfFile, text)
                 | inl _ => None
                 end) pdfFiles)
        docs.
Proof.
  induction pdfFiles as [|pdfFile rest IH]; intros acc w.
  - exists [], w. simpl. rewrite app_nil_r. by repeat split.
  - simpl.
    destruct (processPDF_eval (path_join path directoryPath pdfFile) metadata w)
      as (w1 & Hs1 & Heq).
    unfold mbind at 1, App_bind at 1, app_try at 1.
    unfold mbind at 1, App_bind at 1. rewrite Heq.
    destruct (pdfParse_text fs (path_join path directoryPath pdfFile))
      as [e|text].
    + run_app.
      destruct (IH acc
                  {| store := store w1;
                     terminal := terminal w1 ++
                       [mkLine ToError "Failed to process ${pdfFile}:"
                               [Text pdfFile; Caught e]] |})
        as (docs & w' & -> & Hs & Hall).
      exists docs, w'. split; [done|]. split; [by rewrite Hs|done].
    + run_app.
      destruct (IH (acc ++ [mkBerkshireDocument text
                     (Some (metadata ∪
                        {[ "source" := Scalar (Str (path_join path directoryPath pdfFile));
                           "fileName" := Scalar (Str (path_basename path
                                                        (path_join path directoryPath pdfFile) ".pdf"));
                           "type" := Scalar (Str "pdf") ]}))]) w1)
        as (docs & w' & -> & Hs & Hall).
      eexists (_ :: docs), w'. split; [by rewrite <- app_assoc|].
      split; [by rewrite Hs|].
      constructor; [apply merged_metadata|done].
Qed.

Lemma processAllPDFs_eval (directoryPath : string)
    (metadata : gmap string jsval) (w : world) :
  ∃ r w', processAllPDFs fs path directoryPath metadata w = (r, w')
            ∧ store w' = store w
            ∧ match readdir fs directoryPath with
              | inl e => r = Thrown e
              | inr files =>
                  ∃ docs, r = Returned docs
                    ∧ Forall2 (document_of_pdf path directoryPath metadata)
                              (parsed_pdfs fs path directoryPath files) docs
              end.
Proof.
  unfold processAllPDFs. run_app.
  destruct (readdir fs directoryPath) as [e|files]; simpl.
  - by eexists _, _.
  - match goal with |- context [processAllPDFs_loop _ _ _ _ ?l ?a ?w0] =>
      destruct (processAllPDFs_loop_spec directoryPath metadata l a w0)
        as (docs & w' & -> & Hs & Hall) end.
    simpl. eexists _, _. split; [reflexivity|]. split; [done|].
    exists docs. split; [done|exact Hall].
Qed.

(** X16. [processAllPDFs] goes on when a file fails.  Given the listing of
    the directory it returns one document for every file named [*.pdf] whose
    text can be extracted, in the order of the listing, each with the
    caller's metadata over the file's own; files that fail are written to the
    console and left out, other files are ignored, and nothing is thrown.
    Only a directory that cannot be listed makes it throw. *)
Theorem processAllPDFs_skips_failures (directoryPath : string)
    (metadata : gmap string jsval) (w : world) :
  let result := processAllPDFs fs path directoryPath metadata w in
  store result.2 = store w
  ∧ (∀ files, readdir fs directoryPath = inr files →
       ∃ docs, result.1 = Returned docs
         ∧ Forall2 (document_of_pdf path directoryPath metadata)
                   (parsed_pdfs fs path directoryPath files) docs)
  ∧ (∀ e, readdir fs directoryPath = inl e → result.1 = Thrown e).
Proof.
  intros result.
  destruct (processAllPDFs_eval directoryPath metadata w) as (r & w' & Heq & Hs & Hr).
  unfold result. rewrite Heq. simpl. split; [done|].
  destruct (readdir fs directoryPath) as [e|files].
  - split; [intros ? [=]|]. by intros e' [= <-].
  - split; [|intros ? [=]]. by intros files' [= <-].
Qed.

Lemma processBerkshireLetters_loop_spec (directoryPath : string)
    (pdfFiles : list string) :
  ∀ (allDocuments : list BerkshireDocument) (w : world),
  ∃ docs w',
    processBerkshireLetters_loop fs path directoryPath pdfFiles allDocuments w
      = (Returned (allDocuments ++ docs), w')
    ∧ store w' = store w
    ∧ Forall2 (λ p d, document_of_pdf path directoryPath (letter_metadata p.1) p d)
        (omap (λ pdfFile,
                 match pdfParse_text fs (path_join path directoryPath pdfFile) with
                 | inr text => Some (pdfFile, text)
                 | inl _ => None
                 end) pdfFiles)
        docs.
Proof.
  induction pdfFiles as [|pdfFile rest IH]; intros acc w.
  - exists [], w. simpl. rewrite app_nil_r. by repeat split.
  - simpl.
    destruct (processPDF_eval (path_join path directoryPath pdfFile)
                (letter_metadata pdfFile) w) as (w1 & Hs1 & Heq).
    unfold letter_metadata in Heq.
    unfold mbind at 1, App_bind at 1, app_try at 1.
    unfold mbind at 1, App_bind at 1. rewrite Heq.
    destruct (pdfParse_text fs (path_join path directoryPath pdfFile))
      as [e|text].
    + run_app.
      match goal with |- context [processBerkshireLetters_loop _ _ _ _ ?a ?w0] =>
        destruct (IH a w0) as (docs & w' & -> & Hs & Hall) end.
      exists docs, w'. split; [done|]. split; [by rewrite Hs|done].
    + run_app.
      match goal with |- context [processBerkshireLetters_loop _ _ _ _ ?a ?w0] =>
        destruct (IH a w0) as (docs & w' & -> & Hs & Hall) end.
      eexists (_ :: docs), w'. split; [by rewrite <- app_assoc|].
      split; [by rewrite Hs|].
      constructor; [|done]. apply (merged_metadata directoryPath pdfFile text).
Qed.

Lemma processBerkshireLetters_eval (directoryPath : string) (w : world) :
  ∃ r w', processBerkshireLetters fs path directoryPath w = (r, w')
            ∧ store w' = store w
            ∧ match readdir fs directoryPath with
              | inl e => r = Thrown e
              | inr files =>
                  ∃ docs, r = Returned docs
                    ∧ Forall2 (λ p d, document_of_pdf path directoryPath
                                        (letter_metadata p.1) p d)
                              (parsed_pdfs fs path directoryPath files) docs
              end.
Proof.
  unfold processBerkshireLetters. run_app.
  destruct (readdir fs directoryPath) as [e|files]; simpl.
  - by eexists _, _.
  - match goal with |- context [processBerkshireLetters_loop _ _ _ ?l ?a ?w0] =>
      destruct (processBerkshireLetters_loop_spec directoryPath l a w0)
        as (docs & w' & -> & Hs & Hall) end.
    simpl. eexists _, _. split; [reflexivity|]. split; [done|].
    exists docs. split; [done|exact Hall].
Qed.

(** X17. [processBerkshireLetters] makes one document per letter that can
    be read: for the listing of the directory, one document for every file
    named [*.pdf] whose text can be extracted, in the order of the listing,
    with [company], [documentType] and the [year] read off the file name in
    its metadata.  A file that fails is skipped, nothing is thrown for it,
    and the store is not touched. *)
Theorem processBerkshireLetters_letters (directoryPath : string) (w : world) :
  let result := processBerkshireLetters fs path directoryPath w in
  store result.2 = store w
  ∧ (∀ files, readdir fs directoryPath = inr files →
       ∃ docs, result.1 = Returned docs
         ∧ Forall2 (λ p d, document_of_pdf path directoryPath
                             (letter_metadata p.1) p d)
                   (parsed_pdfs fs path directoryPath files) docs)
  ∧ (∀ e, readdir fs directoryPath = inl e → result.1 = Thrown e).
Proof.
  intros result.
  destruct (processBerkshireLetters_eval directoryPath w) as (r & w' & Heq & Hs & Hr).
  unfold result. rewrite Heq. simpl. split; [done|].
  destruct (readdir fs directoryPath) as [e|files].
  - split; [intros ? [=]|]. by intros e' [= <-].
  - split; [|intros ? [=]]. by intros files' [= <-].
Qed.

End Pdfs.

(** ** The year in a file name *)

Section Years.

Lemma match_4_digits_first (s : list Ascii.ascii) : ∀ i,
  digit_run s i = true → (∀ j, j < i → digit_run s j = false) →
  match_4_digits s = Some (take 4 (drop i s)).
Proof.
  induction s as [|c s IH]; intros i Hi Hfirst.
  - unfold digit_run in Hi. rewrite drop_nil in Hi. simpl in Hi. done.
  - destruct i as [|i].
    + unfold digit_run in Hi. rewrite drop_0 in Hi.
      cbn [match_4_digits]. by rewrite Hi.
    + pose proof (Hfirst 0 ltac:(lia)) as H0.
      unfold digit_run in H0. rewrite drop_0 in H0.
      cbn [match_4_digits]. rewrite H0. simpl drop.
      apply IH; [exact Hi|].
      intros j Hj. apply (Hfirst (S j)). lia.
Qed.

Lemma match_4_digits_none (s : list Ascii.ascii) :
  (∀ i, digit_run s i = false) → match_4_digits s = None.
Proof.
  induction s as [|c s IH]; intros Hnone; [done|].
  pose proof (Hnone 0) as H0. unfold digit_run in H0. rewrite drop_0 in H0.
  cbn [match_4_digits]. rewrite H0. apply IH. intros i. apply (Hnone (S i)).
Qed.

Lemma parseInt_four (a b c d : nat) :
  a < 10 → b < 10 → c < 10 → d < 10 →
  parseInt [digit_unit a; digit_unit b; digit_unit c; digit_unit d]
  = four_digits a b c d.
Proof.
  intros Ha Hb Hc Hd. unfold parseInt, four_digits, digit_unit. f_equal.
  cbn [foldl]. rewrite !Ascii.nat_ascii_embedding by lia. lia.
Qed.

(** X18. The year of a letter is read off its file name as the regular
    expression [/(\d{4})/] finds it: the number written by the leftmost four
    digits in a row, whatever comes before or after them, so [19771231.pdf]
    is a letter of 1977.  A name without four digits in a row gives
    [undefined]. *)
Theorem year_of_file_name (pdfFile : string) :
  (∀ i, digit_run (units pdfFile) i = true →
        (∀ j, j < i → digit_run (units pdfFile) j = false) →
        year_of pdfFile = Num (parseInt (take 4 (drop i (units pdfFile)))))
  ∧ ((∀ i, digit_run (units pdfFile) i = false) → year_of pdfFile = Undefined)
  ∧ (∀ a b c d, a < 10 → b < 10 → c < 10 → d < 10 →
       parseInt [digit_unit a; digit_unit b; digit_unit c; digit_unit d]
       = four_digits a b c d).
Proof.
  unfold year_of. split; [|split].
  - intros i Hi Hfirst. by rewrite (match_4_digits_first _ i Hi Hfirst).
  - intros Hnone. by rewrite match_4_digits_none.
  - apply parseInt_four.
Qed.

End Years.

Lemma year_of_file_name_witness :
  year_of "letter_19771231.pdf" = Num 1977
  ∧ year_of "q3-98.pdf" = Undefined.
Proof.
  split.
  - rewrite (proj1 (year_of_file_name "letter_19771231.pdf") 7).
    + vm_compute. reflexivity.
    + vm_compute. reflexivity.
    + intros j Hj.
      do 7 (destruct j as [|j]; [vm_compute; reflexivity|]). lia.
  - apply (proj1 (proj2 (year_of_file_name "q3-98.pdf"))).
    intros i. do 9 (destruct i as [|i]; [vm_compute; reflexivity|]).
    unfold digit_run. rewrite drop_ge by (simpl; lia). reflexivity.
Defined.

(** ** [ingestBerkshireLetters] *)

Section Ingesting.

Variable embeddings : OpenAIEmbeddings.
Variable fs : FileSystem.
Variable path : Path.
Variable __dirname : string.

Abbreviation pdfDirectory := (path_join path __dirname "../../../data/pdfs").

(** How a run of [ingestBerkshireLetters] ends, by its two steps: listing
    and reading the letters, then adding them to the store. *)
Lemma ingestBerkshireLetters_cases (w : world) :
  ∃ w0 r w1,
    store w0 = store w
    ∧ processBerkshireLetters fs path pdfDirectory w0 = (r, w1)
    ∧ match r with
      | Returned documents =>
          if bool_decide (length documents = 0)
          then (Ingest.ingestBerkshireLetters embeddings fs path __dirname w).1
                 = Returned tt
               ∧ store (Ingest.ingestBerkshireLetters embeddings fs path __dirname w).2
                 = store w1
          else ∃ s1, store w1 = s1 ∧
                 match BerkshireVectorStore.addDocuments embeddings documents s1 with
                 | (r', s') =>
                     (Ingest.ingestBerkshireLetters embeddings fs path __dirname w).1
                       = match r' with
                         | Returned _ => Returned tt
                         | Thrown e => Thrown e
                         | IllTyped => IllTyped
                         end
                     ∧ store (Ingest.ingestBerkshireLetters embeddings fs path
                                __dirname w).2 = s'
                 end
      | Thrown e =>
          (Ingest.ingestBerkshireLetters embeddings fs path __dirname w).1 = Thrown e
          ∧ store (Ingest.ingestBerkshireLetters embeddings fs path __dirname w).2
            = store w1
      | IllTyped =>
          (Ingest.ingestBerkshireLetters embeddings fs path __dirname w).1 = IllTyped
          ∧ store (Ingest.ingestBerkshireLetters embeddings fs path __dirname w).2
            = store w1
      end.
Proof.
  unfold Ingest.ingestBerkshireLetters.
  set (P := processBerkshireLetters fs path pdfDirectory).
  set (A := BerkshireVectorStore.addDocuments embeddings).
  clearbody P A. run_app.
  match goal with |- context [P ?w0] => exists w0, (P w0).1, (P w0).2 end.
  split; [done|]. split; [by destruct (P _)|].
  destruct (P _) as [[documents|e|] w1]; simpl; try done.
  case_bool_decide; simpl; [done|].
  eexists. split; [reflexivity|].
  by destruct (A documents (store w1)) as [[[]|e|] s'].
Qed.

(** X19. With nothing to ingest the store is left alone.  When the
    directory holds no PDF whose text can be extracted,
    [ingestBerkshireLetters] returns without a request to the provider and
    without writing the snapshot; when the directory cannot be listed it
    throws that error, again with the store untouched. *)
Theorem ingest_nothing (w : world) :
  let result := Ingest.ingestBerkshireLetters embeddings fs path __dirname w in
  (∀ files, readdir fs pdfDirectory = inr files →
            parsed_pdfs fs path pdfDirectory files = [] →
            result.1 = Returned tt ∧ store result.2 = store w)
  ∧ (∀ e, readdir fs pdfDirectory = inl e →
          result.1 = Thrown e ∧ store result.2 = store w).
Proof.
  intros result. unfold result.
  destruct (ingestBerkshireLetters_cases w) as (w0 & r & w1 & Hs0 & HP & Hcases).
  destruct (processBerkshireLetters_eval fs path pdfDirectory w0)
    as (r' & w1' & HP' & Hs1 & Hr).
  rewrite HP in HP'. injection HP' as <- <-.
  split.
  - intros files Hfiles Hnone. rewrite Hfiles in Hr.
    destruct Hr as (docs & -> & Hall). rewrite Hnone in Hall.
    apply Forall2_nil_inv_l in Hall as ->. simpl in Hcases.
    destruct Hcases as [-> ->]. split; [done|]. by rewrite Hs1.
  - intros e He. rewrite He in Hr. subst r.
    destruct Hcases as [-> ->]. split; [done|]. by rewrite Hs1.
Qed.

(** X20. After an ingestion, a query by year finds letters by the year in
    their file name.  Every document [queryByYear] returns from the store
    that [ingestBerkshireLetters] leaves behind is either one that was in the
    index before, or holds the text of a PDF of the directory whose file name
    has the year asked for as its leftmost four digits. *)
Theorem ingested_letters_by_year (w w' : world) (files : list string) :
  Ingest.ingestBerkshireLetters embeddings fs path __dirname w = (Returned tt, w') →
  readdir fs pdfDirectory = inr files →
  ∀ q year topK results,
    (BerkshireVectorStore.queryByYear embeddings q year topK (store w')).1
      = Returned results →
    Forall (λ d,
              (∃ r, r ∈ docs (store w)
                    ∧ content d = pageContent (doc r)
                    ∧ bd_metadata d = Some (metadata (doc r)))
              ∨ (∃ pdfFile y,
                   (pdfFile, content d) ∈ parsed_pdfs fs path pdfDirectory files
                   ∧ year_of pdfFile = Num y
                   ∧ (y =? year)%float = true))
           results.
Proof.
  intros Hrun Hfiles q year topK results Hres.
  destruct (ingestBerkshireLetters_cases w) as (w0 & r & w1 & Hs0 & HP & Hcases).
  destruct (processBerkshireLetters_eval fs path pdfDirectory w0)
    as (r' & w1' & HP' & Hs1 & Hr).
  rewrite HP in HP'. injection HP' as <- <-.
  rewrite Hfiles in Hr. destruct Hr as (documents & -> & Hall).
  rewrite Hrun in Hcases. cbn [fst snd] in Hcases.
  unfold BerkshireVectorStore.queryByYear in Hres.
  pose proof (query_results_pass _ _ _ _ _ _ Hres) as Hpass.
  eapply Forall_impl; [exact Hpass|]. simpl.
  intros d (rec & Hin & Hp & Hc & Hmd).
  assert (∃ recs, docs (store w') = docs (store w) ++ recs
                  ∧ map doc recs = imap BerkshireVectorStore.chunk documents)
    as (recs & Hdocs & Hrecs).
  { case_bool_decide.
    - destruct Hcases as [_ ->]. exists []. rewrite app_nil_r, Hs1, Hs0.
      split; [done|]. by destruct documents.
    - destruct Hcases as (s1 & <- & Hadd).
      destruct (BerkshireVectorStore.addDocuments embeddings documents (store w1))
        as [r' s'] eqn:Heq.
      destruct Hadd as [Hr' <-]. destruct r' as [[]|e|]; try discriminate Hr'.
      destruct (facade_addDocuments_returned embeddings documents _ _ Heq)
        as (recs & Hd & Hm).
      exists recs. rewrite Hd, Hs1, Hs0. split; [reflexivity|exact Hm]. }
  rewrite Hdocs in Hin. apply elem_of_app in Hin as [Hin|Hin].
  { left. exists rec. split; [exact Hin|]. split; [exact Hc|exact Hmd]. }
  right.
  apply list_elem_of_lookup_1 in Hin as (i & Hi).
  assert (imap BerkshireVectorStore.chunk documents !! i = Some (doc rec)) as Hchunk.
  { rewrite <- Hrecs, list_lookup_fmap, Hi. reflexivity. }
  rewrite list_lookup_imap in Hchunk.
  destruct (documents !! i) as [d0|] eqn:Hd0; [|discriminate Hchunk].
  injection Hchunk as Hchunk.
  destruct (Forall2_lookup_r _ _ _ _ _ Hall Hd0) as ([pdfFile text] & Hp0 & Hdoc).
  destruct Hdoc as (Hcontent & md & Hmd0 & Hgiven & _).
  cbn [fst snd] in Hcontent, Hgiven.
  destruct (chunk_lookup i d0) as (Hpc & _ & _ & Hkeys).
  rewrite Hchunk in Hpc, Hkeys. rewrite Hmd0 in Hkeys.
  simpl in Hkeys.
  rewrite matches_spec in Hp.
  specialize (Hp "year" (Num year) (lookup_singleton_eq _ _)).
  rewrite get_member_plain in Hp by (by vm_compute).
  unfold get_prop in Hp. rewrite (Hkeys "year") in Hp by discriminate.
  rewrite (Hgiven "year" (Scalar (year_of pdfFile))) in Hp
    by (unfold letter_metadata;
        by rewrite !lookup_insert_ne, lookup_singleton_eq).
  simpl in Hp.
  destruct (year_of pdfFile) as [| |b|y|t] eqn:Hy; try discriminate Hp.
  exists pdfFile, y. split; [|split; [exact Hy|exact Hp]].
  rewrite Hc, Hpc, Hcontent. eapply list_elem_of_lookup_2. exact Hp0.
Qed.

End Ingesting.

Lemma processPDF_metadata_witness :
  ∃ d, (processPDF shelf plain_paths "pdfs/letter_1977.PDF"
          {[ "source" := Scalar (Str "archive") ]} empty_world).1
       = Thrown (SyntaxError "Invalid PDF structure")
     ∧ (processPDF shelf plain_paths "src/../../../data/pdfs/letter_1977.PDF"
          {[ "source" := Scalar (Str "archive") ]} empty_world).1
       = Returned [d]
     ∧ bd_metadata d
       = Some {[ "source" := Scalar (Str "archive");
                 "fileName" := Scalar (Str "src/../../../data/pdfs/letter_1977.PDF");
                 "type" := Scalar (Str "pdf") ]}.
Proof.
  pose proof (processPDF_metadata shelf plain_paths "pdfs" "letter_1977.PDF"
                {[ "source" := Scalar (Str "archive") ]} empty_world) as (_ & _ & H).
  eexists. split; [exact (H _ eq_refl)|]. split; vm_compute; reflexivity.
Defined.

Lemma processAllPDFs_skips_failures_witness :
  ∃ d, (processAllPDFs shelf plain_paths "src/../../../data/pdfs" ∅ empty_world).1
       = Returned [d]
       ∧ content d = "To the Stockholders of Berkshire Hathaway Inc.".
Proof.
  destruct (processAllPDFs_skips_failures shelf plain_paths
              "src/../../../data/pdfs" ∅ empty_world) as (_ & H & _).
  destruct (H _ eq_refl) as (docs & Hd & Hall).
  vm_compute in Hall.
  inversion Hall as [|p d ps ds Hdoc Hrest]; subst.
  inversion Hrest; subst.
  exists d. split; [exact Hd|]. exact (proj1 Hdoc).
Defined.

Lemma processBerkshireLetters_letters_witness :
  ∃ d md, (processBerkshireLetters shelf plain_paths "src/../../../data/pdfs"
             empty_world).1 = Returned [d]
       ∧ bd_metadata d = Some md
       ∧ md !! "year" = Some (Scalar (Num 1977)).
Proof.
  destruct (processBerkshireLetters_letters shelf plain_paths
              "src/../../../data/pdfs" empty_world) as (_ & H & _).
  destruct (H _ eq_refl) as (docs & Hd & Hall).
  vm_compute parsed_pdfs in Hall.
  inversion Hall as [|p d ps ds Hdoc Hrest]; subst.
  inversion Hrest; subst.
  destruct Hdoc as (_ & md & Hmd & Hgiven & _).
  exists d, md. split; [exact Hd|]. split; [exact Hmd|].
  apply Hgiven. vm_compute. reflexivity.
Defined.

Lemma ingest_nothing_witness :
  let result := Ingest.ingestBerkshireLetters steady bare_disk plain_paths "src"
                  empty_world in
  result.1 = Thrown (ProviderError "ENOENT: no such file or directory")
  ∧ store result.2 = empty_state.
Proof.
  exact (proj2 (ingest_nothing steady bare_disk plain_paths "src" empty_world)
           _ eq_refl).
Defined.

Lemma ingested_letters_by_year_witness :
  let w' := (Ingest.ingestBerkshireLetters steady shelf plain_paths "src"
               empty_world).2 in
  Forall (λ d, ∃ pdfFile, pdfFile ∈ ["letter_1977.PDF"; "1978.pdf"]
                          ∧ year_of pdfFile = Num 1977)
         (match (BerkshireVectorStore.queryByYear steady "float" 1977 None
                   (store w')).1 with
          | Returned results => results
          | _ => []
          end).
Proof.
  intros w'.
  assert (Ingest.ingestBerkshireLetters steady shelf plain_paths "src" empty_world
          = (Returned tt, w')) as Hrun by (vm_compute; reflexivity).
  destruct (BerkshireVectorStore.queryByYear steady "float" 1977 None (store w')).1
    as [results| |] eqn:Hq; [|constructor|constructor].
  pose proof (ingested_letters_by_year steady shelf plain_paths "src"
                empty_world w' _ Hrun eq_refl "float" 1977%float None results Hq)
    as Hall.
  eapply Forall_impl; [exact Hall|]. cbv beta.
  intros d [(r & Hr & _)|(pdfFile & y & Hin & Hy & Heq)].
  - apply elem_of_nil in Hr. destruct Hr.
  - vm_compute parsed_pdfs in Hin.
    apply list_elem_of_singleton in Hin. injection Hin as -> _.
    exists "letter_1977.PDF". split; [apply list_elem_of_here|].
    vm_compute. reflexivity.
Defined.
(** * File names, the quick start script and the HTTP handler *)

Import PdfIngestion.

Section PdfNames.

Lemma units_toLowerCase (s : string) :
  units (toLowerCase s) = map toLowerCase_unit (units s).
Proof. unfold toLowerCase, units. apply String.list_ascii_of_string_of_list_ascii. Qed.

Lemma toLowerCase_unit_cases (c : Ascii.ascii) :
  (toLowerCase_unit c = Ascii.ascii_of_nat 46 ↔ Ascii.nat_of_ascii c = 46)
  ∧ (toLowerCase_unit c = Ascii.ascii_of_nat 112
     ↔ Ascii.nat_of_ascii c = 112 ∨ Ascii.nat_of_ascii c = 80)
  ∧ (toLowerCase_unit c = Ascii.ascii_of_nat 100
     ↔ Ascii.nat_of_ascii c = 100 ∨ Ascii.nat_of_ascii c = 68)
  ∧ (toLowerCase_unit c = Ascii.ascii_of_nat 102
     ↔ Ascii.nat_of_ascii c = 102 ∨ Ascii.nat_of_ascii c = 70).
Proof.
  destruct c as [[] [] [] [] [] [] [] []]; vm_compute;
    repeat split; intros; try discriminate; try tauto;
    repeat match goal with H : _ ∨ _ |- _ => destruct H end; discriminate.
Qed.

(** X21. A file counts as a PDF exactly when its name ends in a dot followed
    by [p], [d] and [f], each in either case: nothing may follow, not even a
    space, and the name may consist of the extension alone. *)
Theorem is_pdf_ending (file : string) :
  is_pdf file = true ↔
  ∃ before x1 x2 x3 x4,
    units file = before ++ [x1; x2; x3; x4] ∧ pdf_ending x1 x2 x3 x4.
Proof.
  unfold is_pdf, endsWith. rewrite bool_decide_eq_true, units_toLowerCase.
  change (units ".pdf") with [Ascii.ascii_of_nat 46; Ascii.ascii_of_nat 112;
                              Ascii.ascii_of_nat 100; Ascii.ascii_of_nat 102].
  unfold pdf_ending. split.
  - intros [k Hk].
    apply fmap_app_inv in Hk as (before & last & -> & Hlast & Hfile).
    destruct last as [|x1 [|x2 [|x3 [|x4 [|]]]]]; try discriminate.
    injection Hlast as H1 H2 H3 H4. symmetry in H1, H2, H3, H4.
    exists before, x1, x2, x3, x4. split; [exact Hfile|].
    pose proof (toLowerCase_unit_cases x1) as (E1 & _).
    pose proof (toLowerCase_unit_cases x2) as (_ & E2 & _).
    pose proof (toLowerCase_unit_cases x3) as (_ & _ & E3 & _).
    pose proof (toLowerCase_unit_cases x4) as (_ & _ & _ & E4).
    tauto.
  - intros (before & x1 & x2 & x3 & x4 & -> & H1 & H2 & H3 & H4).
    exists (map toLowerCase_unit before). rewrite fmap_app. f_equal. simpl.
    pose proof (toLowerCase_unit_cases x1) as (E1 & _).
    pose proof (toLowerCase_unit_cases x2) as (_ & E2 & _).
    pose proof (toLowerCase_unit_cases x3) as (_ & _ & E3 & _).
    pose proof (toLowerCase_unit_cases x4) as (_ & _ & _ & E4).
    by rewrite (proj2 E1 H1), (proj2 E2 H2), (proj2 E3 H3), (proj2 E4 H4).
Qed.

End PdfNames.

Section Script.

Variable fs : FileSystem.
Variable path : Path.
Variable __dirname : string.

(** X22. [checkPDFs] never throws and changes nothing: it returns the
    number of names in [data/pdfs] that end in [.pdf], and 0 when the
    directory cannot be listed, so that a missing directory and an empty one
    look the same to the caller. *)
Theorem checkPDFs_counts (w : world) :
  ∃ n, QuickStart.checkPDFs fs path __dirname w = (Returned n, w)
     ∧ match readdir fs (path_join path __dirname "../data/pdfs") with
       | inr files => n = length (List.filter is_pdf files)
       | inl _ => n = 0
       end.
Proof.
  unfold QuickStart.checkPDFs. run_app.
  destruct (readdir fs _) as [e|files]; simpl; by eexists.
Qed.

End Script.

Import Api.

Section Handler.

Variable embeddings : OpenAIEmbeddings.

Lemma units_app (a b : string) : units (String.app a b) = units a ++ units b.
Proof. induction a as [|c a IH]; simpl; [done|]. by rewrite <- IH. Qed.

Lemma length_app_string (a b : string) :
  String.length (String.app a b) = String.length a + String.length b.
Proof. by rewrite <- !length_units, units_app, length_app. Qed.

(** X23. What the handler shows of a document is at most 503 code units:
    the content itself when it has no more than 500, and its first 500
    followed by three dots otherwise. *)
Theorem preview_length (c : string) :
  String.length (preview c) ≤ 503
  ∧ (String.length c ≤ 500 → preview c = c)
  ∧ (500 < String.length c →
     preview c = String.app (String.substring 0 500 c) "..."
     ∧ String.length (preview c) = 503).
Proof.
  unfold preview.
  assert (String.length (String.substring 0 500 c) = Nat.min 500 (String.length c))
    as Hlen.
  { rewrite <- !length_units, units_substring, drop_0, length_take. done. }
  destruct (Nat.ltb_spec 500 (String.length c)) as [Hlong|Hshort].
  - rewrite length_app_string, Hlen. simpl String.length.
    split; [lia|]. split; [lia|]. intros _. split; [done|lia].
  - rewrite length_app_string, Hlen. simpl String.length.
    split; [lia|]. split; [|lia]. intros _.
    apply units_inj. rewrite units_app, units_substring, drop_0. simpl.
    rewrite app_nil_r. apply take_ge. rewrite length_units. lia.
Qed.

Lemma handler_cases (req : VercelRequest) (w : world) :
  let q := default "" (req_query req !! "q") in
  let asked := mkLine ToLog "Query received: ${q}" [Text q] in
  let answer := BerkshireVectorStore.query embeddings q (Some 5%Z) None (store w) in
  handler embeddings req w =
    if bool_decide (q = "") then
      (Returned
         (mkResponse 400
            (Obj {[ "error" :=
                      Scalar (Str (String.app "Missing query parameter "
                                     (String.app quote (String.app "q" quote)))) ]})),
       w)
    else
      match answer.1 with
      | Returned results =>
          (Returned
             (mkResponse 200
                (Obj {[ "query" := Scalar (Str q);
                        "results" := Arr (map result_json results) ]})),
           mkWorld answer.2 (terminal w ++ [asked]))
      | Thrown err =>
          (Returned
             (mkResponse 500 (Obj {[ "error" := Scalar (Str (message err)) ]})),
           mkWorld answer.2
             (terminal w ++ [asked; mkLine ToError "Query error:" [Caught err]]))
      | IllTyped => (IllTyped, mkWorld answer.2 (terminal w ++ [asked]))
      end.
Proof.
  intros q asked answer. unfold handler. fold q.
  unfold answer. generalize (BerkshireVectorStore.query embeddings q (Some 5%Z) None).
  intros Q. case_bool_decide; run_app; [by destruct w|].
  destruct (Q (store w)) as [[results|e|] s']; simpl; try done.
  by rewrite <- app_assoc.
Qed.

(** X24. A request without a query is turned away before anything else
    happens: when [q] is missing or empty the handler answers 400 with the
    error message, and the world is exactly as before, with no request to
    the provider and no line on the console. *)
Theorem handler_missing_query (req : VercelRequest) (w : world) :
  req_query req !! "q" = None ∨ req_query req !! "q" = Some "" →
  handler embeddings req w =
    (Returned
       (mkResponse 400
          (Obj {[ "error" :=
                    Scalar (Str (String.app "Missing query parameter "
                                   (String.app quote (String.app "q" quote)))) ]})),
     w).
Proof.
  intros Hq. rewrite handler_cases. cbv zeta.
  by destruct Hq as [-> | ->].
Qed.

(** X25. The handler always answers and never throws.  Every run ends with
    a response of status 200, 400 or 500, and the records and the files of
    the store as before; when the provider rejects the query the response is
    500 with the message of the provider's error. *)
Theorem handler_always_answers (req : VercelRequest) (w : world) :
  ∃ resp,
    (handler embeddings req w).1 = Returned resp
    ∧ (res_status resp = 200 ∨ res_status resp = 400 ∨ res_status resp = 500)
    ∧ docs (store (handler embeddings req w).2) = docs (store w)
    ∧ files (store (handler embeddings req w).2) = files (store w)
    ∧ (∀ q e, req_query req !! "q" = Some q → q ≠ "" →
         embedQuery embeddings (requests (store w)) q = inl e →
         resp = mkResponse 500 (Obj {[ "error" := Scalar (Str (message e)) ]})).
Proof.
  rewrite handler_cases. cbv zeta.
  case_bool_decide as Hq.
  - eexists. split; [reflexivity|]. split; [by right; left|].
    split; [done|]. split; [done|].
    intros q e Hq' Hne. rewrite Hq' in Hq. done.
  - destruct (query_effects embeddings (default "" (req_query req !! "q"))
                (Some 5%Z) None (store w)) as (Hd & Hf & _ & Hill & Herr).
    destruct (BerkshireVectorStore.query embeddings _ _ _ _) as [[results|e|] s'];
      simpl in *; [| |done].
    + eexists. split; [reflexivity|]. split; [by left|].
      split; [done|]. split; [done|].
      intros q e Hq' _ He. rewrite Hq' in Herr. simpl in Herr.
      by destruct (Herr e He).
    + eexists. split; [reflexivity|]. split; [by right; right|].
      split; [done|]. split; [done|].
      intros q e' Hq' _ He. rewrite Hq' in Herr. simpl in Herr.
      destruct (Herr e' He) as [[= ->] _]. done.
Qed.

(** X26. A successful answer lists what the store's [query] returned for
    the text with [topK] 5: at most five results, in the order of the
    ranking, each with its preview and its metadata. *)
Theorem handler_results (req : VercelRequest) (w : world) (resp : VercelResponse) :
  (handler embeddings req w).1 = Returned resp → res_status resp = 200 →
  ∃ q results,
    req_query req !! "q" = Some q
    ∧ (BerkshireVectorStore.query embeddings q (Some 5%Z) None (store w)).1
      = Returned results
    ∧ res_json resp = Obj {[ "query" := Scalar (Str q);
                             "results" := Arr (map result_json results) ]}
    ∧ length results ≤ 5
    ∧ ∀ i d, results !! i = Some d →
        map result_json results !! i
        = Some (Obj {[ "content" := Scalar (Str (preview (content d)));
                       "metadata" := match bd_metadata d with
                                     | Some m => Obj m
                                     | None => Scalar Undefined
                                     end ]}).
Proof.
  rewrite handler_cases. cbv zeta.
  case_bool_decide as Hq; [by intros [= <-]|].
  destruct (req_query req !! "q") as [q|] eqn:Hreq; [|done].
  change (default "" (Some q)) with q in *.
  pose proof (query_length embeddings q 5 None (store w)) as Hlen.
  destruct (BerkshireVectorStore.query embeddings q (Some 5%Z) None (store w)).1
    as [results|e|] eqn:Hquery; [| |done].
  - intros [= <-] _. exists q, results. split; [done|]. split; [done|].
    split; [done|]. split.
    + specialize (Hlen results eq_refl ltac:(lia)). lia.
    + intros i d Hi. by rewrite list_lookup_fmap, Hi.
  - by intros [= <-].
Qed.

End Handler.

Lemma is_pdf_ending_witness :
  is_pdf "1977.PDF" = true ∧ is_pdf ".pdf" = true ∧ is_pdf "1977.pdf " = false.
Proof.
  split; [|split; reflexivity].
  apply is_pdf_ending.
  exists (units "1977"), (Ascii.ascii_of_nat 46), (Ascii.ascii_of_nat 80),
    (Ascii.ascii_of_nat 68), (Ascii.ascii_of_nat 70).
  split; [reflexivity|]. unfold pdf_ending. vm_compute. tauto.
Defined.

Lemma checkPDFs_counts_witness :
  QuickStart.checkPDFs shelf plain_paths "src" empty_world = (Returned 2, empty_world)
  ∧ QuickStart.checkPDFs bare_disk plain_paths "src" empty_world
    = (Returned 0, empty_world).
Proof.
  split.
  - destruct (checkPDFs_counts shelf plain_paths "src" empty_world) as (n & -> & Hn).
    simpl in Hn. by rewrite Hn.
  - destruct (checkPDFs_counts bare_disk plain_paths "src" empty_world)
      as (n & -> & Hn).
    simpl in Hn. by rewrite Hn.
Defined.

Lemma preview_length_witness :
  preview "To the Stockholders" = "To the Stockholders".
Proof. apply (proj1 (proj2 (preview_length "To the Stockholders"))). simpl. lia. Defined.

Lemma handler_missing_query_witness :
  (handler steady (mkRequest {[ "q" := "" ]}) empty_world).1
  = Returned (mkResponse 400
                (Obj {[ "error" :=
                          Scalar (Str (String.app "Missing query parameter "
                                         (String.app quote (String.app "q" quote)))) ]})).
Proof.
  rewrite (handler_missing_query steady (mkRequest {[ "q" := "" ]}) empty_world).
  - reflexivity.
  - right. reflexivity.
Defined.

Lemma handler_always_answers_witness :
  let down := mkEmbeddings (λ _ texts, inr (map length_embedding texts))
                           (λ _ _, inl (ProviderError "503 unavailable")) in
  (handler down (mkRequest {[ "q" := "float" ]}) empty_world).1
  = Returned (mkResponse 500 (Obj {[ "error" := Scalar (Str "503 unavailable") ]})).
Proof.
  intros down.
  destruct (handler_always_answers down (mkRequest {[ "q" := "float" ]}) empty_world)
    as (resp & -> & _ & _ & _ & H).
  f_equal. apply (H "float" (ProviderError "503 unavailable")); [reflexivity| |reflexivity].
  discriminate.
Defined.

Lemma handler_results_witness :
  let s := mkState [mkRecord (mkDocument "a" ∅) (Some [1; 1]%float)] ∅ [] [] in
  ∃ resp q results,
    (handler steady (mkRequest {[ "q" := "float" ]}) (mkWorld s [])).1 = Returned resp
    ∧ res_json resp = Obj {[ "query" := Scalar (Str q);
                             "results" := Arr (map result_json results) ]}
    ∧ length results ≤ 5.
Proof.
  intros s.
  assert (∃ resp,
            (handler steady (mkRequest {[ "q" := "float" ]}) (mkWorld s [])).1
              = Returned resp ∧ res_status resp = 200) as (resp & Hr & Hs).
  { eexists. split; [vm_compute; reflexivity|reflexivity]. }
  destruct (handler_results steady (mkRequest {[ "q" := "float" ]}) (mkWorld s [])
              resp Hr Hs) as (q & results & _ & _ & Hj & Hl & _).
  exists resp, q, results. split; [exact Hr|]. split; [exact Hj|exact Hl].
Defined.

(** ** The agent and its tools *)

Import BerkshireAgent.

Section Agent.

Variable embeddings : OpenAIEmbeddings.
Variable Number_toString : float → string.

Lemma query_empty_index (q : string) (topK : option Z)
    (filter : option (gmap string scalar)) (s : state) (qe : list float) :
  docs s = [] → embedQuery embeddings (requests s) q = inr qe →
  (BerkshireVectorStore.query embeddings q topK filter s).1 = Returned [].
Proof.
  intros Hd Hq.
  pose proof (query_results_pass embeddings q topK filter s) as Hpass.
  rewrite (query_eval embeddings q topK filter s qe Hq) in *.
  rewrite (similaritySearch_eval embeddings q _ filter s qe Hq) in *.
  rewrite Hd in *. simpl in *.
  match goal with |- Returned ?l = _ => destruct l as [|d l'] eqn:Hl end; [done|].
  specialize (Hpass _ eq_refl).
  apply Forall_cons in Hpass as [(r & Hr & _) _]. by apply elem_of_nil in Hr.
Qed.

Lemma year_passes (year : float) (r : vrecord) :
  passes (Some {[ "year" := Num year ]}) r = true →
  ∃ y, metadata (doc r) !! "year" = Some (Scalar (Num y)) ∧ (y =? year)%float = true.
Proof.
  simpl. rewrite matches_spec. intros Hp.
  specialize (Hp "year" (Num year) (lookup_singleton_eq _ _)).
  rewrite get_member_plain in Hp by (by vm_compute).
  unfold get_prop in Hp.
  destruct (metadata (doc r) !! "year") as [[[| |b|y|t]|l|m]|] eqn:Hy;
    try discriminate.
  by exists y.
Qed.

(** X27. The [beforeGenerate] hook never throws: every run returns a
    context, with the records and the files of the store as before.  When the
    provider rejects the prompt the context is the fixed error text and the
    error is the last line on the console; on an empty index the context says
    that nothing was found. *)
Theorem beforeGenerate_never_throws (prompt : string) (w : world) :
  let result := beforeGenerate embeddings Number_toString prompt w in
  ∃ context,
    result.1 = Returned context
    ∧ docs (store result.2) = docs (store w)
    ∧ files (store result.2) = files (store w)
    ∧ (∀ e, embedQuery embeddings (requests (store w)) prompt = inl e →
         context = "Error retrieving information from shareholder letters."
         ∧ last (terminal result.2)
           = Some (mkLine ToError "Error retrieving context:" [Caught e]))
    ∧ (∀ qe, embedQuery embeddings (requests (store w)) prompt = inr qe →
         docs (store w) = [] →
         context = "No relevant information found in shareholder letters. The database may not be initialized yet.").
Proof.
  intros result. subst result. unfold beforeGenerate.
  destruct (query_effects embeddings prompt (Some 5%Z) None (store w))
    as (Hd & Hf & _ & Hill & Herr).
  pose proof (λ qe, query_empty_index prompt (Some 5%Z) None (store w) qe) as Hempty.
  revert Hd Hf Hill Herr Hempty.
  generalize (BerkshireVectorStore.query embeddings prompt (Some 5%Z) None).
  intros Q Hd Hf Hill Herr Hempty. run_app.
  destruct (Q (store w)) as [[results|e|] s'] eqn:HQ; simpl in *; [| |done].
  - case_bool_decide as Hlen; simpl.
    + eexists. split; [reflexivity|]. split; [done|]. split; [done|]. split.
      * intros e He. by destruct (Herr e He).
      * done.
    + destruct (SimpleMemoryVectorStore.map_throwing _ _) as [e|passages]; simpl.
      * eexists. split; [reflexivity|]. split; [done|]. split; [done|]. split.
        -- intros e' He. by destruct (Herr e' He).
        -- intros qe Hq Hnil. specialize (Hempty qe Hnil Hq).
           injection Hempty as ->. done.
      * eexists. split; [reflexivity|]. split; [done|]. split; [done|]. split.
        -- intros e' He. by destruct (Herr e' He).
        -- intros qe Hq Hnil. specialize (Hempty qe Hnil Hq).
           injection Hempty as ->. done.
  - eexists. split; [reflexivity|]. split; [done|]. split; [done|]. split.
    + intros e' He. destruct (Herr e' He) as [[= ->] _].
      split; [done|]. by rewrite last_snoc.
    + intros qe Hq Hnil. by specialize (Hempty qe Hnil Hq).
Qed.

(** X28. The tool that searches one year's letter answers with passages of
    that year only: every passage is the content of a record of the index
    whose [year] is a number equal to the year asked for, [found] is their
    count, and there are at most [topK] of them, five when [topK] is left
    out. *)
Theorem queryByYearTool_passages (query : string) (year : float)
    (topK : option Z) (w : world) (answer : jsval) :
  (queryByYearTool_execute embeddings query year topK w).1 = Returned answer →
  ∃ results,
    answer
    = Obj {[ "year" := Scalar (Num year);
             "found" := Scalar (Num (float_of_nat (length results)));
             "passages" :=
               Arr (map (λ d, Obj {[ "content" := Scalar (Str (content d));
                                     "chunkIndex" := metadata_prop d "chunkIndex" ]})
                        results) ]}
    ∧ Forall (λ d, ∃ r y, r ∈ docs (store w)
                          ∧ content d = pageContent (doc r)
                          ∧ metadata (doc r) !! "year" = Some (Scalar (Num y))
                          ∧ (y =? year)%float = true
                          ∧ metadata_prop d "chunkIndex"
                            = get_prop (metadata (doc r)) "chunkIndex") results
    ∧ ((0 ≤ default 5 topK)%Z → (Z.of_nat (length results) ≤ default 5 topK)%Z).
Proof.
  unfold queryByYearTool_execute, BerkshireVectorStore.queryByYear. cbv zeta.
  change (default 5%Z (Some (default 5%Z topK))) with (default 5%Z topK).
  pose proof (query_results_pass embeddings query (Some (default 5%Z topK))
                (Some {[ "year" := Num year ]}) (store w)) as Hpass.
  pose proof (query_length embeddings query (default 5%Z topK)
                (Some {[ "year" := Num year ]}) (store w)) as Hlen.
  revert Hpass Hlen.
  generalize (BerkshireVectorStore.query embeddings query (Some (default 5%Z topK))
                (Some {[ "year" := Num year ]})).
  intros Q Hpass Hlen. run_app.
  destruct (Q (store w)) as [[results|e|] s'] eqn:HQ; simpl in *; [|done..].
  intros [= <-]. exists results. split; [done|]. split; [|by apply Hlen].
  eapply Forall_impl; [exact (Hpass results eq_refl)|]. simpl.
  intros d (r & Hr & Hp & Hc & Hmd).
  destruct (year_passes year r Hp) as (y & Hy & Heq).
  exists r, y. split; [exact Hr|]. split; [exact Hc|]. split; [exact Hy|].
  split; [exact Heq|]. unfold metadata_prop. rewrite Hmd. reflexivity.
Qed.

(** X29. The tool that searches all letters reports what the store's
    [query] found: [found] is the number of passages, at most [topK] of them
    (five when [topK] is left out), each with the content, the [year] and the
    [fileName] of a record of the index.  Unlike the hook the tool has no
    [catch]: when the provider rejects the query, the tool throws that
    error.  The records of the index are as before either way. *)
Theorem queryLettersTool_found (query : string) (topK : option Z) (w : world) :
  let result := queryLettersTool_execute embeddings query topK w in
  (∀ answer, result.1 = Returned answer →
     ∃ results,
       answer
       = Obj {[ "found" := Scalar (Num (float_of_nat (length results)));
                "passages" :=
                  Arr (map (λ d, Obj {[ "year" := metadata_prop d "year";
                                        "content" := Scalar (Str (content d));
                                        "fileName" := metadata_prop d "fileName" ]})
                           results) ]}
       ∧ Forall (λ d, ∃ r, r ∈ docs (store w)
                           ∧ content d = pageContent (doc r)
                           ∧ metadata_prop d "year"
                             = get_prop (metadata (doc r)) "year"
                           ∧ metadata_prop d "fileName"
                             = get_prop (metadata (doc r)) "fileName") results
       ∧ ((0 ≤ default 5 topK)%Z → (Z.of_nat (length results) ≤ default 5 topK)%Z))
  ∧ (∀ e, embedQuery embeddings (requests (store w)) query = inl e →
          result.1 = Thrown e)
  ∧ docs (store result.2) = docs (store w).
Proof.
  intros result. subst result. unfold queryLettersTool_execute. cbv zeta.
  pose proof (query_results_pass embeddings query (Some (default 5%Z topK))
                None (store w)) as Hpass.
  pose proof (query_length embeddings query (default 5%Z topK) None (store w))
    as Hlen.
  destruct (query_effects embeddings query (Some (default 5%Z topK)) None (store w))
    as (Hd & _ & _ & _ & Herr).
  revert Hpass Hlen Hd Herr.
  generalize (BerkshireVectorStore.query embeddings query (Some (default 5%Z topK))
                None).
  intros Q Hpass Hlen Hd Herr. run_app.
  destruct (Q (store w)) as [[results|e|] s'] eqn:HQ; simpl in *.
  - split; [|split; [|exact Hd]].
    + intros answer [= <-]. exists results. split; [reflexivity|].
      split; [|by apply Hlen].
      eapply Forall_impl; [exact (Hpass results eq_refl)|]. simpl.
      intros d (r & Hr & _ & Hc & Hmd).
      exists r. split; [exact Hr|]. split; [exact Hc|].
      unfold metadata_prop. rewrite Hmd. split; reflexivity.
    + intros e He. destruct (Herr e He) as [Hfalse _]. discriminate Hfalse.
  - split; [|split; [|exact Hd]].
    + intros answer Hfalse. discriminate Hfalse.
    + intros e' He. destruct (Herr e' He) as [Heq _].
      injection Heq as ->. reflexivity.
  - split; [|split; [|exact Hd]].
    + intros answer Hfalse. discriminate Hfalse.
    + intros e' He. destruct (Herr e' He) as [Hfalse _]. discriminate Hfalse.
Qed.

End Agent.

Lemma queryByYearTool_passages_witness :
  let y2020 := mkDocument "1" {[ "year" := Scalar (Num 2020) ]} in
  let y2021 := mkDocument "22" {[ "year" := Scalar (Num 2021) ]} in
  let s := mkState [mkRecord y2020 (Some [1; 1]%float);
                    mkRecord y2021 (Some [2; 1]%float)] ∅ [] [] in
  ∃ results,
    (queryByYearTool_execute steady "1" 2021 None (mkWorld s [])).1
    = Returned
        (Obj {[ "year" := Scalar (Num 2021);
                "found" := Scalar (Num (float_of_nat (length results)));
                "passages" :=
                  Arr (map (λ d, Obj {[ "content" := Scalar (Str (content d));
                                        "chunkIndex" := metadata_prop d "chunkIndex" ]})
                           results) ]})
    ∧ Forall (λ d, ∃ r y, r ∈ docs s
                          ∧ content d = pageContent (doc r)
                          ∧ metadata (doc r) !! "year" = Some (Scalar (Num y))
                          ∧ (y =? 2021)%float = true
                          ∧ metadata_prop d "chunkIndex"
                            = get_prop (metadata (doc r)) "chunkIndex") results
    ∧ (Z.of_nat (length results) ≤ 5)%Z.
Proof.
  intros y2020 y2021 s.
  destruct (queryByYearTool_passages steady "1" 2021 None (mkWorld s []) _ eq_refl)
    as (results & Hanswer & Hall & Hlen).
  exists results. split; [exact (f_equal Returned Hanswer)|].
  split; [exact Hall|]. apply Hlen. simpl. lia.
Defined.
